(** * Piral: the pilet classifier, the live-update bridge of the emulator
      and the generated dependency filler

    A shallow embedding of three pieces of the repository:

    - [Inspect]: [inspectPilet]
      ([src/framework/piral-base/src/inspect.ts]);
    - [Emulator]: [installPiletEmulator], the handler of the websocket with
      its debounce table, the promise chain of a reload cycle and the merge
      of the feed with the pilets of the debug endpoint
      ([src/tooling/piral-cli/src/common/importmap.ts], lines 206-281);
    - [Codegen]: [createDependencies]
      ([src/framework/piral-core/app.codegen]).

    JavaScript objects used as dictionaries are finite maps of their own
    properties, with what an object made by [{}] inherits written out where
    a key can meet it. A promise is modelled by how it settles, a call of
    the host that may throw by a parameter that says whether it returned,
    and the event loop by a step function on an explicit state that the
    inputs of the environment drive. Time is counted in milliseconds; a
    message is handled when it arrives and the callback of a timer runs
    when it is due. *)

From Stdlib Require Import Ascii SpecFloat.
From stdpp Require Import gmap strings list fin_maps pretty.

(** ** JavaScript values *)

Module Js.

(** A value is a primitive or a reference to an object (plain object, array
    or function); the number type is the IEEE 754 double. *)
Inductive value :=
| VUndefined
| VNull
| VBool (b : bool)
| VNumber (f : spec_float)
| VBigInt (z : Z)
| VString (s : string)
| VSymbol (id : positive)
| VRef (addr : positive).

(** ToBoolean. *)
Definition truthy (v : value) : bool :=
  match v with
  | VUndefined | VNull => false
  | VBool b => b
  | VNumber (S754_zero _) | VNumber S754_nan => false
  | VNumber _ => true
  | VBigInt z => negb (z =? 0)%Z
  | VString s => negb (String.eqb s "")
  | VSymbol _ | VRef _ => true
  end.

(** Strict equality with a string literal, [v === lit]. *)
Definition strict_eq_string (v : value) (lit : string) : bool :=
  match v with
  | VString s => String.eqb s lit
  | _ => false
  end.

(** What the evaluation of an expression completes with. *)
Inductive thrown := TypeError.

Inductive completion (A : Type) :=
| Normal (a : A)
| Throw (e : thrown).
Arguments Normal {A} a.
Arguments Throw {A} e.

Definition bind {A B} (c : completion A) (k : A → completion B) : completion B :=
  match c with
  | Normal a => k a
  | Throw e => Throw e
  end.

(** [a && b] on booleans: [b] is not evaluated when [a] is false. *)
Definition and_also (a b : completion bool) : completion bool :=
  bind a (λ x, if x then b else Normal false).

(** The operand of [in] and of a property access: an object, given by its
    data properties (own and inherited), or a primitive. *)
Inductive operand :=
| Object (props : gmap string value)
| Primitive (p : value).

(** [key in o]: a TypeError unless [o] is an object. *)
Definition has_property (key : string) (o : operand) : completion bool :=
  match o with
  | Object props => Normal (bool_decide (is_Some (props !! key)))
  | Primitive _ => Throw TypeError
  end.

(** [o.key]: [undefined] for a missing property, a TypeError on [undefined]
    and [null]. *)
Definition get (key : string) (o : operand) : completion value :=
  match o with
  | Object props => Normal (default VUndefined (props !! key))
  | Primitive VUndefined | Primitive VNull => Throw TypeError
  | Primitive _ => Normal VUndefined
  end.

End Js.

(** ** piral-base: [inspectPilet] *)

Module Inspect.
Import Js.

(** The two runners of [./lifecycle]; only their identity matters here. *)
Inductive PiletRunner := setupSinglePilet | setupPiletBundle.

Inductive PiletKind := v0 | v1 | v2 | bundle | unknown.

Definition InspectPiletResult : Type := PiletKind * operand * PiletRunner.

(** [inBrowser] is [typeof document !== 'undefined']. *)
Definition inspectPilet (inBrowser : bool) (meta : operand)
  : completion InspectPiletResult :=
  bind (and_also (Normal inBrowser)
          (and_also (has_property "link" meta)
             (bind (get "spec" meta) (λ s, Normal (strict_eq_string s "v2")))))
    (λ c1,
      if c1 then Normal (v2, meta, setupSinglePilet) else
      bind (and_also (Normal inBrowser)
              (and_also (has_property "requireRef" meta)
                 (bind (get "spec" meta)
                    (λ s, Normal (negb (strict_eq_string s "v2"))))))
        (λ c2,
          if c2 then Normal (v1, meta, setupSinglePilet) else
          bind (and_also (Normal inBrowser)
                  (and_also (has_property "bundle" meta)
                     (bind (get "bundle" meta) (λ b, Normal (truthy b)))))
            (λ c3,
              if c3 then Normal (bundle, meta, setupPiletBundle) else
              bind (has_property "hash" meta)
                (λ c4,
                  if c4 then Normal (v0, meta, setupSinglePilet)
                  else Normal (unknown, meta, setupSinglePilet))))).

(** The shapes of section 4.1 of the specification, as propositions on
    the fields of a descriptor (a [PiletEntry] is an object). *)
Definition carries (field : string) (meta : gmap string value) : Prop :=
  is_Some (meta !! field).

Definition spec_is_v2 (meta : gmap string value) : Prop :=
  meta !! "spec" = Some (VString "v2").

Definition rule_v2 (inBrowser : bool) (meta : gmap string value) : Prop :=
  inBrowser = true ∧ carries "link" meta ∧ spec_is_v2 meta.

Definition rule_v1 (inBrowser : bool) (meta : gmap string value) : Prop :=
  inBrowser = true ∧ carries "requireRef" meta ∧ ¬ spec_is_v2 meta.

Definition rule_bundle (inBrowser : bool) (meta : gmap string value) : Prop :=
  inBrowser = true ∧ ∃ b, meta !! "bundle" = Some b ∧ truthy b = true.

Definition rule_v0 (meta : gmap string value) : Prop :=
  carries "hash" meta.

(** The four tests of [inspectPilet] on an object, as booleans. *)
Definition test_v2 (inBrowser : bool) (meta : gmap string value) : bool :=
  inBrowser && bool_decide (is_Some (meta !! "link"))
  && strict_eq_string (default VUndefined (meta !! "spec")) "v2".

Definition test_v1 (inBrowser : bool) (meta : gmap string value) : bool :=
  inBrowser && bool_decide (is_Some (meta !! "requireRef"))
  && negb (strict_eq_string (default VUndefined (meta !! "spec")) "v2").

Definition test_bundle (inBrowser : bool) (meta : gmap string value) : bool :=
  inBrowser && bool_decide (is_Some (meta !! "bundle"))
  && truthy (default VUndefined (meta !! "bundle")).

Definition test_v0 (meta : gmap string value) : bool :=
  bool_decide (is_Some (meta !! "hash")).

(** A descriptor has none of the recognizable shapes of the wire format:
    no [hash], no [requireRef] with a [spec] other than "v2", no [link]
    with [spec] "v2" and no truthy [bundle]. *)
Definition unrecognized (meta : gmap string value) : Prop :=
  ¬ carries "hash" meta ∧
  ¬ (carries "requireRef" meta ∧ ¬ spec_is_v2 meta) ∧
  ¬ (carries "link" meta ∧ spec_is_v2 meta) ∧
  ¬ (∃ b, meta !! "bundle" = Some b ∧ truthy b = true).

(** The descriptors of the end-to-end examples of the specification. *)
Definition descriptor_a : gmap string value :=
  {[ "name" := VString "a"; "hash" := VString "h1" ]}.

Definition descriptor_b : gmap string value :=
  {[ "name" := VString "b"; "link" := VString "/b.js"; "spec" := VString "v2" ]}.

Definition descriptor_c : gmap string value :=
  {[ "name" := VString "c"; "bundle" := VBool true ]}.

End Inspect.

(** ** JavaScript strings *)

Module Str.

(** A string as the list of its characters, and back. *)
Definition chars (s : string) : list ascii := String.list_ascii_of_string s.

Definition str (l : list ascii) : string := String.string_of_list_ascii l.

(** [s.indexOf(c, from)] for a character [c]: the position of the first
    [c] at or after [from], or [-1]. *)
Definition indexOf (c : ascii) (from : nat) (s : string) : Z :=
  match list_find (λ x, x = c) (drop from (chars s)) with
  | Some (i, _) => Z.of_nat (from + i)
  | None => (-1)%Z
  end.

(** [s.substring(a)] and [s.substring(a, b)] for [a ≤ b]. *)
Definition substring_from (a : nat) (s : string) : string :=
  str (drop a (chars s)).

Definition substring (a b : nat) (s : string) : string :=
  str (take (b - a) (drop a (chars s))).

(** [s.startsWith(c)] for a character [c]. *)
Definition startsWith (c : ascii) (s : string) : bool :=
  match s with
  | String x _ => bool_decide (x = c)
  | EmptyString => false
  end.

(** [s.replace(/[ab]/g, c)]: every character of the class becomes [c]. *)
Definition replace_class (class : list ascii) (c : ascii) (s : string) : string :=
  str ((λ x, if decide (x ∈ class) then c else x) <$> chars s).

(** [s.replace(/(c)+/, c)]: the first run of [c] shrinks to one [c]. *)
Fixpoint drop_while_eq (c : ascii) (l : list ascii) : list ascii :=
  match l with
  | x :: rest => if decide (x = c) then drop_while_eq c rest else l
  | [] => []
  end.

Fixpoint shrink_first_run (c : ascii) (l : list ascii) : list ascii :=
  match l with
  | x :: rest =>
      if decide (x = c) then c :: drop_while_eq c rest
      else x :: shrink_first_run c rest
  | [] => []
  end.

Definition replace_first_run (c : ascii) (s : string) : string :=
  str (shrink_first_run c (chars s)).

(** [s.replace(pattern, by)] for a string pattern: the first occurrence
    is replaced, and [s] is returned when there is none. *)
Fixpoint replace_first_in (pattern by_ : list ascii) (l : list ascii)
    : list ascii :=
  if decide (pattern `prefix_of` l) then by_ ++ drop (length pattern) l
  else match l with
       | x :: rest => x :: replace_first_in pattern by_ rest
       | [] => []
       end.

Definition replace (pattern by_ : string) (s : string) : string :=
  str (replace_first_in (chars pattern) (chars by_) (chars s)).

(** [s.includes(pattern)] *)
Fixpoint includes_in (pattern : list ascii) (l : list ascii) : bool :=
  if decide (pattern `prefix_of` l) then true
  else match l with
       | _ :: rest => includes_in pattern rest
       | [] => false
       end.

Definition includes (pattern : string) (s : string) : bool :=
  includes_in (chars pattern) (chars s).

End Str.

(** ** piral-debug-utils: [installPiletEmulator] *)

Module Emulator.

(** How a promise settles. *)
Inductive settlement := fulfilled | rejected.

(** A settled promise with its value or its reason. *)
Inductive promise (A : Type) :=
| Fulfilled (a : A)
| Rejected (reason : string).
Arguments Fulfilled {A} a.
Arguments Rejected {A} reason.

(** [p.then(f)] for a synchronous [f] that does not throw. *)
Definition then_ {A B} (p : promise A) (f : A → B) : promise B :=
  match p with
  | Fulfilled a => Fulfilled (f a)
  | Rejected e => Rejected e
  end.

(** [sessionStorage.getItem(key) === 'on'] *)
Definition session_on (sessionStorage : gmap string string) (key : string) : bool :=
  bool_decide (sessionStorage !! key = Some "on").

Section Bridge.

(** The pilet metadata ([PiletMetadata]); [name m] is [m.name]. *)
Context {Pilet : Type}.
Variable name : Pilet → string.

(** [JSON.parse(data)] of a websocket message, [None] when it throws. *)
Variable JSON_parse : string → option Pilet.

(** [removePilet(n)] as the callback of the timer [c] calls it: [true] when
    it returns a promise, whose settlement is an input of the environment,
    and [false] when the call throws, or returns what has no [then], so
    that the callback ends with an exception. *)
Variable removePilet : nat → string → bool.

(** *** The initial module set *)

(** The body of the debug endpoint's response after [res.json()]. *)
Inductive json_body :=
| JsonArray (items : list Pilet)
| JsonItem (item : Pilet).

(** [(item) => (Array.isArray(item) ? item : [item])] *)
Definition to_list (item : json_body) : list Pilet :=
  match item with
  | JsonArray items => items
  | JsonItem m => [m]
  end.

(** The fields of [EmulatorConnectorOptions] read for the target; [addPilet],
    [removePilet] and [integrate] are the environment of the state machine
    below. *)
Record EmulatorConnectorOptions := {
  piletApiFallback : option string
}.

(** [window['dbg:pilet-api'] || piletApiFallback], with the default
    ['/$pilet-api'] of the destructuring; the window entry is a string or
    is not defined. *)
Definition piletApi (window_pilet_api : option string)
    (options : EmulatorConnectorOptions) : string :=
  let fallback := default "/$pilet-api" (piletApiFallback options) in
  match window_pilet_api with
  | Some s => if String.eqb s "" then fallback else s
  | None => fallback
  end.

(** [/^https?:/.test(s)] *)
Definition is_http (s : string) : bool :=
  String.prefix "http:" s || String.prefix "https:" s.

(** [initialTarget]: a full URI, or an absolute path under the origin. *)
Definition initialTarget (origin : string) (api : string) : string :=
  if is_http api then api
  else origin +:+ (match api with
                   | String "/"%char _ => ""
                   | _ => "/"
                   end) +:+ api.

(** [requester()]: [requestPilets] only when the session asks for pilets,
    [noPilets] otherwise. *)
Definition noPilets : promise (list Pilet) := Fulfilled [].

Definition requester (sessionStorage : gmap string string)
    (requestPilets : promise (list Pilet)) : promise (list Pilet) :=
  let loadPilets := session_on sessionStorage "dbg:load-pilets" in
  if loadPilets then requestPilets else noPilets.

(** The merge at the end of the [integrate] callback. *)
Definition merge (pilets debugPilets : list Pilet) : list Pilet :=
  let debugPiletNames := name <$> debugPilets in
  let feedPilets := filter (λ m, name m ∉ debugPiletNames) pilets in
  feedPilets ++ debugPilets.

(** What one run of the [integrate] callback does before any websocket
    message: the URL it fetches, what it writes with [console.error]
    (message and error) and the promise it returns. [fetch_json url] is the
    settlement of [fetch(url).then((res) => res.json())]. *)
Record integration := {
  fetched : string;
  console : list (string * string);
  loaded : promise (list Pilet)
}.

Definition request_failed : string :=
  "Requesting the pilets failed. We'll continue loading without pilets (DEBUG only).".

Definition integrate_callback
    (sessionStorage : gmap string string)
    (window_pilet_api : option string)
    (origin : string)
    (options : EmulatorConnectorOptions)
    (requestPilets : promise (list Pilet))
    (fetch_json : string → promise json_body) : integration :=
  let promise := requester sessionStorage requestPilets in
  let target := initialTarget origin (piletApi window_pilet_api options) in
  let appendix := then_ (fetch_json target) to_list in
  let caught :=
    match promise with
    | Fulfilled pilets => (pilets, [])
    | Rejected err => ([], [(request_failed, err)])
    end in
  {| fetched := target;
     console := caught.2;
     loaded := then_ appendix (λ debugPilets, merge caught.1 debugPilets) |}.

(** *** The websocket handler and the event loop *)

(** The debounce delay in milliseconds. *)
Definition timeout : nat := 150.

(** A pending [setTimeout] callback: the handle [setTimeout] returned, the
    time it is due and the [meta] its closure captured. *)
Record timer := {
  handle : nat;
  due : nat;
  payload : Pilet
}.

(** The promise chain of a reload cycle that has not completed. *)
Inductive phase :=
| AwaitRemove (meta : Pilet)
| AwaitAdd (meta : Pilet).

(** What the bridge does and is told, in the order it happens. A cycle is
    identified by the handle of the timer that started it. *)
Inductive action :=
| LocationReload
| TimeoutCallback (c : nat) (meta : Pilet)
| FreezeRouteRefresh (c : nat)
| RemovePilet (c : nat) (n : string)
| RemoveSettled (c : nat) (r : settlement)
| AddPilet (c : nat) (meta : Pilet)
| AddSettled (c : nat) (r : settlement)
| Unfreeze (c : nat)
| CallbackThrew (c : nat).

(** The state of the bridge between two tasks of the event loop.
    [timeoutCache] holds the own properties of the object of that name;
    [timers] are the pending callbacks of [setTimeout] in the order they
    were set; [chains] are the promise chains of the cycles in flight. *)
Record state := {
  clock : nat;
  timeoutCache : gmap string nat;
  timers : list timer;
  nextHandle : nat;
  chains : gmap nat phase;
  history : list action
}.

Definition init : state :=
  {| clock := 0; timeoutCache := ∅; timers := []; nextHandle := 1;
     chains := ∅; history := [] |}.

(** [clearTimeout(h)]; [undefined] and handles that are not pending are
    ignored. *)
Definition clearTimeout (h : option nat) (s : state) : state :=
  match h with
  | Some h =>
      {| clock := clock s; timeoutCache := timeoutCache s;
         timers := filter (λ t, handle t ≠ h) (timers s);
         nextHandle := nextHandle s; chains := chains s;
         history := history s |}
  | None => s
  end.

(** [setTimeout(callback, delay)] where the callback closes over [meta]. *)
Definition setTimeout (meta : Pilet) (delay : nat) (s : state) : nat * state :=
  (nextHandle s,
   {| clock := clock s; timeoutCache := timeoutCache s;
      timers := timers s ++
        [{| handle := nextHandle s; due := clock s + delay; payload := meta |}];
      nextHandle := S (nextHandle s); chains := chains s;
      history := history s |}).

(** [timeoutCache[n]] where a handle is expected. The object is made by
    [{}]: under [__proto__] it answers with the accessor of
    [Object.prototype], which gives the prototype and no handle, and what
    it inherits under other keys ([constructor], [toString]) is no handle
    either, as is [undefined]. *)
Definition cached (n : string) (s : state) : option nat :=
  if String.eqb n "__proto__" then None else timeoutCache s !! n.

(** [timeoutCache[n] = h]: the setter of [__proto__] ignores a number;
    every other key becomes an own property. *)
Definition cache (n : string) (h : nat) (timeoutCache : gmap string nat)
    : gmap string nat :=
  if String.eqb n "__proto__" then timeoutCache else <[n := h]> timeoutCache.

(** [ws.onmessage] *)
Definition onmessage (sessionStorage : gmap string string) (data : string)
    (s : state) : state :=
  let hardRefresh := session_on sessionStorage "dbg:hard-refresh" in
  if negb hardRefresh then
    match JSON_parse data with
    | Some meta =>
        let n := name meta in
        let s1 := clearTimeout (cached n s) s in
        let '(h, s2) := setTimeout meta timeout s1 in
        {| clock := clock s2; timeoutCache := cache n h (timeoutCache s2);
           timers := timers s2; nextHandle := nextHandle s2;
           chains := chains s2; history := history s2 |}
    | None => s
    end
  else
    {| clock := clock s; timeoutCache := timeoutCache s; timers := timers s;
       nextHandle := nextHandle s; chains := chains s;
       history := history s ++ [LocationReload] |}.

(** The callback given to [setTimeout], run for the timer [t]: it freezes
    the route refresh and calls [removePilet(meta.name)]. With a promise
    returned the chain is left waiting for it; when the call throws, the
    callback ends there, with no chain and the freeze not released. *)
Definition fire (t : timer) (s : state) : state :=
  let c := handle t in
  let meta := payload t in
  if removePilet c (name meta) then
    {| clock := clock s; timeoutCache := timeoutCache s;
       timers := filter (λ t', handle t' ≠ c) (timers s);
       nextHandle := nextHandle s;
       chains := <[c := AwaitRemove meta]> (chains s);
       history := history s ++
         [TimeoutCallback c meta; FreezeRouteRefresh c;
          RemovePilet c (name meta)] |}
  else
    {| clock := clock s; timeoutCache := timeoutCache s;
       timers := filter (λ t', handle t' ≠ c) (timers s);
       nextHandle := nextHandle s;
       chains := chains s;
       history := history s ++
         [TimeoutCallback c meta; FreezeRouteRefresh c;
          RemovePilet c (name meta); CallbackThrew c] |}.

(** [dt] milliseconds pass: the timers that are due run, in the order they
    were set. *)
Definition advance (dt : nat) (s : state) : state :=
  {| clock := clock s + dt; timeoutCache := timeoutCache s; timers := timers s;
     nextHandle := nextHandle s; chains := chains s; history := history s |}.

Definition tick (dt : nat) (s : state) : state :=
  let s1 := advance dt s in
  foldl (λ s' t, fire t s') s1 (filter (λ t, due t ≤ clock s1) (timers s1)).

(** The promise of [removePilet] of cycle [c] settles:
    [.then(() => addPilet(meta))] runs when it is fulfilled, and the second
    [unfreeze] of [.then(unfreeze, unfreeze)] when it is rejected. *)
Definition remove_settled (c : nat) (r : settlement) (s : state) : state :=
  match chains s !! c with
  | Some (AwaitRemove meta) =>
      match r with
      | fulfilled =>
          {| clock := clock s; timeoutCache := timeoutCache s;
             timers := timers s; nextHandle := nextHandle s;
             chains := <[c := AwaitAdd meta]> (chains s);
             history := history s ++ [RemoveSettled c fulfilled; AddPilet c meta] |}
      | rejected =>
          {| clock := clock s; timeoutCache := timeoutCache s;
             timers := timers s; nextHandle := nextHandle s;
             chains := delete c (chains s);
             history := history s ++ [RemoveSettled c rejected; Unfreeze c] |}
      end
  | _ => s
  end.

(** What [addPilet(meta)] of cycle [c] returned settles (a throw of
    [addPilet] is a rejection): one of the two [unfreeze] runs. *)
Definition add_settled (c : nat) (r : settlement) (s : state) : state :=
  match chains s !! c with
  | Some (AwaitAdd meta) =>
      {| clock := clock s; timeoutCache := timeoutCache s;
         timers := timers s; nextHandle := nextHandle s;
         chains := delete c (chains s);
         history := history s ++ [AddSettled c r; Unfreeze c] |}
  | _ => s
  end.

(** The inputs of the environment. *)
Inductive input :=
| Tick (dt : nat)
| Message (sessionStorage : gmap string string) (data : string)
| RemoveDone (c : nat) (r : settlement)
| AddDone (c : nat) (r : settlement).

Definition step (s : state) (i : input) : state :=
  match i with
  | Tick dt => tick dt s
  | Message sessionStorage data => onmessage sessionStorage data s
  | RemoveDone c r => remove_settled c r s
  | AddDone c r => add_settled c r s
  end.

Definition run (s : state) (inputs : list input) : state :=
  foldl step s inputs.

(** *** Observations on a state *)

(** The pending timers of a module name. *)
Definition pending (n : string) (s : state) : list timer :=
  filter (λ t, name (payload t) = n) (timers s).

(** The payloads of the reload cycles started for a module name, oldest
    first. *)
Definition reloads (n : string) (h : list action) : list Pilet :=
  omap (λ a, match a with
             | TimeoutCallback _ meta =>
                 if decide (name meta = n) then Some meta else None
             | _ => None
             end) h.

(** The calls of [removePilet] for a module name. *)
Definition is_teardown (n : string) (a : action) : bool :=
  match a with
  | RemovePilet _ n' => bool_decide (n' = n)
  | _ => false
  end.

Definition teardowns (n : string) (h : list action) : nat :=
  length (filter (λ a, is_teardown n a = true) h).

(** The cycle an action belongs to. *)
Definition cycle_of (a : action) : option nat :=
  match a with
  | LocationReload => None
  | TimeoutCallback c _ | FreezeRouteRefresh c | RemovePilet c _
  | RemoveSettled c _ | AddPilet c _ | AddSettled c _ | Unfreeze c
  | CallbackThrew c => Some c
  end.

(** The actions of cycle [c], in order. *)
Definition of_cycle (c : nat) (h : list action) : list action :=
  filter (λ a, cycle_of a = Some c) h.

Definition is_freeze (a : action) : bool :=
  match a with FreezeRouteRefresh _ => true | _ => false end.

Definition is_unfreeze (a : action) : bool :=
  match a with Unfreeze _ => true | _ => false end.

(** How often the freeze was acquired and how often it was released. *)
Definition freezes (h : list action) : nat :=
  length (filter (λ a, is_freeze a = true) h).

Definition unfreezes (h : list action) : nat :=
  length (filter (λ a, is_unfreeze a = true) h).

(** How often a callback ended with the exception of [removePilet]. *)
Definition is_throw (a : action) : bool :=
  match a with CallbackThrew _ => true | _ => false end.

Definition throws (h : list action) : nat :=
  length (filter (λ a, is_throw a = true) h).

(** The calls of [addPilet] for a module name, with their payloads. *)
Definition setups (n : string) (h : list action) : list Pilet :=
  omap (λ a, match a with
             | AddPilet _ meta =>
                 if decide (name meta = n) then Some meta else None
             | _ => None
             end) h.

(** *** Runs, bursts and the invariant *)

Definition reachable (s : state) : Prop :=
  ∃ inputs, s = run init inputs.

(** A notification for the module [n] that takes the partial-reload path. *)
Definition notifies (n : string) (meta : Pilet) (i : input) : Prop :=
  ∃ sessionStorage data,
    i = Message sessionStorage data ∧
    session_on sessionStorage "dbg:hard-refresh" = false ∧
    JSON_parse data = Some meta ∧ name meta = n.

(** An input during which no time passes and that is no such notification
    for [n]: a settlement, a notification under hard refresh, a message
    that does not parse or a notification for another module. *)
Definition quiet (n : string) (i : input) : Prop :=
  match i with
  | Tick _ => False
  | Message sessionStorage data =>
      session_on sessionStorage "dbg:hard-refresh" = true ∨
      ∀ meta, JSON_parse data = Some meta → name meta ≠ n
  | RemoveDone _ _ | AddDone _ _ => True
  end.

(** Any input but a notification for [n] on the partial-reload path. *)
Definition calm (n : string) (i : input) : Prop :=
  match i with
  | Tick _ => True
  | _ => quiet n i
  end.

(** An input that is no settlement of the cycle [c]. *)
Definition leaves (c : nat) (i : input) : Prop :=
  match i with
  | RemoveDone c' _ | AddDone c' _ => c' ≠ c
  | _ => True
  end.

(** [burst n e meta inputs]: the inputs begin with a notification for [n],
    every further notification for [n] arrives less than [timeout]
    milliseconds after the one before it, the last of them carries [meta]
    and [e] milliseconds have passed since. *)
Inductive burst (n : string) : nat → Pilet → list input → Prop :=
| burst_first meta i :
    notifies n meta i → burst n 0 meta [i]
| burst_next e meta0 inputs meta i :
    burst n e meta0 inputs → notifies n meta i →
    burst n 0 meta (inputs ++ [i])
| burst_wait e meta inputs dt :
    burst n e meta inputs → e + dt < timeout →
    burst n (e + dt) meta (inputs ++ [Tick dt])
| burst_quiet e meta inputs i :
    burst n e meta inputs → quiet n i →
    burst n e meta (inputs ++ [i]).

(** An action of cycle [c] that a settlement adds: no callback of a timer
    and no call of [removePilet]. *)
Definition settling (c : nat) (a : action) : Prop :=
  cycle_of a = Some c ∧
  (∀ n, reloads n [a] = []) ∧
  (∀ n, teardowns n [a] = 0).

(** The actions of one cycle, by how far its promise chain got. *)
Definition started (c : nat) (meta : Pilet) : list action :=
  [TimeoutCallback c meta; FreezeRouteRefresh c; RemovePilet c (name meta)].

(** What the callback of the timer [c] adds to the history. *)
Definition fired (c : nat) (meta : Pilet) : list action :=
  started c meta ++
  (if removePilet c (name meta) then [] else [CallbackThrew c]).

Inductive shape (c : nat) : option phase → list action → Prop :=
| shape_none : shape c None []
| shape_await_remove meta :
    shape c (Some (AwaitRemove meta)) (started c meta)
| shape_await_add meta :
    shape c (Some (AwaitAdd meta))
      (started c meta ++ [RemoveSettled c fulfilled; AddPilet c meta])
| shape_threw meta :
    shape c None (started c meta ++ [CallbackThrew c])
| shape_remove_failed meta :
    shape c None (started c meta ++ [RemoveSettled c rejected; Unfreeze c])
| shape_completed meta r :
    shape c None
      (started c meta ++ [RemoveSettled c fulfilled; AddPilet c meta;
                          AddSettled c r; Unfreeze c]).

(** The invariant of the bridge. *)
Record wf (s : state) : Prop := {
  wf_cache : ∀ t, t ∈ timers s → name (payload t) ≠ "__proto__" →
    timeoutCache s !! name (payload t) = Some (handle t);
  wf_proto : timeoutCache s !! "__proto__" = None;
  wf_owner : ∀ n t, t ∈ timers s →
    timeoutCache s !! n = Some (handle t) → name (payload t) = n;
  wf_nodup : NoDup (handle <$> timers s);
  wf_timer_below : ∀ t, t ∈ timers s → handle t < nextHandle s;
  wf_cache_below : ∀ n h, timeoutCache s !! n = Some h → h < nextHandle s;
  wf_unused : ∀ c, nextHandle s ≤ c → of_cycle c (history s) = [];
  wf_waiting : ∀ t, t ∈ timers s → of_cycle (handle t) (history s) = [];
  wf_shape : ∀ c, shape c (chains s !! c) (of_cycle c (history s));
  wf_frozen : freezes (history s)
              = unfreezes (history s) + size (chains s) + throws (history s)
}.

(** Timers run as soon as they are due: none that is pending is due. *)
Definition prompt (s : state) : Prop :=
  ∀ t, t ∈ timers s → clock s < due t.

(** The timer of [n] is pending, closes over [meta] and was set [e]
    milliseconds ago. *)
Definition armed (n : string) (meta : Pilet) (e : nat) (s : state) : Prop :=
  ∃ t, pending n s = [t] ∧ payload t = meta ∧ due t + e = clock s + timeout.

End Bridge.

End Emulator.

(** ** piral-core: [createDependencies] of [app.codegen] *)

Module Codegen.

(** [s.split(sep)] for a separator of one character. *)
Fixpoint split (sep : ascii) (s : string) : list string :=
  match s with
  | EmptyString => [EmptyString]
  | String c rest =>
      if Ascii.eqb c sep then EmptyString :: split sep rest
      else match split sep rest with
           | w :: ws => String c w :: ws
           | [] => [String c EmptyString]
           end
  end.

(** The statements the generator pushes. A namespace import stands for
    [import * as _<ref> from "<source>"], an object assignment for
    [deps['<key>']={}] and a reference assignment for
    [deps["<key>"]=_<ref>]; what the other generators of the file push is
    kept as text. *)
Inductive import_statement :=
| ImportNamespace (ref : nat) (source : string)
| ImportText (text : string).

Inductive assignment :=
| AssignObject (key : string)
| AssignRef (key : string) (ref : nat).

Inductive export_statement :=
| FillDependencies (assignments : list assignment)
| ExportText (text : string).

(** The two variables of [process.env] that are read. *)
Record environment := {
  BUILD_PCKG_NAME : option string;
  SHARED_DEPENDENCIES : option string
}.

(** The names of a list with the references the loop gives them, counting
    from [offset]. *)
Fixpoint numbered (offset : nat) (names : list string) : list (nat * string) :=
  match names with
  | [] => []
  | name :: rest => (offset, name) :: numbered (S offset) rest
  end.

Section Generator.

(** [require(`${packageName}/package.json`).version], [None] when [require]
    throws or the file has no version. *)
Variable package_version : string → option string.

(** [JSON.stringify] of a string, for the text of the statements. *)
Variable JSON_stringify : string → string.

Definition getIdentifiers (packageName : string) : list string :=
  match package_version packageName with
  | Some version =>
      if String.eqb version "" then [packageName]
      else [packageName; packageName +:+ "@" +:+ version]
  | None => [packageName]
  end.

(** [(process.env.SHARED_DEPENDENCIES || '').split(',').filter(Boolean)] *)
Definition externals (env : environment) : list string :=
  filter (λ s, s ≠ "") (split ","%char (default "" (SHARED_DEPENDENCIES env))).

(** One turn of the loop over [externals]. *)
Definition add_external (acc : list import_statement * list assignment)
    (name : string) : list import_statement * list assignment :=
  let identifiers := getIdentifiers name in
  let ref := length acc.1 in
  (acc.1 ++ [ImportNamespace ref name],
   acc.2 ++ ((λ id, AssignRef id ref) <$> identifiers)).

Definition createDependencies (env : environment)
    (imports : list import_statement) (exports : list export_statement)
    : list import_statement * list export_statement :=
  let appName := default "" (BUILD_PCKG_NAME env) in
  let assignments :=
    if String.eqb appName "" then [] else [AssignObject appName] in
  let '(imports', assignments') :=
    foldl add_external (imports, assignments) (externals env) in
  (imports', exports ++ [FillDependencies assignments']).

(** The imports and the assignments the loop adds for a list of names when
    the first reference is [offset]. *)
Definition new_imports (offset : nat) (names : list string)
    : list import_statement :=
  (λ p, ImportNamespace p.1 p.2) <$> numbered offset names.

Definition new_assignments (offset : nat) (names : list string)
    : list assignment :=
  numbered offset names ≫= λ p, (λ id, AssignRef id p.1) <$> getIdentifiers p.2.

(** The text that is pushed. *)
Definition import_text (i : import_statement) : string :=
  match i with
  | ImportNamespace ref source =>
      "import * as _" +:+ pretty ref +:+ " from " +:+ JSON_stringify source
  | ImportText text => text
  end.

Definition assignment_text (a : assignment) : string :=
  match a with
  | AssignObject key => "deps['" +:+ key +:+ "']={}"
  | AssignRef key ref => "deps[" +:+ JSON_stringify key +:+ "]=_" +:+ pretty ref
  end.

End Generator.

(** *** Running the generated [fillDependencies] *)

(** What a key of [deps] holds: the namespace object of a module, of which
    the module map of the loader keeps one per source, or the object of
    [{}]. *)
Inductive dependency :=
| ModuleNamespace (source : string)
| EmptyObject.

(** The module an identifier [_<ref>] is bound to by the imports. *)
Definition binding (ref : nat) (imports : list import_statement) : option string :=
  head (omap (λ i, match i with
                   | ImportNamespace r source =>
                       if decide (r = ref) then Some source else None
                   | ImportText _ => None
                   end) imports).

(** The statement [deps['${appName}']={}] is written without escaping. It
    assigns to the key [appName] when the name stands for itself between
    the quotes: it has no quote, no backslash and no line break. *)
Definition verbatim (name : string) : Prop :=
  Forall (λ c, c ∉ ["039"%char; "092"%char; "010"%char; "013"%char])
    (Str.chars name).

#[global] Instance verbatim_dec (name : string) : Decision (verbatim name) :=
  decide (Forall (λ c, c ∉ ["039"%char; "092"%char; "010"%char; "013"%char])
            (Str.chars name)).

(** One assignment. [None] is the ReferenceError of an unbound identifier,
    and it is what is left for the object assignment of a name that is not
    held verbatim: with a quote or a line break in the name the module
    does not parse, or holds other statements than this assignment, and
    with a backslash another key is written; none of this is followed
    here. *)
Definition assign (imports : list import_statement) (a : assignment)
    (deps : gmap string dependency) : option (gmap string dependency) :=
  match a with
  | AssignObject key =>
      if decide (verbatim key) then Some (<[key := EmptyObject]> deps)
      else None
  | AssignRef key ref =>
      match binding ref imports with
      | Some source => Some (<[key := ModuleNamespace source]> deps)
      | None => None
      end
  end.

Fixpoint fillDependencies (imports : list import_statement)
    (assignments : list assignment) (deps : gmap string dependency)
    : option (gmap string dependency) :=
  match assignments with
  | [] => Some deps
  | a :: rest =>
      match assign imports a deps with
      | Some deps' => fillDependencies imports rest deps'
      | None => None
      end
  end.

(** The key an assignment writes. *)
Definition key_of (a : assignment) : string :=
  match a with
  | AssignObject key | AssignRef key _ => key
  end.

(** What the key [id] holds after the assignments ran from [deps]: what the
    last assignment to [id] wrote. *)
Definition last_write (id : string) (assignments : list assignment)
    : option assignment :=
  last (filter (λ a, key_of a = id) assignments).

(** No import binds an identifier the loop is going to use. *)
Definition fresh_refs (imports : list import_statement) : Prop :=
  ∀ ref source, ImportNamespace ref source ∈ imports → ref < length imports.

(** What an assignment writes under its key. *)
Definition written (imports : list import_statement) (a : assignment)
    : option dependency :=
  match a with
  | AssignObject _ => Some EmptyObject
  | AssignRef _ ref => ModuleNamespace <$> binding ref imports
  end.

(** The source of a namespace import. *)
Definition source_of (i : import_statement) : option string :=
  match i with
  | ImportNamespace _ source => Some source
  | ImportText _ => None
  end.

(** The namespace imports of a module name among some imports. *)
Definition imports_of (name : string) (imports : list import_statement)
    : list import_statement :=
  filter (λ i, source_of i = Some name) imports.

(** An environment that lists a shared dependency twice, and packages
    without a readable version. *)
Definition listed_twice : environment :=
  {| BUILD_PCKG_NAME := None; SHARED_DEPENDENCIES := Some "react,react" |}.

Definition no_version (packageName : string) : option string := None.

(** An app with two shared dependencies, of which one has a version that
    can be read. *)
Definition app_with_react : environment :=
  {| BUILD_PCKG_NAME := Some "my-app";
     SHARED_DEPENDENCIES := Some "react,react-dom" |}.

Definition react_version (packageName : string) : option string :=
  if String.eqb packageName "react" then Some "18.2.0" else None.

End Codegen.

(** ** A bridge to run *)

Module Demo.
Import Emulator.

(** A pilet is a name with a version, and a message reads [name:version]. *)
Definition parse (data : string) : option (string * string) :=
  match Codegen.split ":"%char data with
  | [n; v] => Some (n, v)
  | _ => None
  end.

(** A notification while the session has no flag set. *)
Definition notification (data : string) : input := Message ∅ data.

(** Five notifications for the module [a], 10 ms apart. *)
Definition rapid_fire : list input :=
  [notification "a:1"; Tick 10; notification "a:2"; Tick 10;
   notification "a:3"; Tick 10; notification "a:4"; Tick 10;
   notification "a:5"].

(** One notification, the window, and the removal fulfilled or rejected. *)
Definition reload_until_add : list input :=
  [notification "a:1"; Tick 150; RemoveDone 1 fulfilled].

Definition reload_failed : list input :=
  [notification "a:1"; Tick 150; RemoveDone 1 rejected].

(** The whole cycle: the removal and the addition fulfilled. *)
Definition reload_completed : list input :=
  [notification "a:1"; Tick 150; RemoveDone 1 fulfilled; AddDone 1 fulfilled].

(** A [removePilet] that returns a promise whenever it is called, and one
    that throws. *)
Definition promised (c : nat) (n : string) : bool := true.

Definition throwing (c : nat) (n : string) : bool := false.

(** One notification and the window, and whatever the promises that have
    been made may still do. *)
Definition reload_started : list input :=
  [notification "a:1"; Tick 150].

(** Two notifications for a module of the name [__proto__], 10 ms apart,
    and the window. *)
Definition proto_twice : list input :=
  [notification "__proto__:1"; Tick 10; notification "__proto__:2"; Tick 150].

(** A session that asks for the feed, a feed and a debug endpoint that
    both know the module [a]. *)
Definition with_feed : gmap string string := {[ "dbg:load-pilets" := "on" ]}.

Definition feed : list (string * string) := [("a", "1.0.0"); ("b", "1.0.0")].

Definition debug_endpoint (url : string) : promise (@json_body (string * string)) :=
  Fulfilled (JsonArray [("a", "1.1.0")]).

Definition no_options : EmulatorConnectorOptions := {| piletApiFallback := None |}.

End Demo.

(** * Further pieces of the repository

    - [Importmap]: [getDependencyDetails], [getLocalDependencyVersion],
      [resolveImportmap] and [readImportmap]
      ([src/tooling/piral-cli/src/common/importmap.ts], lines 11-205);
    - [Package]: [isValidDependency], [combinePiletExternals],
      [retrieveExternals], [appendBundler] and
      [extendPackageOverridesFromTemplateFragment]
      ([src/tooling/piral-cli/src/common/package.ts]);
    - [EmulatorSocket]: the address of the websocket of
      [installPiletEmulator];
    - [Translate]: [setupLocalizer]
      ([src/plugins/piral-translate/src/create.ts]).

    A string is the list of its characters; the separators the code looks
    for are ASCII, so that splitting a name in bytes or in code units
    gives the same pieces. What the code asks of the file system, of the
    registry and of [require] is a parameter, as a record of functions or
    a variable of a section; a call that fails is an [outcome], and
    [resolveImportmap], which follows the importmaps it inherits from,
    takes the depth it may go to. *)

(** ** piral-cli: the importmap *)

Module Importmap.
Import Str.

(** [getDependencyDetails]: the asset name, the identifier and the version
    specification of a key of the importmap. *)
Definition getDependencyDetails (depName : string) : string * string * string :=
  let sep := indexOf "@" 1 depName in
  let version :=
    if (0 <? sep)%Z then substring_from (Z.to_nat sep + 1) depName else "" in
  let id :=
    if (0 <? sep)%Z then substring 0 (Z.to_nat sep) depName else depName in
  let assetName :=
    replace_first_run "-"
      (replace_class ["/"; "."]%char "-"
         (if startsWith "@" id then substring_from 1 id else id)) in
  (assetName, id, version).

(** A shared dependency as the importmap resolves it. *)
Inductive DependencyType := local | remote.

Record SharedDependency := {
  id : string;
  requireId : string;
  entry : option string;
  name : string;
  ref : option string;
  type : DependencyType;
  parents : option (list string)
}.

(** The value of a key of [imports]: a string, or anything else. *)
Inductive url_value :=
| UrlString (url : string)
| UrlOther.

(** What is read of an importmap: [imports] when it is an object, with its
    keys in their order, and [inherit] when it is an array. Neither is
    there for a value that is no object. *)
Record Importmap := {
  imports : option (list (string * url_value));
  inherit : option (list string)
}.

Definition no_importmap : Importmap := {| imports := None; inherit := None |}.

(** A field of a package.json that should hold an array of strings. *)
Inductive array_field :=
| Nullish
| ArrayOf (items : list string)
| NoArray.

(** The field [importmap] of a package.json by its [typeof]. *)
Inductive importmap_field :=
| ImportmapUndefined
| ImportmapPath (path : string)
| ImportmapValue (content : Importmap).

(** What is read of a package.json. *)
Record PackageDetails := {
  version : option string;
  importmap : importmap_field;
  sharedDependencies : array_field;
  pilets_externals : array_field
}.

(** How a call ends: with a value, with [fail(code, ...args)], with an
    exception of [require], or not within the given depth of recursion. *)
Inductive outcome (A : Type) :=
| Done (a : A)
| Failed (code : string) (args : list string)
| Threw
| OutOfFuel.
Arguments Done {A} a.
Arguments Failed {A} code args.
Arguments Threw {A}.
Arguments OutOfFuel {A}.

Definition and_then {A B} (o : outcome A) (k : A → outcome B) : outcome B :=
  match o with
  | Done a => k a
  | Failed code args => Failed code args
  | Threw => Threw
  | OutOfFuel => OutOfFuel
  end.

(** A value in a template literal: [undefined] prints as its name. *)
Definition shown (v : option string) : string := default "undefined" v.

Definition double_quote : string := String "034"%char EmptyString.

(** The dependencies resolved so far and what was logged. *)
Definition resolved : Type := list SharedDependency * list (string * string).

Definition shorthandsUrls : list string := [""; "."; "..."].

(** [/^https?:\/\//.test(url)] *)
Definition is_remote (url : string) : bool :=
  String.prefix "http://" url || String.prefix "https://" url.

(** What the resolver asks of [./hash], [./io], [./npm], [./version],
    [path] and [require]; [require] and [readJson] answer [None] when they
    throw or find nothing, [findFile] and [tryResolvePackage] when they
    return [undefined]. *)
Record Host := {
  computeHash : string → string;
  getHash : string → string;
  tryResolvePackage : string → string → option string;
  findFile : string → string → option string;
  checkExists : option string → bool;
  checkIsDirectory : string → bool;
  require : option string → option PackageDetails;
  readJson : string → string → option Importmap;
  path_resolve : string → string → string;
  dirname : string → string;
  isAbsolute : string → bool;
  validate : string → bool;
  satisfies : option string → string → bool
}.

Section Resolver.

Variable host : Host.

Definition getLocalDependencyVersion (packageJson : option string)
    (depName versionSpec : string) : outcome (option string * option string) :=
  match require host packageJson with
  | None => Threw
  | Some details =>
      if negb (String.eqb versionSpec "") then
        if negb (validate host versionSpec) then
          Failed "importMapVersionSpecInvalid_0026" [depName]
        else if negb (satisfies host (version details) versionSpec) then
          Failed "importMapVersionSpecNotSatisfied_0025"
            [depName; shown (version details)]
        else Done (version details, Some versionSpec)
      else Done (version details, version details)
  end.

(** The dependency of a package found on disk. *)
Definition local_dependency (identifier assetName : string)
    (entry : option string) (versions : option string * option string)
    : SharedDependency :=
  {| id := identifier +:+ "@" +:+ shown versions.1;
     requireId := identifier +:+ "@" +:+ shown versions.2;
     entry := entry;
     name := identifier;
     ref := Some (assetName +:+ ".js");
     type := local;
     parents := None |}.

(** The dependency identified by a hash, of a URL or of a file. *)
Definition hashed_dependency (identifier hash entry ref : string)
    (type : DependencyType) : SharedDependency :=
  {| id := identifier +:+ "@" +:+ hash;
     requireId := identifier +:+ "@" +:+ hash;
     entry := Some entry;
     name := identifier;
     ref := Some ref;
     type := type;
     parents := None |}.

(** One turn of the loop over the keys of [imports]. *)
Definition resolve_import (dir : string) (depName : string) (url : url_value)
    : outcome resolved :=
  let '(assetName, identifier, versionSpec) := getDependencyDetails depName in
  match url with
  | UrlOther =>
      Done ([], [("generalInfo_0000",
                  "The value of " +:+ double_quote +:+ depName +:+ double_quote
                  +:+ " in the importmap is not a string and will be ignored.")])
  | UrlString url =>
      if is_remote url then
        let hash := substring 0 7 (computeHash host url) in
        Done ([hashed_dependency identifier hash url url remote], [])
      else if String.eqb url identifier || bool_decide (url ∈ shorthandsUrls) then
        match tryResolvePackage host identifier dir with
        | Some entry =>
            let packageJson := findFile host (dirname host entry) "package.json" in
            and_then (getLocalDependencyVersion packageJson depName versionSpec)
              (λ versions,
                Done ([local_dependency identifier assetName (Some entry) versions], []))
        | None => Failed "importMapReferenceNotFound_0027" [dir; identifier]
        end
      else if negb (String.prefix "." url) && negb (isAbsolute host url) then
        match tryResolvePackage host url dir with
        | Some entry =>
            let packageJson := findFile host (dirname host entry) "package.json" in
            and_then (getLocalDependencyVersion packageJson depName versionSpec)
              (λ versions,
                Done ([local_dependency identifier assetName (Some entry) versions], []))
        | None => Failed "importMapReferenceNotFound_0027" [dir; url]
        end
      else
        let entry := path_resolve host dir url in
        if checkExists host (Some entry) then
          let isDirectory := checkIsDirectory host entry in
          let packageJson :=
            if isDirectory then Some (path_resolve host entry "package.json")
            else findFile host (dirname host entry) "package.json" in
          if checkExists host packageJson then
            and_then (getLocalDependencyVersion packageJson depName versionSpec)
              (λ versions,
                Done ([local_dependency identifier assetName
                         (if isDirectory then tryResolvePackage host entry dir
                          else Some entry)
                         versions], []))
          else if isDirectory then
            Failed "importMapReferenceNotFound_0027" [entry; "package.json"]
          else
            let hash := getHash host entry in
            Done ([hashed_dependency identifier hash entry
                     (assetName +:+ ".js") local], [])
        else Failed "importMapReferenceNotFound_0027" [dir; url]
  end.

(** The loop over the keys: the first failure ends it. *)
Fixpoint resolve_imports (dir : string) (entries : list (string * url_value))
    (acc : resolved) : outcome resolved :=
  match entries with
  | [] => Done acc
  | (depName, url) :: rest =>
      and_then (resolve_import dir depName url)
        (λ r, resolve_imports dir rest (acc.1 ++ r.1, acc.2 ++ r.2))
  end.

(** [entry.parents.push(inheritedImport)] on the first dependency of the
    name, when its [parents] is an array. *)
Fixpoint add_parent (n inheritedImport : string)
    (dependencies : list SharedDependency) : list SharedDependency :=
  match dependencies with
  | [] => []
  | dep :: rest =>
      if String.eqb (name dep) n then
        match parents dep with
        | Some ps =>
            {| id := id dep; requireId := requireId dep; entry := entry dep;
               name := name dep; ref := ref dep; type := type dep;
               parents := Some (ps ++ [inheritedImport]) |} :: rest
        | None => dep :: rest
        end
      else dep :: add_parent n inheritedImport rest
  end.

(** One turn of the loop over [otherDependencies]. *)
Definition inherit_dependency (inheritedImport : string)
    (dependencies : list SharedDependency) (dependency : SharedDependency)
    : list SharedDependency :=
  match list_find (λ dep, name dep = name dependency) dependencies with
  | None =>
      dependencies ++
      [{| id := id dependency; requireId := requireId dependency;
          entry := entry dependency; name := name dependency;
          ref := ref dependency; type := type dependency;
          parents := Some [inheritedImport] |}]
  | Some _ => add_parent (name dependency) inheritedImport dependencies
  end.

Definition inherit_from (inheritedImport : string)
    (otherDependencies dependencies : list SharedDependency)
    : list SharedDependency :=
  foldl (inherit_dependency inheritedImport) dependencies otherDependencies.

(** [readImportmap], given how an importmap is resolved. *)
Definition fallback_dependency (dep : string) : SharedDependency :=
  {| id := dep; requireId := dep; entry := Some dep; name := dep;
     ref := None; type := local; parents := None |}.

Definition readImportmap_with
    (resolveImportmap : string → Importmap → outcome resolved)
    (dir : string) (packageDetails : PackageDetails) (inherited : bool)
    : outcome resolved :=
  match importmap packageDetails with
  | ImportmapPath path =>
      match readJson host dir path with
      | None => Failed "importMapFileNotFound_0028" [dir; path]
      | Some content =>
          let baseDir := dirname host (path_resolve host dir path) in
          resolveImportmap baseDir content
      end
  | ImportmapUndefined =>
      if inherited then
        let shared :=
          match sharedDependencies packageDetails with
          | Nullish => pilets_externals packageDetails
          | given => given
          end in
        match shared with
        | ArrayOf items => Done (fallback_dependency <$> items, [])
        | _ => resolveImportmap dir no_importmap
        end
      else resolveImportmap dir no_importmap
  | ImportmapValue content => resolveImportmap dir content
  end.

(** The loop over [inherit]. *)
Fixpoint inherit_all
    (readImportmap : string → PackageDetails → bool → outcome resolved)
    (dir : string) (inheritedImports : list string) (acc : resolved)
    : outcome resolved :=
  match inheritedImports with
  | [] => Done acc
  | inheritedImport :: rest =>
      match tryResolvePackage host (inheritedImport +:+ "/package.json") dir with
      | Some packageJson =>
          let packageDir := dirname host packageJson in
          match require host (Some packageJson) with
          | None => Threw
          | Some packageDetails =>
              and_then (readImportmap packageDir packageDetails true)
                (λ other,
                  inherit_all readImportmap dir rest
                    (inherit_from inheritedImport other.1 acc.1,
                     acc.2 ++ other.2))
          end
      | None => inherit_all readImportmap dir rest acc
      end
  end.

(** [resolveImportmap]; [fuel] bounds how deep importmaps inherit from one
    another. *)
Fixpoint resolveImportmap (fuel : nat) (dir : string) (importmap : Importmap)
    : outcome resolved :=
  match fuel with
  | 0 => OutOfFuel
  | S fuel' =>
      and_then
        (match imports importmap with
         | Some sharedImports => resolve_imports dir sharedImports ([], [])
         | None => Done ([], [])
         end)
        (λ direct,
          match inherit importmap with
          | Some inheritedImports =>
              inherit_all (readImportmap_with (resolveImportmap fuel'))
                dir inheritedImports direct
          | None => Done direct
          end)
  end.

Definition readImportmap (fuel : nat) (dir : string)
    (packageDetails : PackageDetails) (inherited : bool) : outcome resolved :=
  readImportmap_with (resolveImportmap fuel) dir packageDetails inherited.

(** The dependencies after some inheriting: the explicit ones as they were,
    then the inherited ones, each under a name of its own and with the
    packages seen so far that offer it. *)
Record inherited_after (explicit : list SharedDependency) (seen : list string)
    (dependencies : list SharedDependency) (added : list SharedDependency)
    : Prop := {
  ia_split : dependencies = explicit ++ added;
  ia_nodup : NoDup (name <$> added);
  ia_fresh : ∀ d, d ∈ added → name d ∉ name <$> explicit;
  ia_parents : ∀ d, d ∈ added →
    ∃ ps, parents d = Some ps ∧ ps ≠ [] ∧ ps ⊆ seen
}.

(** The identifier a key of [imports] stands for, when its value is a
    string. *)
Definition key_identifier (entry : string * url_value) : option string :=
  match entry.2 with
  | UrlString _ => Some (getDependencyDetails entry.1).1.2
  | UrlOther => None
  end.

(** The dependency of a key whose value is a URL of the web. *)
Definition remote_dependency (entry : string * string) : SharedDependency :=
  let identifier := (getDependencyDetails entry.1).1.2 in
  hashed_dependency identifier (substring 0 7 (computeHash host entry.2))
    entry.2 entry.2 remote.

End Resolver.

(** The dependency inherited from the package [parent] that lists [dep]
    among its shared dependencies and has no importmap. *)
Definition inherited_fallback (parent dep : string) : SharedDependency :=
  {| id := dep; requireId := dep; entry := Some dep; name := dep;
     ref := None; type := local; parents := Some [parent] |}.

(** A call that ended with [fail] or with an exception. *)
Definition failed {A} (o : outcome A) : Prop :=
  o = Threw ∨ ∃ code args, o = Failed code args.

End Importmap.

(** ** piral-cli: the externals of a package *)

Module Package.
Import Str Importmap.

(** [isValidDependency] *)
Definition isValidDependency (name : string) : bool :=
  (indexOf "/" 0 name =? -1)%Z
  || ((indexOf "@" 0 name =? 0)%Z && (length (Codegen.split "/" name) <? 3)).

(** [appShells.every((app) => parents.includes(app))] *)
Definition in_all_parents (appShells parents : list string) : bool :=
  forallb (λ app, bool_decide (app ∈ parents)) appShells.

(** The loop of [combinePiletExternals] from the index [i] downwards, on the
    externals and the importmap as they are by then; [importmap.splice(i, 1)]
    deletes in place. [None] is the TypeError of reading [parents] of an
    entry that is not there. *)
Fixpoint combine_from (appShells : list string) (i : nat)
    (externals : list string) (importmap : list SharedDependency)
    : option (list string * list SharedDependency) :=
  match i with
  | 0 => Some (externals, importmap)
  | S i' =>
      match importmap !! i' with
      | None => None
      | Some entry =>
          match parents entry with
          | Some ps =>
              if in_all_parents appShells ps then
                combine_from appShells i' (externals ++ [name entry])
                  (delete i' importmap)
              else combine_from appShells i' externals importmap
          | None => combine_from appShells i' externals importmap
          end
      end
  end.

(** [combinePiletExternals]: the externals it returns and the importmap it
    leaves behind. *)
Definition combinePiletExternals (appShells : list string)
    (peerDependencies : list (string * string)) (peerModules : list string)
    (importmap : list SharedDependency)
    : option (list string * list SharedDependency) :=
  combine_from appShells (length importmap)
    (peerDependencies.*1 ++ peerModules) importmap.

(** An entry is shared centrally when it was inherited and every app shell
    is among its parents. *)
Definition central (appShells : list string) (entry : SharedDependency) : bool :=
  match parents entry with
  | Some ps => in_all_parents appShells ps
  | None => false
  end.

(** What [retrieveExternals] reads of a package.json. *)
Record PackageInfo := {
  details : PackageDetails;
  devDependencies : gmap string string;
  dependencies : gmap string string
}.

Section Externals.

Variable host : Host.

(** [makeExternals] of [./npm]. *)
Variable makeExternals : string → gmap string string → array_field → list string.

(** [retrieveExternals], with what was logged. *)
Definition retrieveExternals (fuel : nat) (root : string)
    (packageInfo : PackageInfo) : outcome (list string * list (string * string)) :=
  and_then (readImportmap host fuel root (details packageInfo) false)
    (λ sharedDependencies,
      if length sharedDependencies.1 =? 0 then
        let allDeps := dependencies packageInfo ∪ devDependencies packageInfo in
        let deps := pilets_externals (details packageInfo) in
        Done (makeExternals root allDeps deps, sharedDependencies.2)
      else Done (name <$> sharedDependencies.1, sharedDependencies.2)).

End Externals.

(** [bundlerNames] of [./constants]. *)
Definition bundlerNames : list string :=
  ["esbuild"; "parcel"; "parcel2"; "rollup"; "webpack"; "webpack5"; "vite";
   "xbuild"].

(** The members of [new Set(items)] in the order they were first added. *)
Fixpoint set_of {A} `{EqDecision A} (items seen : list A) : list A :=
  match items with
  | [] => seen
  | x :: rest => set_of rest (if decide (x ∈ seen) then seen else seen ++ [x])
  end.

(** The package a bundler is installed as, and the versions to try for it;
    [None] stands for [false]. *)
Definition bundler_package (bundler : string) : string :=
  let sep := indexOf "@" 1 bundler in
  let hasVersion := negb (sep =? -1)%Z in
  let proposedName :=
    substring 0 (if hasVersion then Z.to_nat sep else length (chars bundler))
      bundler in
  if bool_decide (proposedName ∈ bundlerNames) then "piral-cli-" +:+ bundler
  else proposedName.

Definition bundler_versions (bundler proposedVersion : string)
    : list (option string) :=
  let sep := indexOf "@" 1 bundler in
  let hasVersion := negb (sep =? -1)%Z in
  let givenVersion :=
    if hasVersion then substring_from (Z.to_nat sep + 1) bundler
    else proposedVersion in
  set_of [Some givenVersion;
          if includes "-beta." givenVersion then Some "next" else None;
          if includes "-alpha." givenVersion then Some "canary" else None;
          Some "latest"] [].

(** The loop over the versions: the first one the registry has, and the
    versions it was asked for. *)
Fixpoint first_available (isAvailable : string → bool)
    (versions : list (option string)) (asked : list string)
    : option string * list string :=
  match versions with
  | [] => (None, asked)
  | Some version :: rest =>
      if String.eqb version "" then first_available isAvailable rest asked
      else if isAvailable version then (Some version, asked ++ [version])
      else first_available isAvailable rest (asked ++ [version])
  | None :: rest => first_available isAvailable rest asked
  end.

(** What [appendBundler] leaves: the development dependencies, the versions
    the registry was asked for, and the warnings. [bundler] is [None] when
    it is not given. *)
Record appended := {
  dependencies_after : gmap string string;
  asked : list string;
  warnings : list string
}.

Definition appendBundler (findSpecificVersion : string → string → bool)
    (devDependencies : gmap string string) (bundler : option string)
    (proposedVersion : string) : appended :=
  match bundler with
  | Some bundler =>
      if negb (String.eqb bundler "") && negb (String.eqb bundler "none") then
        if isValidDependency bundler then
          let name := bundler_package bundler in
          match first_available (findSpecificVersion name)
                  (bundler_versions bundler proposedVersion) [] with
          | (Some version, asked) =>
              {| dependencies_after := <[name := version]> devDependencies;
                 asked := asked; warnings := [] |}
          | (None, asked) =>
              {| dependencies_after := devDependencies; asked := asked;
                 warnings :=
                   ["Could not find a valid version for the provided bundler "
                    +:+ double_quote +:+ bundler +:+ double_quote +:+ ".'"] |}
          end
        else
          {| dependencies_after := devDependencies; asked := [];
             warnings :=
               ["The provided bundler name " +:+ double_quote +:+ bundler
                +:+ double_quote +:+ " does not refer to a valid package name.'"] |}
      else {| dependencies_after := devDependencies; asked := []; warnings := [] |}
  | None => {| dependencies_after := devDependencies; asked := []; warnings := [] |}
  end.

(** A file of a template: where it comes from and where it goes. *)
Record FileDescriptor := {
  sourcePath : string;
  targetPath : string
}.

Section Overrides.

(** The values of a package.json are passed on as they are. *)
Context {Json : Type}.

(** [readJson] of [./io], and [resolve], [dirname] and [basename] of
    [path]. *)
Variable readJson : string → string → gmap string Json.
Variable resolve : string → string → string.
Variable dirname basename : string → string.

(** The loop of [extendPackageOverridesFromTemplateFragment] from the index
    [i] downwards, on [piralInfo.pilets.packageOverrides] ([None] while it
    is not there) and the files as they are by then. [None] is the
    TypeError of reading [targetPath] of a file that is not there. *)
Fixpoint extend_from (packageTarget : string) (i : nat)
    (packageOverrides : option (gmap string Json)) (files : list FileDescriptor)
    : option (option (gmap string Json) * list FileDescriptor) :=
  match i with
  | 0 => Some (packageOverrides, files)
  | S i' =>
      match files !! i' with
      | None => None
      | Some file =>
          if String.eqb (targetPath file) packageTarget then
            let fragment :=
              readJson (dirname (sourcePath file)) (basename (sourcePath file)) in
            extend_from packageTarget i'
              (Some (fragment ∪ default ∅ packageOverrides)) (delete i' files)
          else extend_from packageTarget i' packageOverrides files
      end
  end.

Definition extendPackageOverridesFromTemplateFragment (root : string)
    (packageOverrides : option (gmap string Json)) (files : list FileDescriptor)
    : option (option (gmap string Json) * list FileDescriptor) :=
  extend_from (resolve root "package.json") (length files) packageOverrides files.

(** The fragments of the files that go to a path, in the order of the
    files. *)
Definition fragments_for (packageTarget : string) (files : list FileDescriptor)
    : list (gmap string Json) :=
  (λ file, readJson (dirname (sourcePath file)) (basename (sourcePath file)))
    <$> filter (λ file, targetPath file = packageTarget) files.

End Overrides.

End Package.

(** ** The emulator: the address of the socket *)

Module EmulatorSocket.

(** [updateTarget = initialTarget.replace('http', 'ws')] *)
Definition updateTarget (origin api : string) : string :=
  Str.replace "http" "ws" (Emulator.initialTarget origin api).

End EmulatorSocket.

(** ** piral-translate: [setupLocalizer] *)

Module Translate.

Section Localizer.

(** The messages of a language and the fallback of a translation are
    passed on as they are. *)
Context {Messages Fallback : Type}.

(** [config.language]: not set, a string, or a function that computes the
    language and may return nothing. *)
Inductive language_config :=
| LanguageUndefined
| LanguageString (language : string)
| LanguageFunction (computeLang : list string → string → string → option string).

(** [config]; [messages] with its keys in their order. *)
Record LocaleConfig := {
  messages : option (list (string * Messages));
  language : language_config;
  fallback : option Fallback
}.

(** The arguments [new Localizer] is called with. *)
Record Localizer := {
  localizer_messages : list (string * Messages);
  localizer_language : string;
  localizer_languages : list string;
  localizer_fallback : option Fallback
}.

(** [a || b] for a string or [undefined] on the left. *)
Definition or_else (a : option string) (b : string) : string :=
  match a with
  | Some s => if String.eqb s "" then b else s
  | None => b
  end.

Definition setupLocalizer (config : LocaleConfig) : Localizer :=
  let msgs := default [] (messages config) in
  let languages := msgs.*1 in
  let defaultLang := or_else (head languages) "en" in
  let usedLang :=
    match language config with
    | LanguageFunction computeLang => computeLang languages defaultLang "en"
    | LanguageString computeLang => Some computeLang
    | LanguageUndefined => None
    end in
  let language := or_else usedLang defaultLang in
  {| localizer_messages := msgs;
     localizer_language := language;
     localizer_languages :=
       if length languages =? 0 then [language] else languages;
     localizer_fallback := fallback config |}.

End Localizer.

End Translate.

(** ** A file system to run the resolver on *)

Module DemoFs.
Import Str Importmap.

(** The characters before the last slash. *)
Fixpoint before_last_slash (l : list ascii) : option (list ascii) :=
  match l with
  | [] => None
  | x :: rest =>
      match before_last_slash rest with
      | Some p => Some (x :: p)
      | None => if decide (x = "/"%char) then Some [] else None
      end
  end.

Definition parent (path : string) : string :=
  match before_last_slash (chars path) with
  | Some p => str p
  | None => "."
  end.

(** An app whose importmap names a package with a version range, a URL and
    a key without a string, and inherits from an app shell that shares the
    first package and one more; and a package that inherits from itself. *)
Definition app_importmap : Importmap :=
  {| imports := Some [("react@^17", UrlString "react");
                      ("lodash", UrlString "https://cdn.example.com/lodash.js");
                      ("broken", UrlOther)];
     inherit := Some ["shell"] |}.

Definition shell_importmap : Importmap :=
  {| imports := Some [("react", UrlString "react");
                      ("vue", UrlString "https://cdn.example.com/vue.js")];
     inherit := None |}.

Definition loop_importmap : Importmap :=
  {| imports := None; inherit := Some ["loop"] |}.

Definition package (version : string) (importmap : importmap_field)
    : PackageDetails :=
  {| Importmap.version := Some version; Importmap.importmap := importmap;
     sharedDependencies := Nullish; pilets_externals := Nullish |}.

(** A pilet that inherits from an app shell of the time before
    importmaps. *)
Definition legacy_importmap : Importmap :=
  {| imports := None; inherit := Some ["legacy-shell"] |}.

Definition legacy_shell : PackageDetails :=
  {| Importmap.version := Some "0.14.0";
     Importmap.importmap := ImportmapUndefined;
     sharedDependencies := Nullish;
     pilets_externals := ArrayOf ["react"; "react-dom"] |}.

Definition files : list (string * PackageDetails) :=
  [("/app/node_modules/react/package.json", package "17.0.2" ImportmapUndefined);
   ("/pilet/node_modules/legacy-shell/package.json", legacy_shell);
   ("/app/node_modules/shell/package.json",
    package "1.0.0" (ImportmapValue shell_importmap));
   ("/loop/package.json", package "1.0.0" (ImportmapValue loop_importmap))].

Definition modules : list (string * string) :=
  [("react", "/app/node_modules/react/index.js");
   ("shell/package.json", "/app/node_modules/shell/package.json");
   ("loop/package.json", "/loop/package.json");
   ("legacy-shell/package.json", "/pilet/node_modules/legacy-shell/package.json")].

Definition lookup_path {A} (table : list (string * A)) (key : string) : option A :=
  snd <$> head (filter (λ kv, kv.1 = key) table).

Definition host : Host :=
  {| computeHash := λ url, "sha:" +:+ url;
     getHash := λ path, "file:" +:+ path;
     tryResolvePackage := λ name dir, lookup_path modules name;
     findFile := λ dir file, Some (dir +:+ "/" +:+ file);
     checkExists := λ path, bool_decide (is_Some (path ≫= lookup_path files));
     checkIsDirectory := λ path, false;
     require := λ path, path ≫= lookup_path files;
     readJson := λ dir path, None;
     path_resolve := λ dir path, dir +:+ "/" +:+ path;
     dirname := parent;
     isAbsolute := startsWith "/";
     validate := λ spec, true;
     satisfies := λ version spec, true |}.

(** The package.json of the app, and the externals of the time before
    importmaps. *)
Definition app_package : Package.PackageInfo :=
  {| Package.details := package "1.0.0" (ImportmapValue app_importmap);
     Package.devDependencies := ∅;
     Package.dependencies := ∅ |}.

Definition legacy_package : Package.PackageInfo :=
  {| Package.details :=
       {| Importmap.version := Some "1.0.0";
          Importmap.importmap := ImportmapUndefined;
          sharedDependencies := ArrayOf ["react"];
          pilets_externals := ArrayOf ["vue"] |};
     Package.devDependencies := {[ "piral-cli" := "1.0.0" ]};
     Package.dependencies := {[ "react" := "17.0.2" ]} |}.

Definition makeExternals (root : string) (allDeps : gmap string string)
    (deps : array_field) : list string :=
  match deps with
  | ArrayOf items => items
  | _ => []
  end.

End DemoFs.

(** * Properties *)

(** ** The classifier *)

Module InspectSpec.
Import Js Inspect.

Lemma strict_eq_string_true v lit :
  strict_eq_string v lit = true ↔ v = VString lit.
Proof.
  destruct v; simpl; try (split; [discriminate | intros [=]]).
  rewrite String.eqb_eq. split; [by intros -> | by intros [= ->]].
Qed.

Lemma spec_is_v2_test meta :
  strict_eq_string (default VUndefined (meta !! "spec")) "v2" = true
  ↔ spec_is_v2 meta.
Proof.
  unfold spec_is_v2. rewrite strict_eq_string_true.
  destruct (meta !! "spec") as [v|]; simpl; [|split; discriminate].
  split; congruence.
Qed.

Lemma test_v2_rule b meta : test_v2 b meta = true ↔ rule_v2 b meta.
Proof.
  unfold test_v2, rule_v2, carries.
  rewrite !andb_true_iff, bool_decide_eq_true, spec_is_v2_test. tauto.
Qed.

Lemma test_v1_rule b meta : test_v1 b meta = true ↔ rule_v1 b meta.
Proof.
  unfold test_v1, rule_v1, carries.
  rewrite !andb_true_iff, bool_decide_eq_true, negb_true_iff.
  rewrite <- spec_is_v2_test, not_true_iff_false. tauto.
Qed.

Lemma test_bundle_rule b meta : test_bundle b meta = true ↔ rule_bundle b meta.
Proof.
  unfold test_bundle, rule_bundle.
  rewrite !andb_true_iff, bool_decide_eq_true.
  destruct (meta !! "bundle") as [v|]; simpl; split.
  - intros [[-> _] Hv]. eauto.
  - intros [-> (v' & [= <-] & Hv)]. eauto.
  - intros [[_ []] _]. discriminate.
  - intros [_ (v' & [=] & _)].
Qed.

Lemma test_v0_rule meta : test_v0 meta = true ↔ rule_v0 meta.
Proof. unfold test_v0, rule_v0, carries. apply bool_decide_eq_true. Qed.

(** On an object no test throws: the result is decided by the four tests,
    in their order. *)
Lemma inspectPilet_object (inBrowser : bool) (meta : gmap string value) :
  inspectPilet inBrowser (Object meta) =
  Normal (if test_v2 inBrowser meta then (v2, Object meta, setupSinglePilet)
          else if test_v1 inBrowser meta then (v1, Object meta, setupSinglePilet)
          else if test_bundle inBrowser meta then (bundle, Object meta, setupPiletBundle)
          else if test_v0 meta then (v0, Object meta, setupSinglePilet)
          else (unknown, Object meta, setupSinglePilet)).
Proof.
  unfold inspectPilet, test_v2, test_v1, test_bundle, test_v0; simpl.
  destruct inBrowser; simpl;
    repeat (match goal with
            | |- context [bool_decide ?P] => destruct (bool_decide P); simpl
            | |- context [strict_eq_string ?v ?l] =>
                destruct (strict_eq_string v l); simpl
            | |- context [truthy ?v] => destruct (truthy v); simpl
            end); reflexivity.
Qed.

(** C1: the rules of the classifier are tried in order and the first that
    matches decides. In a browser a descriptor with a [link] field and
    [spec] equal to "v2" is v2; failing that, in a browser, one with a
    [requireRef] field and a [spec] other than "v2" is v1; failing that, in
    a browser, one with a truthy [bundle] field is a bundle; failing that,
    browser or not, one with a [hash] field is v0; any other is unknown. *)
Theorem inspectPilet_first_match (inBrowser : bool) (meta : gmap string value) :
  let result := inspectPilet inBrowser (Object meta) in
  (rule_v2 inBrowser meta →
     result = Normal (v2, Object meta, setupSinglePilet)) ∧
  (¬ rule_v2 inBrowser meta → rule_v1 inBrowser meta →
     result = Normal (v1, Object meta, setupSinglePilet)) ∧
  (¬ rule_v2 inBrowser meta → ¬ rule_v1 inBrowser meta →
   rule_bundle inBrowser meta →
     result = Normal (bundle, Object meta, setupPiletBundle)) ∧
  (¬ rule_v2 inBrowser meta → ¬ rule_v1 inBrowser meta →
   ¬ rule_bundle inBrowser meta → rule_v0 meta →
     result = Normal (v0, Object meta, setupSinglePilet)) ∧
  (¬ rule_v2 inBrowser meta → ¬ rule_v1 inBrowser meta →
   ¬ rule_bundle inBrowser meta → ¬ rule_v0 meta →
     result = Normal (unknown, Object meta, setupSinglePilet)).
Proof.
  simpl. rewrite inspectPilet_object.
  rewrite <- test_v2_rule, <- test_v1_rule, <- test_bundle_rule, <- test_v0_rule.
  destruct (test_v2 inBrowser meta), (test_v1 inBrowser meta),
    (test_bundle inBrowser meta), (test_v0 meta); naive_solver.
Qed.

Lemma inspectPilet_first_match_witness :
  inspectPilet true (Object descriptor_b)
  = Normal (v2, Object descriptor_b, setupSinglePilet).
Proof.
  apply (proj1 (inspectPilet_first_match true descriptor_b)).
  apply test_v2_rule. vm_compute. reflexivity.
Defined.

Example inspect_descriptor_a (inBrowser : bool) :
  inspectPilet inBrowser (Object descriptor_a)
  = Normal (v0, Object descriptor_a, setupSinglePilet).
Proof. destruct inBrowser; vm_compute; reflexivity. Qed.

Example inspect_descriptor_c :
  inspectPilet true (Object descriptor_c)
  = Normal (bundle, Object descriptor_c, setupPiletBundle).
Proof. vm_compute. reflexivity. Qed.

(** Outside a browser only the hash is looked at. *)
Example inspect_descriptor_b_outside :
  inspectPilet false (Object descriptor_b)
  = Normal (unknown, Object descriptor_b, setupSinglePilet).
Proof. vm_compute. reflexivity. Qed.

(** What is not an object makes [in] throw; the type [PiletEntry] rules it
    out. *)
Example inspect_null (inBrowser : bool) :
  inspectPilet inBrowser (Primitive VNull) = Throw TypeError.
Proof. destruct inBrowser; reflexivity. Qed.

(** C2: classification is total and has no effect: for every descriptor and
    in either environment [inspectPilet] completes normally with one
    result, which depends on nothing but the environment and the
    descriptor and carries the descriptor unchanged; a descriptor with none
    of the recognizable shapes is unknown and gets the runner of a single
    pilet. *)
Theorem inspectPilet_total (inBrowser : bool) (meta : gmap string value) :
  (∃ result, inspectPilet inBrowser (Object meta) = Normal result ∧
     ∀ result', inspectPilet inBrowser (Object meta) = Normal result' →
                result' = result) ∧
  (∃ kind runner,
     inspectPilet inBrowser (Object meta) = Normal (kind, Object meta, runner)) ∧
  (unrecognized meta →
     inspectPilet inBrowser (Object meta)
     = Normal (unknown, Object meta, setupSinglePilet)).
Proof.
  split; [|split].
  - rewrite inspectPilet_object. eexists; split; [reflexivity|].
    intros r [= <-]. reflexivity.
  - rewrite inspectPilet_object.
    destruct (test_v2 inBrowser meta), (test_v1 inBrowser meta),
      (test_bundle inBrowser meta), (test_v0 meta); eauto.
  - intros (H0 & H1 & H2 & Hb). rewrite inspectPilet_object.
    destruct (test_v2 inBrowser meta) eqn:E2;
      [apply test_v2_rule in E2; unfold rule_v2 in E2; tauto|].
    destruct (test_v1 inBrowser meta) eqn:E1;
      [apply test_v1_rule in E1; unfold rule_v1 in E1; tauto|].
    destruct (test_bundle inBrowser meta) eqn:Eb;
      [apply test_bundle_rule in Eb; unfold rule_bundle in Eb; tauto|].
    destruct (test_v0 meta) eqn:E0;
      [apply test_v0_rule in E0; unfold rule_v0 in E0; tauto|].
    reflexivity.
Qed.

Lemma inspectPilet_total_witness :
  inspectPilet true (Object {[ "name" := VString "d" ]})
  = Normal (unknown, Object {[ "name" := VString "d" ]}, setupSinglePilet).
Proof.
  apply (proj2 (proj2 (inspectPilet_total true {[ "name" := VString "d" ]}))).
  unfold unrecognized, carries, spec_is_v2.
  repeat split; vm_compute; intros H; decompose record H; try discriminate.
  all: match goal with H : is_Some _ |- _ => destruct H; discriminate end.
Defined.

End InspectSpec.

(** ** Lists *)

Module ListFacts.

Lemma filter_in_ext {A} (P Q : A → Prop)
    `{!∀ x, Decision (P x), !∀ x, Decision (Q x)} (l : list A) :
  (∀ x, x ∈ l → P x ↔ Q x) → filter P l = filter Q l.
Proof.
  induction l as [|a l IH]; intros HPQ; [done|].
  rewrite !filter_cons, IH by (intros x Hx; apply HPQ, elem_of_cons; by right).
  assert (P a ↔ Q a) as Ha by (apply HPQ, elem_of_cons; by left).
  destruct (decide (P a)), (decide (Q a)); tauto.
Qed.

Lemma filter_in_all {A} (P : A → Prop) `{!∀ x, Decision (P x)} (l : list A) :
  (∀ x, x ∈ l → P x) → filter P l = l.
Proof.
  induction l as [|a l IH]; intros HP; [done|].
  rewrite filter_cons_True by (apply HP, elem_of_cons; by left).
  rewrite IH by (intros x Hx; apply HP, elem_of_cons; by right). done.
Qed.

Lemma filter_in_none {A} (P : A → Prop) `{!∀ x, Decision (P x)} (l : list A) :
  (∀ x, x ∈ l → ¬ P x) → filter P l = [].
Proof.
  induction l as [|a l IH]; intros HP; [done|].
  rewrite filter_cons_False by (apply HP, elem_of_cons; by left).
  rewrite IH by (intros x Hx; apply HP, elem_of_cons; by right). done.
Qed.

Lemma NoDup_fmap_filter {A B} (f : A → B) (P : A → Prop)
    `{!∀ x, Decision (P x)} (l : list A) :
  NoDup (f <$> l) → NoDup (f <$> filter P l).
Proof.
  intros Hl. eapply sublist_NoDup; [exact Hl|].
  apply fmap_sublist, sublist_filter.
Qed.

Lemma NoDup_fmap_elem_inj {A B} (f : A → B) (l : list A) x y :
  NoDup (f <$> l) → x ∈ l → y ∈ l → f x = f y → x = y.
Proof.
  induction l as [|a l IH]; [by intros _ ?%elem_of_nil|].
  rewrite fmap_cons, NoDup_cons. intros [Hnot Hnd].
  intros [->|Hx]%elem_of_cons [->|Hy]%elem_of_cons Heq; auto.
  - exfalso. apply Hnot. rewrite Heq. by apply list_elem_of_fmap_2.
  - exfalso. apply Hnot. rewrite <- Heq. by apply list_elem_of_fmap_2.
Qed.

Lemma filter_cons_split {A} (P : A → Prop) `{!∀ x, Decision (P x)}
    (l : list A) a rest :
  filter P l = a :: rest →
  ∃ k1 k2, l = k1 ++ a :: k2 ∧ filter P k1 = [] ∧ filter P k2 = rest.
Proof.
  induction l as [|x l IH]; [done|]. rewrite filter_cons.
  destruct (decide (P x)) as [Hx|Hx].
  - intros [= -> <-]. by exists [], l.
  - intros (k1 & k2 & -> & H1 & H2)%IH. exists (x :: k1), k2.
    by rewrite filter_cons_False.
Qed.

End ListFacts.

(** ** The live-update bridge *)

Module EmulatorSpec.
Import Emulator ListFacts.

Section Facts.

Context {Pilet : Type}.
Variable name : Pilet → string.
Variable JSON_parse : string → option Pilet.
Variable removePilet : nat → string → bool.

Local Abbreviation onmessage := (Emulator.onmessage name JSON_parse).
Local Abbreviation fire := (Emulator.fire name removePilet).
Local Abbreviation tick := (Emulator.tick name removePilet).
Local Abbreviation step := (Emulator.step name JSON_parse removePilet).
Local Abbreviation run := (Emulator.run name JSON_parse removePilet).
Local Abbreviation wf := (Emulator.wf name).
Local Abbreviation pending := (Emulator.pending name).
Local Abbreviation reloads := (Emulator.reloads name).
Local Abbreviation setups := (Emulator.setups name).
Local Abbreviation shape := (Emulator.shape name).
Local Abbreviation started := (Emulator.started name).
Local Abbreviation fired := (Emulator.fired name removePilet).
Local Abbreviation armed := (Emulator.armed name).
Local Abbreviation burst := (Emulator.burst name JSON_parse).
Local Abbreviation notifies := (Emulator.notifies name JSON_parse).
Local Abbreviation quiet := (Emulator.quiet name JSON_parse).
Local Abbreviation calm := (Emulator.calm name JSON_parse).
Local Abbreviation reachable := (Emulator.reachable name JSON_parse removePilet).
Local Abbreviation settling := (Emulator.settling name).

(** *** Lists of actions *)

Lemma of_cycle_app c (h1 h2 : list (@action Pilet)) :
  of_cycle c (h1 ++ h2) = of_cycle c h1 ++ of_cycle c h2.
Proof. apply filter_app. Qed.

Lemma of_cycle_started c c' (meta : Pilet) :
  of_cycle c [TimeoutCallback c' meta; FreezeRouteRefresh c';
              RemovePilet c' (name meta)]
  = if decide (c' = c) then started c' meta else [].
Proof.
  unfold of_cycle, Emulator.started.
  rewrite !filter_cons, filter_nil; simpl.
  repeat case_decide; simplify_eq; done.
Qed.

Lemma of_cycle_fired c c' (meta : Pilet) :
  of_cycle c (fired c' meta) = if decide (c' = c) then fired c' meta else [].
Proof.
  unfold Emulator.fired. rewrite of_cycle_app.
  change (started c' meta) with [TimeoutCallback c' meta; FreezeRouteRefresh c';
                                 RemovePilet c' (name meta)] at 1.
  rewrite of_cycle_started.
  destruct (removePilet c' (name meta)); [by rewrite !app_nil_r|].
  unfold of_cycle. rewrite filter_cons, filter_nil. simpl.
  repeat case_decide; simplify_eq; done.
Qed.

Lemma freezes_app (h1 h2 : list (@action Pilet)) :
  freezes (h1 ++ h2) = freezes h1 + freezes h2.
Proof. unfold freezes. by rewrite filter_app, length_app. Qed.

Lemma unfreezes_app (h1 h2 : list (@action Pilet)) :
  unfreezes (h1 ++ h2) = unfreezes h1 + unfreezes h2.
Proof. unfold unfreezes. by rewrite filter_app, length_app. Qed.

Lemma throws_app (h1 h2 : list (@action Pilet)) :
  throws (h1 ++ h2) = throws h1 + throws h2.
Proof. unfold throws. by rewrite filter_app, length_app. Qed.

Lemma reloads_app n (h1 h2 : list (@action Pilet)) :
  reloads n (h1 ++ h2) = reloads n h1 ++ reloads n h2.
Proof. apply omap_app. Qed.

Lemma reloads_started n c (meta : Pilet) :
  reloads n [TimeoutCallback c meta; FreezeRouteRefresh c;
             RemovePilet c (name meta)]
  = if decide (name meta = n) then [meta] else [].
Proof. unfold Emulator.reloads; simpl. by case_decide. Qed.

Lemma reloads_fired_one n c (meta : Pilet) :
  reloads n (fired c meta) = if decide (name meta = n) then [meta] else [].
Proof.
  unfold Emulator.fired. rewrite reloads_app.
  change (started c meta) with [TimeoutCallback c meta; FreezeRouteRefresh c;
                                RemovePilet c (name meta)].
  rewrite reloads_started. destruct (removePilet c (name meta)); simpl;
    by rewrite app_nil_r.
Qed.

(** The history of [fire]. *)
Lemma fire_history t s :
  history (fire t s) = history s ++ fired (handle t) (payload t).
Proof.
  unfold Emulator.fire, Emulator.fired, Emulator.started.
  by destruct (removePilet (handle t) (name (payload t))).
Qed.

Lemma fire_frame t s :
  clock (fire t s) = clock s ∧ timeoutCache (fire t s) = timeoutCache s ∧
  nextHandle (fire t s) = nextHandle s ∧
  timers (fire t s) = filter (λ t', handle t' ≠ handle t) (timers s).
Proof.
  unfold Emulator.fire. by destruct (removePilet (handle t) (name (payload t))).
Qed.

Lemma fire_chains t s :
  chains (fire t s)
  = if removePilet (handle t) (name (payload t))
    then <[handle t := AwaitRemove (payload t)]> (chains s) else chains s.
Proof.
  unfold Emulator.fire. by destruct (removePilet (handle t) (name (payload t))).
Qed.

(** *** The invariant holds in every reachable state *)

Lemma wf_init : wf init.
Proof.
  split; simpl; try done; try (intros; set_solver).
  - constructor.
  - intros c. rewrite lookup_empty. constructor.
Qed.

Lemma shape_nil_None c ph :
  shape c ph [] → ph = None.
Proof. by inversion 1. Qed.

Lemma wf_not_running s t :
  wf s → t ∈ timers s → chains s !! handle t = None.
Proof.
  intros Hwf Ht. pose proof (wf_shape _ _ Hwf (handle t)) as Hs.
  rewrite (wf_waiting _ _ Hwf t Ht) in Hs. by apply shape_nil_None in Hs.
Qed.

(** *** What [clearTimeout] removes *)

(** Under the invariant, clearing the cached handle of a name removes the
    pending timers of that name and no other; under [__proto__] there is
    no handle to clear. *)
Lemma clearTimeout_by_name s n :
  wf s →
  timers (clearTimeout (cached n s) s)
  = if decide (n = "__proto__") then timers s
    else filter (λ t, name (payload t) ≠ n) (timers s).
Proof.
  intros Hwf. unfold cached.
  destruct (decide (n = "__proto__")) as [->|Hproto]; [done|].
  apply String.eqb_neq in Hproto as Hb. rewrite Hb.
  destruct (timeoutCache s !! n) as [h|] eqn:Hh; simpl.
  - apply filter_in_ext. intros t Ht. split.
    + intros Hne Hn. apply Hne. apply (wf_cache _ _ Hwf) in Ht; [|by rewrite Hn].
      rewrite Hn, Hh in Ht. by injection Ht.
    + intros Hne Heq. apply Hne. apply (wf_owner _ _ Hwf); [done|].
      by rewrite Heq.
  - symmetry. apply filter_in_all. intros t Ht Hn.
    apply (wf_cache _ _ Hwf) in Ht; [|by rewrite Hn]. rewrite Hn, Hh in Ht. done.
Qed.

Lemma cache_lookup n h (m : gmap string nat) k :
  cache n h m !! k
  = if decide (n = k ∧ n ≠ "__proto__") then Some h else m !! k.
Proof.
  unfold cache. destruct (String.eqb n "__proto__") eqn:E.
  - apply String.eqb_eq in E. rewrite decide_False; [done|]. tauto.
  - apply String.eqb_neq in E. destruct (decide (n = k)) as [->|Hne].
    + rewrite lookup_insert_eq. by rewrite decide_True.
    + rewrite lookup_insert_ne by done. rewrite decide_False; [done|]. tauto.
Qed.

Lemma onmessage_hard st data s :
  session_on st "dbg:hard-refresh" = true →
  onmessage st data s =
  {| clock := clock s; timeoutCache := timeoutCache s; timers := timers s;
     nextHandle := nextHandle s; chains := chains s;
     history := history s ++ [LocationReload] |}.
Proof. intros H. unfold Emulator.onmessage. by rewrite H. Qed.

Lemma onmessage_unparsed st data s :
  session_on st "dbg:hard-refresh" = false →
  JSON_parse data = None →
  onmessage st data s = s.
Proof. intros H1 H2. unfold Emulator.onmessage. by rewrite H1, H2. Qed.

Lemma onmessage_soft st data meta s :
  wf s →
  session_on st "dbg:hard-refresh" = false →
  JSON_parse data = Some meta →
  onmessage st data s =
  {| clock := clock s;
     timeoutCache := cache (name meta) (nextHandle s) (timeoutCache s);
     timers :=
       (if decide (name meta = "__proto__") then timers s
        else filter (λ t, name (payload t) ≠ name meta) (timers s)) ++
       [{| handle := nextHandle s; due := clock s + timeout; payload := meta |}];
     nextHandle := S (nextHandle s); chains := chains s;
     history := history s |}.
Proof.
  intros Hwf H1 H2. unfold Emulator.onmessage. rewrite H1, H2; simpl.
  rewrite <- (clearTimeout_by_name s (name meta) Hwf).
  by destruct (cached (name meta) s).
Qed.

Lemma kept_timer (meta : Pilet) (l : list (@timer Pilet)) t :
  t ∈ (if decide (name meta = "__proto__") then l
       else filter (λ t, name (payload t) ≠ name meta) l) →
  t ∈ l ∧ (name meta ≠ "__proto__" → name (payload t) ≠ name meta).
Proof.
  case_decide as Hp; [done|]. by intros [? ?]%list_elem_of_filter.
Qed.

Lemma wf_onmessage st data s : wf s → wf (onmessage st data s).
Proof.
  intros Hwf.
  destruct (session_on st "dbg:hard-refresh") eqn:Hhard.
  { rewrite onmessage_hard by done.
    destruct Hwf. split; simpl; try done.
    - intros c Hc. rewrite of_cycle_app. by rewrite wf_unused0.
    - intros t Ht. rewrite of_cycle_app. by rewrite wf_waiting0.
    - intros c. rewrite of_cycle_app. simpl. by rewrite app_nil_r.
    - rewrite freezes_app, unfreezes_app, throws_app. simpl.
      unfold freezes, unfreezes, throws in *. simpl. lia. }
  destruct (JSON_parse data) as [meta|] eqn:Hparse.
  2:{ by rewrite onmessage_unparsed. }
  rewrite (onmessage_soft st data meta) by done.
  pose proof Hwf as [Hc Hp Ho Hn Htb Hcb Hu Hw Hs Hf].
  split; simpl; try done.
  - intros t [[Ht Hne]%kept_timer| ->%list_elem_of_singleton]%elem_of_app Hproto.
    + rewrite cache_lookup. case_decide as Hk; [|by apply Hc].
      destruct Hk as [Hk Hk']. exfalso. by apply (Hne Hk').
    + simpl in *. rewrite cache_lookup. by rewrite decide_True.
  - rewrite cache_lookup. case_decide as Hk; [|done]. by destruct Hk.
  - intros n t [[Ht Hne]%kept_timer| ->%list_elem_of_singleton]%elem_of_app;
      simpl; rewrite cache_lookup; case_decide as Hk; intros Hl.
    + apply Htb in Ht. injection Hl. lia.
    + by apply Ho.
    + by destruct Hk.
    + apply Hcb in Hl. lia.
  - rewrite fmap_app. apply NoDup_app. split.
    { case_decide; [done|by apply NoDup_fmap_filter]. }
    split; [|apply NoDup_singleton].
    intros h (t & -> & [Ht _]%kept_timer)%list_elem_of_fmap.
    simpl. intros Heq%list_elem_of_singleton. apply Htb in Ht. lia.
  - intros t [[Ht _]%kept_timer| ->%list_elem_of_singleton]%elem_of_app.
    + apply Htb in Ht. lia.
    + simpl. lia.
  - intros n h. rewrite cache_lookup. case_decide.
    + intros [= <-]. lia.
    + intros Hl%Hcb. lia.
  - intros c Hle. apply Hu. lia.
  - intros t [[Ht _]%kept_timer| ->%list_elem_of_singleton]%elem_of_app.
    + by apply Hw.
    + simpl. by apply Hu.
Qed.

Lemma wf_fire t s : wf s → t ∈ timers s → wf (fire t s).
Proof.
  intros Hwf Ht.
  pose proof (wf_not_running s t Hwf Ht) as Hnone.
  pose proof Hwf as [Hc Hp Ho Hn Htb Hcb Hu Hw Hs Hf].
  destruct (fire_frame t s) as (Hclock & Hcache & Hnext & Htimers).
  split; rewrite ?Hclock, ?Hcache, ?Hnext, ?Htimers, ?fire_history.
  - intros t' [_ Ht']%list_elem_of_filter. by apply Hc.
  - done.
  - intros n t' [_ Ht']%list_elem_of_filter. by apply Ho.
  - by apply NoDup_fmap_filter.
  - intros t' [_ Ht']%list_elem_of_filter. by apply Htb.
  - done.
  - intros c Hle. rewrite of_cycle_app, of_cycle_fired, Hu by done.
    apply Htb in Ht. case_decide; [lia|done].
  - intros t' [Hne Ht']%list_elem_of_filter.
    rewrite of_cycle_app, of_cycle_fired, Hw by done.
    case_decide; [congruence|done].
  - intros c. rewrite of_cycle_app, of_cycle_fired, fire_chains.
    destruct (decide (handle t = c)) as [<-|Hne].
    + rewrite Hw by done. unfold Emulator.fired.
      destruct (removePilet (handle t) (name (payload t))).
      * rewrite lookup_insert_eq, app_nil_r. constructor.
      * rewrite Hnone. constructor.
    + rewrite app_nil_r.
      destruct (removePilet (handle t) (name (payload t)));
        [rewrite lookup_insert_ne by done|]; apply Hs.
  - rewrite freezes_app, unfreezes_app, throws_app, fire_chains, Hf.
    unfold Emulator.fired.
    destruct (removePilet (handle t) (name (payload t)));
      [rewrite map_size_insert_None by done|];
      unfold freezes, unfreezes, throws; simpl; lia.
Qed.

Lemma of_cycle_other c c' (h l : list (@action Pilet)) :
  c ≠ c' → Forall (λ a, cycle_of a = Some c') l →
  of_cycle c (h ++ l) = of_cycle c h.
Proof.
  intros Hne Hl. rewrite of_cycle_app.
  unfold of_cycle at 2. rewrite filter_in_none, app_nil_r; [done|].
  intros a Ha. rewrite Forall_forall in Hl. rewrite (Hl a Ha). congruence.
Qed.

Lemma of_cycle_same c (h l : list (@action Pilet)) :
  Forall (λ a, cycle_of a = Some c) l →
  of_cycle c (h ++ l) = of_cycle c h ++ l.
Proof.
  intros Hl. rewrite of_cycle_app. f_equal.
  apply filter_in_all. by apply Forall_forall.
Qed.

Lemma shape_started_ne c ph l :
  shape c ph l → ph ≠ None → l ≠ [].
Proof. by inversion 1. Qed.

Lemma shape_await_remove_inv c meta l :
  shape c (Some (AwaitRemove meta)) l → l = started c meta.
Proof. by inversion 1. Qed.

Lemma shape_await_add_inv c meta l :
  shape c (Some (AwaitAdd meta)) l →
  l = started c meta ++ [RemoveSettled c fulfilled; AddPilet c meta].
Proof. by inversion 1. Qed.

(** The steps shared by the settlements of a cycle [c] whose actions so far
    are not empty ([Hne]): another cycle [c'], with no action yet by [H],
    keeps none; and the freezes still count the chains. *)
Local Ltac other_has_none c Hne H :=
  rewrite of_cycle_other with (c' := c);
  [by apply H|intros <-; apply Hne; by apply H|by repeat constructor].

Local Ltac other_keeps_shape c Hs :=
  rewrite of_cycle_other with (c' := c) by (done || by repeat constructor);
  apply Hs.

Local Ltac one_chain_less Hf Hch :=
  rewrite freezes_app, unfreezes_app, throws_app,
    map_size_delete_Some by (by rewrite Hch);
  rewrite Hf; unfold freezes, unfreezes, throws; simpl;
  match goal with
  | |- context [size ?m] =>
      assert (size m ≠ 0);
      [intros Hz%map_size_empty_inv; by rewrite Hz in Hch|lia]
  end.

Lemma wf_remove_settled c r s : wf s → wf (remove_settled c r s).
Proof.
  intros Hwf. unfold remove_settled.
  destruct (chains s !! c) as [[meta|meta]|] eqn:Hch; try done.
  pose proof Hwf as [Hc Hp Ho Hn Htb Hcb Hu Hw Hs Hf].
  pose proof (Hs c) as Hsc. rewrite Hch in Hsc.
  assert (of_cycle c (history s) ≠ []) as Hne
    by (eapply shape_started_ne; [exact Hsc|done]).
  apply shape_await_remove_inv in Hsc as Heq.
  destruct r; split; simpl; try done.
  - intros c' Hle. other_has_none c Hne Hu.
  - intros t Ht. other_has_none c Hne Hw.
  - intros c'. destruct (decide (c = c')) as [<-|Hcc].
    + rewrite lookup_insert_eq, of_cycle_same by (by repeat constructor).
      rewrite Heq. constructor.
    + rewrite lookup_insert_ne by done. other_keeps_shape c Hs.
  - rewrite freezes_app, unfreezes_app, throws_app,
      map_size_insert_Some by (by rewrite Hch).
    rewrite Hf. unfold freezes, unfreezes, throws. simpl. lia.
  - intros c' Hle. other_has_none c Hne Hu.
  - intros t Ht. other_has_none c Hne Hw.
  - intros c'. destruct (decide (c = c')) as [<-|Hcc].
    + rewrite lookup_delete_eq, of_cycle_same by (by repeat constructor).
      rewrite Heq. constructor.
    + rewrite lookup_delete_ne by done. other_keeps_shape c Hs.
  - one_chain_less Hf Hch.
Qed.

Lemma wf_add_settled c r s : wf s → wf (add_settled c r s).
Proof.
  intros Hwf. unfold add_settled.
  destruct (chains s !! c) as [[meta|meta]|] eqn:Hch; try done.
  pose proof Hwf as [Hc Hp Ho Hn Htb Hcb Hu Hw Hs Hf].
  pose proof (Hs c) as Hsc. rewrite Hch in Hsc.
  assert (of_cycle c (history s) ≠ []) as Hne
    by (eapply shape_started_ne; [exact Hsc|done]).
  apply shape_await_add_inv in Hsc as Heq.
  split; simpl; try done.
  - intros c' Hle. other_has_none c Hne Hu.
  - intros t Ht. other_has_none c Hne Hw.
  - intros c'. destruct (decide (c = c')) as [<-|Hcc].
    + rewrite lookup_delete_eq, of_cycle_same by (by repeat constructor).
      rewrite Heq, <- app_assoc. apply shape_completed.
    + rewrite lookup_delete_ne by done. other_keeps_shape c Hs.
  - one_chain_less Hf Hch.
Qed.

(** *** Time passing *)

Lemma wf_advance dt s : wf s → wf (advance dt s).
Proof. intros []. by split. Qed.

Lemma wf_fires l s :
  wf s → (∀ t, t ∈ l → t ∈ timers s) → NoDup (handle <$> l) →
  wf (foldl (λ s' t, fire t s') s l).
Proof.
  revert s. induction l as [|t l IH]; intros s Hwf Hin Hnd; [done|].
  simpl. rewrite fmap_cons in Hnd. apply NoDup_cons in Hnd as [Hnot Hnd].
  apply IH; [|intros t' Ht'|done].
  - apply wf_fire; [done|]. apply Hin, elem_of_cons. by left.
  - destruct (fire_frame t s) as (_ & _ & _ & ->).
    apply list_elem_of_filter. split.
    + intros Heq. apply Hnot. rewrite <- Heq. by apply list_elem_of_fmap_2.
    + apply Hin, elem_of_cons. by right.
Qed.

Lemma fires_history l s :
  history (foldl (λ s' t, fire t s') s l)
  = history s ++ (l ≫= λ t, fired (handle t) (payload t)).
Proof.
  revert s. induction l as [|t l IH]; intros s; simpl.
  - by rewrite app_nil_r.
  - rewrite IH, fire_history. by rewrite <- app_assoc.
Qed.

Lemma fires_timers l s :
  timers (foldl (λ s' t, fire t s') s l)
  = filter (λ t, handle t ∉ handle <$> l) (timers s).
Proof.
  revert s. induction l as [|t l IH]; intros s; simpl.
  - symmetry. apply filter_in_all. intros t _. apply not_elem_of_nil.
  - rewrite IH. destruct (fire_frame t s) as (_ & _ & _ & ->).
    rewrite list_filter_filter.
    apply list_filter_iff. intros t'. rewrite not_elem_of_cons. tauto.
Qed.

Lemma fires_clock l s : clock (foldl (λ s' t, fire t s') s l) = clock s.
Proof.
  revert s. induction l as [|t l IH]; intros s; simpl; [done|].
  rewrite IH. by destruct (fire_frame t s) as (-> & _).
Qed.

Lemma fires_cache l s :
  timeoutCache (foldl (λ s' t, fire t s') s l) = timeoutCache s.
Proof.
  revert s. induction l as [|t l IH]; intros s; simpl; [done|].
  rewrite IH. by destruct (fire_frame t s) as (_ & -> & _).
Qed.

Lemma fires_chains l s c :
  c ∉ handle <$> l →
  chains (foldl (λ s' t, fire t s') s l) !! c = chains s !! c.
Proof.
  revert s. induction l as [|t l IH]; intros s; simpl; [done|].
  rewrite not_elem_of_cons. intros [Hne Hnot]. rewrite IH by done.
  rewrite fire_chains. destruct (removePilet _ _); [|done].
  by rewrite lookup_insert_ne.
Qed.

Lemma tick_clock dt s : clock (tick dt s) = clock s + dt.
Proof. unfold Emulator.tick. by rewrite fires_clock. Qed.

Lemma tick_cache dt s : timeoutCache (tick dt s) = timeoutCache s.
Proof. unfold Emulator.tick. by rewrite fires_cache. Qed.

Lemma tick_history dt s :
  history (tick dt s)
  = history s ++ (filter (λ t, due t ≤ clock s + dt) (timers s)
                  ≫= λ t, fired (handle t) (payload t)).
Proof. unfold Emulator.tick. by rewrite fires_history. Qed.

Lemma tick_timers dt s :
  wf s →
  timers (tick dt s) = filter (λ t, clock s + dt < due t) (timers s).
Proof.
  intros Hwf. unfold Emulator.tick. rewrite fires_timers. simpl.
  apply filter_in_ext. intros t Ht. split.
  - intros Hnot. destruct (decide (clock s + dt < due t)); [done|].
    exfalso. apply Hnot. apply list_elem_of_fmap_2, list_elem_of_filter.
    split; [lia|done].
  - intros Hlt (t' & Heq & [Hdue Ht']%list_elem_of_filter)%list_elem_of_fmap.
    assert (t = t'); [|subst; lia].
    by apply (NoDup_fmap_elem_inj handle (timers s)); [apply Hwf|..].
Qed.

Lemma wf_tick dt s : wf s → wf (tick dt s).
Proof.
  intros Hwf. unfold Emulator.tick. apply wf_fires.
  - by apply wf_advance.
  - by intros t [_ Ht]%list_elem_of_filter.
  - apply NoDup_fmap_filter, Hwf.
Qed.

Lemma prompt_tick dt s : wf s → prompt (tick dt s).
Proof.
  intros Hwf t. rewrite tick_timers, tick_clock by done.
  by intros [Hlt _]%list_elem_of_filter.
Qed.

Lemma wf_step s i : wf s → wf (step s i).
Proof.
  destruct i; simpl;
    auto using wf_tick, wf_onmessage, wf_remove_settled, wf_add_settled.
Qed.

Lemma wf_run inputs s : wf s → wf (run s inputs).
Proof.
  revert s. induction inputs as [|i inputs IH]; intros s Hwf; [done|].
  simpl. apply IH. by apply wf_step.
Qed.

Lemma wf_reachable s : reachable s → wf s.
Proof. intros [inputs ->]. apply wf_run, wf_init. Qed.

Lemma run_snoc s inputs i : run s (inputs ++ [i]) = step (run s inputs) i.
Proof. unfold Emulator.run. by rewrite foldl_snoc. Qed.

Lemma run_app s l1 l2 : run s (l1 ++ l2) = run (run s l1) l2.
Proof. unfold Emulator.run. by rewrite foldl_app. Qed.

(** *** The debounce *)

Lemma remove_settled_frame c r (s : @state Pilet) :
  timers (remove_settled c r s) = timers s ∧
  clock (remove_settled c r s) = clock s ∧
  timeoutCache (remove_settled c r s) = timeoutCache s ∧
  ∃ l, history (remove_settled c r s) = history s ++ l ∧ Forall (settling c) l.
Proof.
  unfold remove_settled.
  destruct (chains s !! c) as [[meta|meta]|]; [destruct r|..]; simpl;
    repeat split; try (exists []; by rewrite app_nil_r);
    eexists; (split; [reflexivity|]); by repeat constructor.
Qed.

Lemma add_settled_frame c r (s : @state Pilet) :
  timers (add_settled c r s) = timers s ∧
  clock (add_settled c r s) = clock s ∧
  timeoutCache (add_settled c r s) = timeoutCache s ∧
  ∃ l, history (add_settled c r s) = history s ++ l ∧ Forall (settling c) l.
Proof.
  unfold add_settled.
  destruct (chains s !! c) as [[meta|meta]|]; simpl;
    repeat split; try (exists []; by rewrite app_nil_r);
    eexists; (split; [reflexivity|]); by repeat constructor.
Qed.

Lemma reloads_no_callback n c (l : list (@action Pilet)) :
  Forall (settling c) l → reloads n l = [].
Proof.
  induction 1 as [|a l Ha _ IH]; [done|].
  change (a :: l) with ([a] ++ l). rewrite reloads_app, IH, app_nil_r.
  destruct Ha as (_ & Hr & _). apply Hr.
Qed.

Lemma teardowns_app n (h1 h2 : list (@action Pilet)) :
  teardowns n (h1 ++ h2) = teardowns n h1 + teardowns n h2.
Proof. unfold teardowns. by rewrite filter_app, length_app. Qed.

Lemma teardowns_no_callback n c (l : list (@action Pilet)) :
  Forall (settling c) l → teardowns n l = 0.
Proof.
  induction 1 as [|a l Ha _ IH]; [done|].
  change (a :: l) with ([a] ++ l). rewrite teardowns_app, IH.
  destruct Ha as (_ & _ & Ht). by rewrite Ht.
Qed.

Lemma teardowns_fired_one n c (meta : Pilet) :
  teardowns n (fired c meta) = if decide (name meta = n) then 1 else 0.
Proof.
  unfold Emulator.fired, Emulator.started. rewrite teardowns_app.
  assert (teardowns n (if removePilet c (name meta) then []
                       else [CallbackThrew c : @action Pilet]) = 0) as ->
    by by destruct (removePilet c (name meta)).
  unfold teardowns. rewrite !filter_cons, filter_nil. simpl.
  destruct (decide (name meta = n)) as [Hn|Hn].
  - by rewrite bool_decide_eq_true_2.
  - by rewrite bool_decide_eq_false_2.
Qed.

Lemma teardowns_fired n (l : list (@timer Pilet)) :
  teardowns n (l ≫= λ t, fired (handle t) (payload t))
  = length (reloads n (l ≫= λ t, fired (handle t) (payload t))).
Proof.
  induction l as [|t l IH]; [done|].
  rewrite bind_cons, teardowns_app, reloads_app, length_app, IH. f_equal.
  rewrite teardowns_fired_one, reloads_fired_one. by case_decide.
Qed.

(** Each cycle calls [removePilet] once, with the name of its payload: the
    calls for a name are as many as the cycles started for it. *)
Lemma teardowns_step n s i :
  wf s →
  teardowns n (history (step s i)) + length (reloads n (history s))
  = teardowns n (history s) + length (reloads n (history (step s i))).
Proof.
  intros Hwf. destruct i as [dt|st data|c r|c r]; simpl.
  - rewrite tick_history, teardowns_app, reloads_app, length_app, teardowns_fired.
    lia.
  - destruct (session_on st "dbg:hard-refresh") eqn:Hhard.
    { rewrite onmessage_hard by done. simpl.
      rewrite teardowns_app, reloads_app, length_app.
      change (teardowns n [LocationReload]) with 0.
      change (length (reloads n [LocationReload])) with 0. lia. }
    destruct (JSON_parse data) as [meta|] eqn:Hparse.
    2:{ by rewrite onmessage_unparsed. }
    by rewrite (onmessage_soft st data meta).
  - destruct (remove_settled_frame c r s) as (_ & _ & _ & l & -> & Hl).
    rewrite teardowns_app, reloads_app, length_app.
    rewrite (teardowns_no_callback n c l), (reloads_no_callback n c l) by done.
    simpl. lia.
  - destruct (add_settled_frame c r s) as (_ & _ & _ & l & -> & Hl).
    rewrite teardowns_app, reloads_app, length_app.
    rewrite (teardowns_no_callback n c l), (reloads_no_callback n c l) by done.
    simpl. lia.
Qed.

Lemma teardowns_run n inputs s :
  wf s →
  teardowns n (history (run s inputs)) + length (reloads n (history s))
  = teardowns n (history s) + length (reloads n (history (run s inputs))).
Proof.
  revert s. induction inputs as [|i inputs IH]; intros s Hwf; [done|].
  simpl. pose proof (teardowns_step n s i Hwf) as Hi.
  pose proof (IH (step s i) (wf_step s i Hwf)) as Hr.
  change (foldl step (step s i) inputs) with (run (step s i) inputs).
  lia.
Qed.

Lemma reloads_fired n (l : list (@timer Pilet)) :
  reloads n (l ≫= λ t, fired (handle t) (payload t))
  = payload <$> filter (λ t, name (payload t) = n) l.
Proof.
  induction l as [|t l IH]; [done|].
  rewrite bind_cons, reloads_app, IH, filter_cons, reloads_fired_one.
  by case_decide.
Qed.

Lemma pending_tick n dt s :
  wf s →
  pending n (tick dt s) = filter (λ t, clock s + dt < due t) (pending n s).
Proof.
  intros Hwf. unfold Emulator.pending. rewrite tick_timers by done.
  rewrite !list_filter_filter. apply list_filter_iff. tauto.
Qed.

Lemma reloads_tick n dt s :
  reloads n (history (tick dt s))
  = reloads n (history s)
    ++ (payload <$> filter (λ t, due t ≤ clock s + dt) (pending n s)).
Proof.
  rewrite tick_history, reloads_app, reloads_fired. do 2 f_equal.
  unfold Emulator.pending.
  rewrite !list_filter_filter. apply list_filter_iff. tauto.
Qed.

(** A notification for a name other than [__proto__] replaces whatever
    timer the name had by a fresh one that closes over the new payload; no
    cycle starts. *)
Lemma notify_arms n meta i s :
  wf s → n ≠ "__proto__" → notifies n meta i →
  pending n (step s i) =
    [{| handle := nextHandle s; due := clock s + timeout; payload := meta |}] ∧
  clock (step s i) = clock s ∧
  history (step s i) = history s.
Proof.
  intros Hwf Hproto (st & data & -> & Hsoft & Hparse & Hname). simpl.
  rewrite (onmessage_soft st data meta) by done. simpl.
  split; [|done]. unfold Emulator.pending. simpl.
  rewrite decide_False by congruence.
  rewrite filter_app, filter_in_none, filter_cons_True, filter_nil; [done..|].
  intros t [Hne _]%list_elem_of_filter. congruence.
Qed.

(** A quiet input leaves the timers of [n], the clock and the reloads of
    [n] as they are. *)
Lemma quiet_frame n i s :
  wf s → quiet n i →
  pending n (step s i) = pending n s ∧
  clock (step s i) = clock s ∧
  reloads n (history (step s i)) = reloads n (history s).
Proof.
  intros Hwf Hq. destruct i as [dt|st data|c r|c r]; simpl in *.
  - done.
  - destruct (session_on st "dbg:hard-refresh") eqn:Hhard.
    { rewrite onmessage_hard by done. unfold Emulator.pending. simpl.
      by rewrite reloads_app, app_nil_r. }
    destruct Hq as [?|Hq]; [done|].
    destruct (JSON_parse data) as [meta|] eqn:Hparse.
    2:{ by rewrite onmessage_unparsed. }
    rewrite (onmessage_soft st data meta) by done.
    unfold Emulator.pending. simpl. split; [|done].
    rewrite filter_app, filter_cons_False, filter_nil, app_nil_r
      by (simpl; by apply Hq).
    case_decide; [done|].
    apply list_filter_filter_l. intros t -> Heq. by apply (Hq meta).
  - destruct (remove_settled_frame c r s) as (Ht & Hc & _ & l & Hh & Hl).
    unfold Emulator.pending. rewrite Ht, Hc, Hh, reloads_app.
    by rewrite (reloads_no_callback n c l), app_nil_r.
  - destruct (add_settled_frame c r s) as (Ht & Hc & _ & l & Hh & Hl).
    unfold Emulator.pending. rewrite Ht, Hc, Hh, reloads_app.
    by rewrite (reloads_no_callback n c l), app_nil_r.
Qed.

(** While less than [timeout] has passed the timer stays. *)
Lemma wait_keeps n meta e dt s :
  wf s → armed n meta e s → e + dt < timeout →
  armed n meta (e + dt) (tick dt s) ∧
  reloads n (history (tick dt s)) = reloads n (history s).
Proof.
  intros Hwf (t & Hp & Hm & Hdue) Hlt. split.
  - exists t. rewrite pending_tick, Hp, tick_clock by done.
    rewrite filter_cons_True, filter_nil by lia. repeat split; [done|lia].
  - rewrite reloads_tick, Hp.
    rewrite filter_cons_False, filter_nil by lia. by rewrite app_nil_r.
Qed.

(** Once [timeout] has passed the callback runs, with the payload the
    timer closed over. *)
Lemma release n meta e dt s :
  wf s → armed n meta e s → timeout ≤ e + dt →
  reloads n (history (tick dt s)) = reloads n (history s) ++ [meta] ∧
  pending n (tick dt s) = [].
Proof.
  intros Hwf (t & Hp & Hm & Hdue) Hle. split.
  - rewrite reloads_tick, Hp.
    rewrite filter_cons_True, filter_nil by lia. simpl. by rewrite Hm.
  - rewrite pending_tick, Hp by done.
    by rewrite filter_cons_False, filter_nil by lia.
Qed.

(** Without a timer for [n] and without a notification for [n] no cycle
    for [n] starts. *)
Lemma calm_stays n i s :
  wf s → pending n s = [] → calm n i →
  pending n (step s i) = [] ∧
  reloads n (history (step s i)) = reloads n (history s).
Proof.
  intros Hwf Hp Hcalm. destruct i as [dt| | |];
    try (destruct (quiet_frame n _ s Hwf Hcalm) as (-> & _ & ->); done).
  simpl. rewrite pending_tick, reloads_tick, Hp by done.
  by rewrite !filter_nil, app_nil_r.
Qed.

Lemma calm_run n rest s :
  wf s → pending n s = [] → Forall (calm n) rest →
  pending n (run s rest) = [] ∧
  reloads n (history (run s rest)) = reloads n (history s).
Proof.
  intros Hwf Hp Hrest. revert s Hwf Hp.
  induction Hrest as [|i rest Hi _ IH]; intros s Hwf Hp; [done|].
  simpl. destruct (calm_stays n i s Hwf Hp Hi) as [Hp' Hr'].
  destruct (IH (step s i)) as [? ->]; [by apply wf_step|done|]. by rewrite Hr'.
Qed.

(** During a burst the last notification is the one whose timer is
    pending, and no cycle for [n] has started. *)
Lemma burst_armed n e meta inputs s :
  wf s → n ≠ "__proto__" → burst n e meta inputs →
  armed n meta e (run s inputs) ∧
  reloads n (history (run s inputs)) = reloads n (history s).
Proof.
  intros Hwf Hproto Hb.
  induction Hb as [meta i Hi|e meta0 inputs meta i _ [_ IHr] Hi
                  |e meta inputs dt _ [IHa IHr] Hlt
                  |e meta inputs i _ [IHa IHr] Hq].
  - simpl. destruct (notify_arms n meta i s Hwf Hproto Hi) as (Hp & Hc & Hh).
    split; [|by rewrite Hh]. eexists. split; [exact Hp|]. simpl.
    rewrite Hc. split; [done|lia].
  - rewrite run_snoc.
    destruct (notify_arms n meta i (run s inputs)) as (Hp & Hc & Hh);
      [by apply wf_run|done..|].
    split; [|by rewrite Hh]. eexists. split; [exact Hp|]. simpl.
    rewrite Hc. split; [done|lia].
  - rewrite run_snoc. simpl.
    destruct (wait_keeps n meta e dt (run s inputs)) as [Ha Hr];
      [by apply wf_run|done..|].
    split; [done|]. by rewrite Hr.
  - rewrite run_snoc.
    destruct (quiet_frame n i (run s inputs)) as (Hp & Hc & Hr);
      [by apply wf_run|done|].
    split; [|by rewrite Hr].
    destruct IHa as (t & Hpt & Hm & Hdue). exists t. by rewrite Hp, Hc.
Qed.

(** At most one timer is pending for a name other than [__proto__]. *)
Lemma pending_at_most_one n s :
  wf s → n ≠ "__proto__" → length (pending n s) ≤ 1.
Proof.
  intros Hwf Hproto.
  assert (NoDup (timers s)) as Hnd by (eapply NoDup_fmap_1, Hwf).
  assert (NoDup (pending n s)) as Hndp
    by (eapply sublist_NoDup; [exact Hnd|apply sublist_filter]).
  destruct (pending n s) as [|t1 [|t2 l]] eqn:Hp; simpl; [lia..|].
  exfalso.
  assert (t1 ∈ pending n s ∧ t2 ∈ pending n s) as [H1 H2]
    by (rewrite Hp; split; set_solver).
  apply list_elem_of_filter in H1 as [Hn1 H1].
  apply list_elem_of_filter in H2 as [Hn2 H2].
  assert (t1 = t2) as ->.
  { apply (NoDup_fmap_elem_inj handle (timers s)); [apply Hwf|done..|].
    pose proof (wf_cache _ _ Hwf t1 H1) as E1.
    pose proof (wf_cache _ _ Hwf t2 H2) as E2.
    rewrite Hn1 in E1. rewrite Hn2 in E2.
    specialize (E1 Hproto). specialize (E2 Hproto). congruence. }
  apply NoDup_cons in Hndp as [Hnot _]. apply Hnot. set_solver.
Qed.

Lemma prompt_reachable s : reachable s → prompt s.
Proof.
  intros [inputs ->]. induction inputs as [|i inputs IH] using rev_ind.
  { intros t Ht. by apply elem_of_nil in Ht. }
  rewrite run_snoc.
  assert (wf (run init inputs)) as Hwf by apply wf_run, wf_init.
  destruct i as [dt|st data|c r|c r]; simpl.
  - by apply prompt_tick.
  - destruct (session_on st "dbg:hard-refresh") eqn:Hhard.
    { by rewrite onmessage_hard. }
    destruct (JSON_parse data) as [meta|] eqn:Hparse.
    2:{ by rewrite onmessage_unparsed. }
    rewrite (onmessage_soft st data meta) by done.
    intros t. simpl.
    intros [[Ht _]%kept_timer| ->%list_elem_of_singleton]%elem_of_app.
    + by apply IH.
    + simpl. unfold timeout. lia.
  - destruct (remove_settled_frame c r (run init inputs)) as (Ht & Hc & _).
    intros t. rewrite Ht, Hc. apply IH.
  - destruct (add_settled_frame c r (run init inputs)) as (Ht & Hc & _).
    intros t. rewrite Ht, Hc. apply IH.
Qed.

(** *** The cycle a timer starts *)

Lemma of_cycle_fires (l : list (@timer Pilet)) t :
  NoDup (handle <$> l) → t ∈ l →
  of_cycle (handle t) (l ≫= λ t, fired (handle t) (payload t))
  = fired (handle t) (payload t).
Proof.
  induction l as [|t' l IH]; [by intros _ ?%elem_of_nil|].
  rewrite fmap_cons, NoDup_cons. intros [Hnot Hnd].
  rewrite bind_cons, of_cycle_app, of_cycle_fired.
  intros [->|Hin]%elem_of_cons.
  - rewrite decide_True by done.
    assert (of_cycle (handle t') (l ≫= λ t, fired (handle t) (payload t)) = [])
      as ->; [|by rewrite app_nil_r].
    clear IH. induction l as [|t l IH]; [done|].
    rewrite fmap_cons, not_elem_of_cons in Hnot. destruct Hnot as [Hne Hnot].
    apply NoDup_cons in Hnd as [_ Hnd].
    rewrite bind_cons, of_cycle_app, of_cycle_fired, decide_False by congruence.
    by apply IH.
  - rewrite decide_False, IH; [done..|].
    intros Heq. apply Hnot. rewrite Heq. by apply list_elem_of_fmap_2.
Qed.

Lemma shape_fired_inv c ph (meta : Pilet) :
  shape c ph (fired c meta) →
  ph = if removePilet c (name meta) then Some (AwaitRemove meta) else None.
Proof.
  unfold Emulator.fired, Emulator.started.
  destruct (removePilet c (name meta)); simpl; inversion 1; done.
Qed.

(** The callback of a timer that is due runs at the next tick: the
    actions of its cycle are those of the callback, and with a promise of
    the removal the chain waits for it. *)
Lemma tick_starts dt s t :
  wf s → t ∈ timers s → due t ≤ clock s + dt →
  of_cycle (handle t) (history s) = [] ∧
  of_cycle (handle t) (history (tick dt s)) = fired (handle t) (payload t) ∧
  chains (tick dt s) !! handle t
  = if removePilet (handle t) (name (payload t))
    then Some (AwaitRemove (payload t)) else None.
Proof.
  intros Hwf Ht Hdue.
  pose proof (wf_waiting _ _ Hwf t Ht) as Hnone.
  assert (of_cycle (handle t) (history (tick dt s))
          = fired (handle t) (payload t)) as Hfired.
  { rewrite tick_history, of_cycle_app, Hnone. simpl.
    apply of_cycle_fires.
    - apply NoDup_fmap_filter, Hwf.
    - apply list_elem_of_filter. by split. }
  split; [done|]. split; [done|].
  pose proof (wf_shape _ _ (wf_tick dt s Hwf) (handle t)) as Hs.
  rewrite Hfired in Hs. by apply shape_fired_inv in Hs.
Qed.

(** A chain is moved by the settlements of its own cycle only. *)
Lemma chain_kept c ph s i :
  wf s → chains s !! c = Some ph → leaves c i →
  chains (step s i) !! c = Some ph.
Proof.
  intros Hwf Hch Hi. destruct i as [dt|st data|c' r|c' r]; simpl in *.
  - unfold Emulator.tick. rewrite fires_chains; [done|].
    intros (t & Heq & [_ Ht]%list_elem_of_filter)%list_elem_of_fmap.
    simpl in Ht. rewrite Heq, (wf_not_running s t Hwf Ht) in Hch. done.
  - unfold Emulator.onmessage.
    destruct (negb _); [|done].
    destruct (JSON_parse data) as [meta|]; [|done]. simpl.
    by destruct (cached (name meta) s).
  - unfold remove_settled.
    destruct (chains s !! c') as [[meta|meta]|] eqn:Hc'; [destruct r|..]; simpl;
      rewrite ?lookup_insert_ne, ?lookup_delete_ne by done; done.
  - unfold add_settled.
    destruct (chains s !! c') as [[meta|meta]|] eqn:Hc'; simpl;
      rewrite ?lookup_delete_ne by done; done.
Qed.

Lemma chain_kept_run c ph s inputs :
  wf s → chains s !! c = Some ph → Forall (leaves c) inputs →
  chains (run s inputs) !! c = Some ph.
Proof.
  intros Hwf Hch Hin. revert s Hwf Hch.
  induction Hin as [|i inputs Hi _ IH]; intros s Hwf Hch; [done|].
  simpl. apply IH; [by apply wf_step|by apply chain_kept].
Qed.

(** What the settlement of the removal does to a chain that waits for
    it. *)
Lemma removal_settles c (meta : Pilet) s :
  chains s !! c = Some (AwaitRemove meta) →
  history (step s (RemoveDone c fulfilled))
    = history s ++ [RemoveSettled c fulfilled; AddPilet c meta] ∧
  chains (step s (RemoveDone c fulfilled)) !! c = Some (AwaitAdd meta) ∧
  history (step s (RemoveDone c rejected))
    = history s ++ [RemoveSettled c rejected; Unfreeze c] ∧
  chains (step s (RemoveDone c rejected)) !! c = None.
Proof.
  intros Hch. simpl. unfold remove_settled. rewrite Hch. simpl.
  by rewrite lookup_insert_eq, lookup_delete_eq.
Qed.

Lemma addition_settles c (meta : Pilet) r s :
  chains s !! c = Some (AwaitAdd meta) →
  history (step s (AddDone c r)) = history s ++ [AddSettled c r; Unfreeze c] ∧
  chains (step s (AddDone c r)) !! c = None.
Proof.
  intros Hch. simpl. unfold add_settled. rewrite Hch. simpl.
  by rewrite lookup_delete_eq.
Qed.

(** X23: notifications for one module name other than [__proto__] that
    follow one another within the debounce window of 150 ms lead to one
    reload cycle, which starts once the window has passed and calls
    [removePilet] for the name once. The cycle is that of the last
    notification: its callback closes over the last payload, and when the
    promise of the removal is fulfilled it calls [addPilet] with this
    payload. In every reachable state such a name has at most one pending
    timer, and a notification for it replaces that timer by one for its
    own payload, due 150 ms later. *)
Theorem debounce_one_reload (s : state) :
  reachable s →
  (∀ n, n ≠ "__proto__" → length (pending n s) ≤ 1) ∧
  (∀ n meta i, n ≠ "__proto__" → notifies n meta i →
     ∃ t, pending n (step s i) = [t] ∧ payload t = meta ∧
          due t = clock s + timeout ∧ history (step s i) = history s) ∧
  (∀ n e meta inputs dt rest,
     n ≠ "__proto__" →
     burst n e meta inputs → timeout ≤ e + dt → Forall (calm n) rest →
     reloads n (history (run s inputs)) = reloads n (history s) ∧
     reloads n (history (run s (inputs ++ Tick dt :: rest)))
       = reloads n (history s) ++ [meta] ∧
     teardowns n (history (run s (inputs ++ Tick dt :: rest)))
       = teardowns n (history s) + 1 ∧
     pending n (run s (inputs ++ Tick dt :: rest)) = [] ∧
     ∃ c,
       of_cycle c (history (run s inputs)) = [] ∧
       of_cycle c (history (run s (inputs ++ [Tick dt])))
       = [TimeoutCallback c meta; FreezeRouteRefresh c; RemovePilet c n]
         ++ (if removePilet c n then [] else [CallbackThrew c]) ∧
       (removePilet c n = true → Forall (leaves c) rest →
        let waiting := run s (inputs ++ Tick dt :: rest) in
        chains waiting !! c = Some (AwaitRemove meta) ∧
        history (step waiting (RemoveDone c fulfilled))
          = history waiting ++ [RemoveSettled c fulfilled; AddPilet c meta] ∧
        chains (step waiting (RemoveDone c fulfilled)) !! c
          = Some (AwaitAdd meta))).
Proof.
  intros Hwf%wf_reachable. split; [|split].
  - intros n. by apply pending_at_most_one.
  - intros n meta i Hproto Hi.
    destruct (notify_arms n meta i s Hwf Hproto Hi) as (Hp & Hc & Hh).
    eexists. split; [exact Hp|]. by simpl.
  - intros n e meta inputs dt rest Hproto Hb Hle Hrest.
    destruct (burst_armed n e meta inputs s Hwf Hproto Hb) as [Ha Hr].
    split; [done|].
    assert (wf (run s inputs)) as Hwf' by by apply wf_run.
    destruct (release n meta e dt (run s inputs) Hwf' Ha Hle) as [Hr' Hp'].
    rewrite run_app. simpl.
    destruct (calm_run n rest (tick dt (run s inputs))) as [Hp'' Hr''];
      [by apply wf_tick|done..|].
    change (foldl step (tick dt (run s inputs)) rest)
      with (run (tick dt (run s inputs)) rest).
    assert (reloads n (history (run (tick dt (run s inputs)) rest))
            = reloads n (history s) ++ [meta]) as Hall
      by by rewrite Hr'', Hr', Hr.
    split; [done|]. split; [|split; [done|]].
    { pose proof (teardowns_run n (inputs ++ Tick dt :: rest) s Hwf) as Ht.
      rewrite run_app in Ht. simpl in Ht.
      change (foldl step (tick dt (run s inputs)) rest)
        with (run (tick dt (run s inputs)) rest) in Ht.
      rewrite Hall, length_app in Ht. simpl in Ht. lia. }
    destruct Ha as (t & Hpt & Hm & Hdue).
    assert (t ∈ pending n (run s inputs)) as Ht
      by (rewrite Hpt; apply elem_of_cons; by left).
    apply list_elem_of_filter in Ht as [Hn Ht].
    destruct (tick_starts dt (run s inputs) t Hwf' Ht) as (Hnone & Hfired & Hch).
    { unfold timeout in *. lia. }
    rewrite Hm in Hfired, Hch. rewrite Hm in Hn. rewrite Hn in Hch.
    exists (handle t). split; [done|]. split.
    { rewrite run_snoc. unfold Emulator.fired, Emulator.started in Hfired.
      by rewrite Hn in Hfired. }
    intros Hpromise Hleaves. rewrite Hpromise in Hch.
    assert (chains (run (tick dt (run s inputs)) rest) !! handle t
            = Some (AwaitRemove meta)) as Hwaiting.
    { apply chain_kept_run; [by apply wf_tick|done..]. }
    split; [done|].
    destruct (removal_settles (handle t) meta _ Hwaiting) as (Hh & Hc & _).
    by split.
Qed.

(** *** The order of the actions of a cycle *)

Lemma add_after_remove c (meta : Pilet) ph l1 l2 :
  shape c ph (l1 ++ AddPilet c meta :: l2) →
  l1 = started c meta ++ [RemoveSettled c fulfilled].
Proof.
  intros Hs. remember (l1 ++ AddPilet c meta :: l2) as l eqn:Hl.
  destruct Hs as [|m|m|m|m|m r]; unfold Emulator.started in *; simpl in *;
    repeat (destruct l1 as [|? l1]; simpl in Hl;
            [try discriminate Hl
            |first [discriminate Hl|injection Hl as ? Hl; subst]]).
  - by injection Hl as ->.
  - by injection Hl as -> _.
Qed.

(** C4: in every reload cycle the removal has completed before the
    replacement is added: whenever [addPilet] is called for a descriptor,
    the same cycle has called [removePilet] with the name of that
    descriptor before, and the promise of that call has been fulfilled
    before; the descriptor is the one the timer of the cycle closed
    over. *)
Theorem teardown_before_setup (s : state) c meta pre post :
  reachable s →
  history s = pre ++ AddPilet c meta :: post →
  ∃ h0 h1 h2 h3,
    pre = h0 ++ TimeoutCallback c meta :: h1
             ++ RemovePilet c (name meta) :: h2
             ++ RemoveSettled c fulfilled :: h3.
Proof.
  intros Hwf%wf_reachable Hh.
  pose proof (wf_shape _ _ Hwf c) as Hs.
  rewrite Hh, of_cycle_app in Hs. unfold of_cycle at 2 in Hs.
  rewrite filter_cons_True in Hs by done.
  apply add_after_remove in Hs. unfold Emulator.started in Hs. simpl in Hs.
  apply filter_cons_split in Hs as (k0 & k1 & -> & _ & Hs).
  apply filter_cons_split in Hs as (k2 & k3 & -> & _ & Hs).
  apply filter_cons_split in Hs as (k4 & k5 & -> & _ & Hs).
  apply filter_cons_split in Hs as (k6 & k7 & -> & _ & Hs).
  exists k0, (k2 ++ FreezeRouteRefresh c :: k4), k6, k7.
  by rewrite <- !app_assoc.
Qed.

(** *** The freeze *)

Lemma shape_freeze c ph l :
  shape c ph l →
  l = [] ∨
  ∃ meta rest,
    l = TimeoutCallback c meta :: FreezeRouteRefresh c
          :: RemovePilet c (name meta) :: rest ∧
    freezes l = 1 ∧
    match ph with
    | Some _ => unfreezes l = 0 ∧ throws l = 0
    | None =>
        (unfreezes l = 1 ∧ throws l = 0 ∧ last l = Some (Unfreeze c)) ∨
        (unfreezes l = 0 ∧ rest = [CallbackThrew c])
    end.
Proof.
  destruct 1 as [|meta|meta|meta|meta|meta r]; [by left|right..];
    exists meta; eexists; (split; [reflexivity|]); (split; [by compute|]).
  - by compute.
  - by compute.
  - right. by compute.
  - left. by compute.
  - left. by compute.
Qed.

Lemma callback_started c (meta : Pilet) (h : list (@action Pilet)) :
  TimeoutCallback c meta ∈ h → TimeoutCallback c meta ∈ of_cycle c h.
Proof. intros Hin. by apply list_elem_of_filter. Qed.

Lemma shape_callback c ph l (meta : Pilet) :
  shape c ph l → TimeoutCallback c meta ∈ l →
  ∃ rest, l = started c meta ++ rest.
Proof.
  destruct 1 as [|m|m|m|m|m r]; unfold Emulator.started; simpl; intros Hin;
    [by apply elem_of_nil in Hin|..];
    (apply elem_of_cons in Hin as [[= ->]|Hin]; [by eexists|]);
    repeat (apply elem_of_cons in Hin as [Hin|Hin]; [discriminate Hin|]);
    by apply elem_of_nil in Hin.
Qed.

(** X24: every reload cycle acquires the freeze of the route refresh once,
    as the first thing its callback does before it calls [removePilet].
    A cycle whose [removePilet] returned a promise holds the freeze while
    its chain is in flight and releases it once, as its last action, when
    the chain completes: when the removal is rejected, and when, after a
    fulfilled removal and the call of [addPilet], the addition is
    fulfilled or rejected. A cycle whose [removePilet] threw never
    releases it. So the freezes acquired are those released, plus one for
    each cycle in flight, plus one for each callback that threw. *)
Theorem freeze_released_once (s : state) :
  reachable s →
  freezes (history s)
    = unfreezes (history s) + size (chains s) + throws (history s) ∧
  (∀ t, history (fire t s)
        = history s ++
          [TimeoutCallback (handle t) (payload t);
           FreezeRouteRefresh (handle t);
           RemovePilet (handle t) (name (payload t))] ++
          (if removePilet (handle t) (name (payload t)) then []
           else [CallbackThrew (handle t)])) ∧
  (∀ c meta, TimeoutCallback c meta ∈ history s →
     ∃ rest,
       of_cycle c (history s)
       = TimeoutCallback c meta :: FreezeRouteRefresh c
           :: RemovePilet c (name meta) :: rest ∧
       freezes (of_cycle c (history s)) = 1 ∧
       match chains s !! c with
       | Some _ => unfreezes (of_cycle c (history s)) = 0
       | None =>
           (unfreezes (of_cycle c (history s)) = 1 ∧
            last (of_cycle c (history s)) = Some (Unfreeze c)) ∨
           (unfreezes (of_cycle c (history s)) = 0 ∧
            rest = [CallbackThrew c])
       end) ∧
  (∀ c meta, chains s !! c = Some (AwaitRemove meta) →
     history (step s (RemoveDone c fulfilled))
       = history s ++ [RemoveSettled c fulfilled; AddPilet c meta] ∧
     chains (step s (RemoveDone c fulfilled)) !! c = Some (AwaitAdd meta) ∧
     history (step s (RemoveDone c rejected))
       = history s ++ [RemoveSettled c rejected; Unfreeze c] ∧
     chains (step s (RemoveDone c rejected)) !! c = None) ∧
  (∀ c meta r, chains s !! c = Some (AwaitAdd meta) →
     history (step s (AddDone c r))
       = history s ++ [AddSettled c r; Unfreeze c] ∧
     chains (step s (AddDone c r)) !! c = None).
Proof.
  intros Hwf%wf_reachable. split; [apply Hwf|]. split; [|split; [|split]].
  - intros t. by rewrite fire_history.
  - intros c meta Hc%callback_started.
    pose proof (wf_shape _ _ Hwf c) as Hs.
    destruct (shape_callback c _ _ meta Hs Hc) as [rest0 Hl].
    destruct (shape_freeze c _ _ Hs) as [Hnil|(meta' & rest & Heq & Hf & Hph)].
    { rewrite Hnil in Hc. by apply elem_of_nil in Hc. }
    assert (meta' = meta) as ->.
    { rewrite Heq in Hl. unfold Emulator.started in Hl. simpl in Hl.
      by injection Hl. }
    exists rest. split; [done|]. split; [done|].
    destruct (chains s !! c); [tauto|].
    destruct Hph as [(? & ? & ?)|?]; [by left|by right].
  - intros c meta. apply removal_settles.
  - intros c meta r. apply addition_settles.
Qed.

(** Nothing is taken out of the history. *)
Lemma history_grows s i : ∃ l, history (step s i) = history s ++ l.
Proof.
  destruct i as [dt|st data|c r|c r]; simpl.
  - rewrite tick_history. by eexists.
  - unfold Emulator.onmessage. destruct (negb _); simpl.
    + destruct (JSON_parse data) as [meta|]; simpl.
      * exists []. rewrite app_nil_r. by destruct (cached (name meta) s).
      * exists []. by rewrite app_nil_r.
    + by eexists.
  - destruct (remove_settled_frame c r s) as (_ & _ & _ & l & -> & _). by eexists.
  - destruct (add_settled_frame c r s) as (_ & _ & _ & l & -> & _). by eexists.
Qed.

Lemma history_grows_run s inputs : ∃ l, history (run s inputs) = history s ++ l.
Proof.
  revert s. induction inputs as [|i inputs IH]; intros s; simpl.
  - exists []. by rewrite app_nil_r.
  - destruct (history_grows s i) as [l1 H1].
    destruct (IH (step s i)) as [l2 H2].
    exists (l1 ++ l2).
    change (foldl step (step s i) inputs) with (run (step s i) inputs).
    by rewrite H2, H1, <- app_assoc.
Qed.

(** A callback that has thrown keeps the freeze for good: whatever
    follows, more freezes are acquired than released. *)
Lemma thrown_never_released s inputs :
  wf s → 0 < throws (history s) →
  unfreezes (history (run s inputs)) < freezes (history (run s inputs)).
Proof.
  intros Hwf Hthrown.
  destruct (history_grows_run s inputs) as [l Hl].
  pose proof (wf_frozen _ _ (wf_run inputs s Hwf)) as Hf.
  rewrite Hf. rewrite Hl, throws_app. lia.
Qed.

(** *** Hard refresh *)

(** C6: with the hard-refresh flag of the session set to "on" a
    notification reloads the page and does nothing else: the message is
    not parsed, no timer is cleared or set, the debounce table is not
    written and no cycle is started or moved. *)
Theorem hard_refresh_bypasses (s : state)
    (sessionStorage : gmap string string) (data : string) :
  sessionStorage !! "dbg:hard-refresh" = Some "on" →
  step s (Message sessionStorage data) =
  {| clock := clock s; timeoutCache := timeoutCache s; timers := timers s;
     nextHandle := nextHandle s; chains := chains s;
     history := history s ++ [LocationReload] |}.
Proof.
  intros Hon. simpl. apply onmessage_hard.
  unfold session_on. by apply bool_decide_eq_true.
Qed.

End Facts.

(** *** The initial module set *)

Section InitialSet.

Context {Pilet : Type}.
Variable name : Pilet → string.

Lemma then_then {A B C} (p : promise A) (f : A → B) (g : B → C) :
  then_ (then_ p f) g = then_ p (λ a, g (f a)).
Proof. by destruct p. Qed.

Lemma merge_nil (debugPilets : list Pilet) : merge name [] debugPilets = debugPilets.
Proof. done. Qed.

Lemma requester_off (st : gmap string string) (requestPilets : promise (list Pilet)) :
  st !! "dbg:load-pilets" ≠ Some "on" → requester st requestPilets = Fulfilled [].
Proof.
  intros Hoff. unfold requester, session_on.
  by rewrite bool_decide_eq_false_2.
Qed.

Lemma requester_on (st : gmap string string) (requestPilets : promise (list Pilet)) :
  st !! "dbg:load-pilets" = Some "on" → requester st requestPilets = requestPilets.
Proof.
  intros Hoff. unfold requester, session_on.
  by rewrite bool_decide_eq_true_2.
Qed.

Lemma default_target origin :
  initialTarget origin (piletApi None {| piletApiFallback := None |})
  = origin +:+ "/$pilet-api".
Proof. done. Qed.


Lemma merge_names_of_debug n (feed debug : list Pilet) :
  n ∈ name <$> debug →
  filter (λ m, name m = n) (merge name feed debug)
  = filter (λ m, name m = n) debug.
Proof.
  intros Hn. unfold merge. rewrite filter_app.
  rewrite filter_in_none; [done|].
  intros m [Hnot _]%list_elem_of_filter Heq. apply Hnot. by rewrite Heq.
Qed.



End InitialSet.

(** *** The theorems on the bridge of [Demo] *)

Lemma demo_notifies (n v : string) :
  Demo.parse (n +:+ ":" +:+ v) = Some (n, v) →
  notifies fst Demo.parse n (n, v) (Demo.notification (n +:+ ":" +:+ v)).
Proof. intros Hp. by exists ∅, (n +:+ ":" +:+ v). Defined.

Lemma demo_burst : burst fst Demo.parse "a" 0 ("a", "5") Demo.rapid_fire.
Proof.
  pose proof (burst_first fst Demo.parse "a" _ _
                (demo_notifies "a" "1" eq_refl)) as B1.
  pose proof (burst_wait fst Demo.parse "a" _ _ _ 10 B1
                ltac:(unfold timeout; lia)) as W1.
  pose proof (burst_next fst Demo.parse "a" _ _ _ _ _ W1
                (demo_notifies "a" "2" eq_refl)) as B2.
  pose proof (burst_wait fst Demo.parse "a" _ _ _ 10 B2
                ltac:(unfold timeout; lia)) as W2.
  pose proof (burst_next fst Demo.parse "a" _ _ _ _ _ W2
                (demo_notifies "a" "3" eq_refl)) as B3.
  pose proof (burst_wait fst Demo.parse "a" _ _ _ 10 B3
                ltac:(unfold timeout; lia)) as W3.
  pose proof (burst_next fst Demo.parse "a" _ _ _ _ _ W3
                (demo_notifies "a" "4" eq_refl)) as B4.
  pose proof (burst_wait fst Demo.parse "a" _ _ _ 10 B4
                ltac:(unfold timeout; lia)) as W4.
  exact (burst_next fst Demo.parse "a" _ _ _ _ _ W4
           (demo_notifies "a" "5" eq_refl)).
Defined.

Lemma debounce_one_reload_witness :
  reloads fst "a"
    (history (run fst Demo.parse Demo.promised init
                (Demo.rapid_fire ++ [Tick 150])))
  = [("a", "5")] ∧
  pending fst "a"
    (run fst Demo.parse Demo.promised init (Demo.rapid_fire ++ [Tick 150]))
  = [].
Proof.
  destruct (debounce_one_reload fst Demo.parse Demo.promised init)
    as (_ & _ & H).
  { by exists []. }
  destruct (H "a" 0 ("a", "5") Demo.rapid_fire 150 [] ltac:(done) demo_burst)
    as (_ & Hr & _ & Hp & _).
  - unfold timeout. lia.
  - constructor.
  - split; [exact Hr|exact Hp].
Defined.

(** The same run, computed, and the call of [addPilet] once the removal
    is fulfilled. *)
Example rapid_fire_history :
  history (run fst Demo.parse Demo.promised init
             (Demo.rapid_fire ++ [Tick 150; RemoveDone 5 fulfilled]))
  = [TimeoutCallback 5 ("a", "5"); FreezeRouteRefresh 5; RemovePilet 5 "a";
     RemoveSettled 5 fulfilled; AddPilet 5 ("a", "5")].
Proof. by vm_compute. Qed.

(** C3, where the code parts from it: a module of the name [__proto__] is
    not debounced. The table of the timers is an object made by [{}],
    which keeps no handle under this name, so no timer of the name is
    ever cleared: two notifications 10 ms apart start two reload cycles,
    one for each of them, and [removePilet] is called twice. *)
Theorem proto_not_debounced :
  reloads fst "__proto__"
    (history (run fst Demo.parse Demo.promised init Demo.proto_twice))
  = [("__proto__", "1"); ("__proto__", "2")] ∧
  teardowns "__proto__"
    (history (run fst Demo.parse Demo.promised init Demo.proto_twice))
  = 2 ∧
  history (run fst Demo.parse Demo.promised init Demo.proto_twice)
  = [TimeoutCallback 1 ("__proto__", "1"); FreezeRouteRefresh 1;
     RemovePilet 1 "__proto__";
     TimeoutCallback 2 ("__proto__", "2"); FreezeRouteRefresh 2;
     RemovePilet 2 "__proto__"].
Proof. by vm_compute. Qed.

Lemma teardown_before_setup_witness :
  ∃ h0 h1 h2 h3,
    [TimeoutCallback 1 ("a", "1"); FreezeRouteRefresh 1; RemovePilet 1 "a";
     RemoveSettled 1 fulfilled]
    = h0 ++ TimeoutCallback 1 ("a", "1") :: h1
         ++ RemovePilet 1 (fst ("a", "1")) :: h2
         ++ RemoveSettled 1 fulfilled :: h3.
Proof.
  apply (teardown_before_setup fst Demo.parse Demo.promised
           (run fst Demo.parse Demo.promised init Demo.reload_until_add)
           1 ("a", "1") _ []).
  - by exists Demo.reload_until_add.
  - by vm_compute.
Defined.

Lemma freeze_released_once_witness :
  freezes (history (run fst Demo.parse Demo.promised init Demo.reload_completed))
  = unfreezes
      (history (run fst Demo.parse Demo.promised init Demo.reload_completed))
    + size (chains (run fst Demo.parse Demo.promised init Demo.reload_completed))
    + throws
        (history (run fst Demo.parse Demo.promised init Demo.reload_completed)).
Proof.
  apply (freeze_released_once fst Demo.parse Demo.promised
           (run fst Demo.parse Demo.promised init Demo.reload_completed)).
  by exists Demo.reload_completed.
Defined.

(** The completed cycle and the failed one, computed: the freeze is released
    once. *)
Example reload_completed_history :
  history (run fst Demo.parse Demo.promised init Demo.reload_completed)
  = [TimeoutCallback 1 ("a", "1"); FreezeRouteRefresh 1; RemovePilet 1 "a";
     RemoveSettled 1 fulfilled; AddPilet 1 ("a", "1");
     AddSettled 1 fulfilled; Unfreeze 1].
Proof. by vm_compute. Qed.

Example reload_failed_history :
  history (run fst Demo.parse Demo.promised init Demo.reload_failed)
  = [TimeoutCallback 1 ("a", "1"); FreezeRouteRefresh 1; RemovePilet 1 "a";
     RemoveSettled 1 rejected; Unfreeze 1].
Proof. by vm_compute. Qed.

(** C5, where the code parts from it: when [removePilet] throws, the
    callback of the timer ends after it has acquired the freeze, and
    nothing is left that could release it. No cycle is in flight and no
    timer is pending, and whatever follows, the freeze stays acquired
    more often than released. *)
Theorem freeze_held_after_throw (rest : list input) :
  let thrown := run fst Demo.parse Demo.throwing init Demo.reload_started in
  history thrown
  = [TimeoutCallback 1 ("a", "1"); FreezeRouteRefresh 1; RemovePilet 1 "a";
     CallbackThrew 1] ∧
  chains thrown = ∅ ∧
  timers thrown = [] ∧
  unfreezes (history (run fst Demo.parse Demo.throwing thrown rest))
  < freezes (history (run fst Demo.parse Demo.throwing thrown rest)).
Proof.
  cbv zeta. split; [by vm_compute|]. split; [by vm_compute|].
  split; [by vm_compute|].
  apply thrown_never_released.
  - apply wf_run, wf_init.
  - vm_compute. lia.
Qed.

Lemma hard_refresh_bypasses_witness :
  step fst Demo.parse Demo.promised
    (run fst Demo.parse Demo.promised init [Demo.notification "a:1"])
    (Message {[ "dbg:hard-refresh" := "on" ]} "a:2")
  = {| clock := 0; timeoutCache := {[ "a" := 1 ]};
       timers := [{| handle := 1; due := 150; payload := ("a", "1") |}];
       nextHandle := 2; chains := ∅; history := [LocationReload] |}.
Proof.
  rewrite (hard_refresh_bypasses fst Demo.parse Demo.promised)
    by apply lookup_singleton_eq.
  by vm_compute.
Defined.



End EmulatorSpec.

(** ** The generated dependency filler *)

Module CodegenSpec.
Import Codegen ListFacts.

Section Facts.

Variable package_version : string → option string.

Local Abbreviation getIdentifiers := (Codegen.getIdentifiers package_version).
Local Abbreviation add_external := (Codegen.add_external package_version).
Local Abbreviation createDependencies := (Codegen.createDependencies package_version).
Local Abbreviation new_assignments := (Codegen.new_assignments package_version).

Lemma getIdentifiers_name n : n ∈ getIdentifiers n.
Proof.
  unfold Codegen.getIdentifiers.
  destruct (package_version n) as [v|]; [destruct (String.eqb v "")|];
    apply elem_of_cons; by left.
Qed.

Lemma getIdentifiers_versioned n v :
  package_version n = Some v → v ≠ "" →
  getIdentifiers n = [n; n +:+ "@" +:+ v].
Proof.
  intros Hv Hne. unfold Codegen.getIdentifiers. rewrite Hv.
  destruct (String.eqb v "") eqn:E; [|done].
  by apply String.eqb_eq in E.
Qed.

Lemma loop_result names imports assignments :
  foldl add_external (imports, assignments) names
  = (imports ++ new_imports (length imports) names,
     assignments ++ new_assignments (length imports) names).
Proof.
  revert imports assignments.
  induction names as [|n names IH]; intros imports assignments; simpl.
  - unfold new_imports, Codegen.new_assignments. simpl. by rewrite !app_nil_r.
  - unfold Codegen.add_external at 2. simpl. rewrite IH.
    rewrite length_app. simpl. rewrite Nat.add_1_r.
    unfold new_imports, Codegen.new_assignments. simpl.
    by rewrite <- !app_assoc.
Qed.

Lemma numbered_lookup offset names k n :
  (k, n) ∈ numbered offset names ↔
  ∃ i, k = offset + i ∧ names !! i = Some n.
Proof.
  revert offset. induction names as [|m names IH]; intros offset; simpl.
  - split; [by intros ?%elem_of_nil|by intros (i & _ & ?)].
  - rewrite elem_of_cons, IH. split.
    + intros [[= -> ->]|(i & -> & Hi)].
      * exists 0. split; [lia|done].
      * exists (S i). split; [lia|done].
    + intros ([|i] & -> & Hi); simpl in Hi.
      * left. injection Hi as ->. f_equal. lia.
      * right. exists i. split; [lia|done].
Qed.

Lemma numbered_names offset names n :
  n ∈ names ↔ ∃ k, (k, n) ∈ numbered offset names.
Proof.
  split.
  - intros (i & Hi)%list_elem_of_lookup. exists (offset + i).
    apply numbered_lookup. by exists i.
  - intros (k & (i & _ & Hi)%numbered_lookup).
    apply list_elem_of_lookup. by exists i.
Qed.

Lemma new_imports_lookup offset names k :
  new_imports offset names !! k
  = ImportNamespace (offset + k) <$> names !! k.
Proof.
  unfold new_imports. revert offset k.
  induction names as [|n names IH]; intros offset k; [done|].
  destruct k as [|k]; simpl.
  - by rewrite Nat.add_0_r.
  - rewrite IH. by replace (S offset + k) with (offset + S k) by lia.
Qed.

(** One import for each occurrence of a name. *)
Lemma imports_of_count n offset names :
  length (imports_of n (new_imports offset names))
  = length (filter (λ x, x = n) names).
Proof.
  unfold imports_of, new_imports. revert offset.
  induction names as [|m names IH]; intros offset; [done|].
  simpl. rewrite !filter_cons. simpl.
  destruct (decide (m = n)) as [->|Hne].
  - rewrite decide_True by done. simpl. by rewrite IH.
  - rewrite decide_False by congruence. apply IH.
Qed.

Lemma count_NoDup (n : string) names :
  NoDup names → n ∈ names → length (filter (λ x, x = n) names) = 1.
Proof.
  induction 1 as [|m names Hnot Hnd IH]; [by intros ?%elem_of_nil|].
  rewrite filter_cons. intros [->|Hin]%elem_of_cons.
  - rewrite decide_True by done. simpl. f_equal.
    rewrite filter_in_none; [done|]. intros x Hx ->. done.
  - rewrite decide_False; [by apply IH|]. intros ->. done.
Qed.

(** *** The bindings of the references *)

Lemma binding_app ref l1 l2 :
  binding ref (l1 ++ l2)
  = match binding ref l1 with Some src => Some src | None => binding ref l2 end.
Proof.
  unfold binding. rewrite omap_app.
  by destruct (omap _ l1).
Qed.

Lemma binding_none ref imports :
  (∀ r source, ImportNamespace r source ∈ imports → r ≠ ref) →
  binding ref imports = None.
Proof.
  induction imports as [|i imports IH]; intros Hne; [done|].
  change (i :: imports) with ([i] ++ imports). rewrite binding_app.
  rewrite IH by (intros r src Hin; apply (Hne r src), elem_of_cons; by right).
  destruct i as [r src|]; [|done]. unfold binding. simpl.
  rewrite decide_False; [done|]. apply (Hne r src), elem_of_cons. by left.
Qed.

Lemma binding_new offset names i :
  binding (offset + i) (new_imports offset names) = names !! i.
Proof.
  revert offset i. induction names as [|n names IH]; intros offset i; [done|].
  unfold new_imports. simpl.
  change (ImportNamespace offset n :: ?l) with ([ImportNamespace offset n] ++ l).
  rewrite binding_app. unfold binding at 1. simpl.
  destruct i as [|i].
  - by rewrite decide_True by lia.
  - rewrite decide_False by lia. simpl.
    replace (offset + S i) with (S offset + i) by lia. apply IH.
Qed.

Lemma binding_created imports names i :
  fresh_refs imports →
  binding (length imports + i) (imports ++ new_imports (length imports) names)
  = names !! i.
Proof.
  intros Hfresh. rewrite binding_app, binding_none; [apply binding_new|].
  intros r src Hin%Hfresh. lia.
Qed.

(** *** What the filler leaves in [deps] *)

Lemma fill_lookup imports assignments deps deps' id :
  fillDependencies imports assignments deps = Some deps' →
  deps' !! id = match last_write id assignments with
                | Some a => written imports a
                | None => deps !! id
                end.
Proof.
  revert deps. induction assignments as [|a rest IH]; intros deps; simpl.
  { by intros [= ->]. }
  destruct (assign imports a deps) as [deps1|] eqn:Ha; [|done].
  intros Hfill. rewrite (IH _ Hfill). unfold last_write.
  rewrite filter_cons.
  destruct (decide (key_of a = id)) as [Hk|Hk]; [rewrite last_cons|];
    destruct (last (filter _ rest)); try done.
  - destruct a as [key|key ref]; simpl in *.
    + destruct (decide (verbatim key)); [|done].
      injection Ha as <-. subst. by rewrite lookup_insert_eq.
    + destruct (binding ref imports); [|done].
      injection Ha as <-. subst. by rewrite lookup_insert_eq.
  - destruct a as [key|key ref]; simpl in *.
    + destruct (decide (verbatim key)); [|done].
      injection Ha as <-. by rewrite lookup_insert_ne.
    + destruct (binding ref imports); [|done].
      injection Ha as <-. by rewrite lookup_insert_ne.
Qed.

Lemma fill_total imports assignments deps :
  (∀ key, AssignObject key ∈ assignments → verbatim key) →
  (∀ key ref, AssignRef key ref ∈ assignments →
     is_Some (binding ref imports)) →
  is_Some (fillDependencies imports assignments deps).
Proof.
  revert deps. induction assignments as [|a rest IH]; intros deps Hv Hb; simpl.
  { by eexists. }
  assert (is_Some (assign imports a deps)) as [deps1 ->].
  { destruct a as [key|key ref]; simpl.
    - rewrite decide_True; [by eexists|]. apply Hv, elem_of_cons. by left.
    - destruct (Hb key ref) as [src ->]; [apply elem_of_cons; by left|by eexists]. }
  apply IH.
  - intros key Hin. apply Hv, elem_of_cons. by right.
  - intros key ref Hin. apply (Hb key ref), elem_of_cons. by right.
Qed.

Lemma new_assignments_elem offset names a :
  a ∈ new_assignments offset names ↔
  ∃ ref n id, a = AssignRef id ref ∧ (ref, n) ∈ numbered offset names ∧
              id ∈ getIdentifiers n.
Proof.
  unfold Codegen.new_assignments. rewrite list_elem_of_bind. split.
  - intros ([ref n] & (id & -> & Hid)%list_elem_of_fmap & Hin). simpl in *.
    by exists ref, n, id.
  - intros (ref & n & id & -> & Hin & Hid). exists (ref, n). split; [|done].
    simpl. by apply (list_elem_of_fmap_2 (λ id, AssignRef id ref)).
Qed.

Lemma createDependencies_eq env imports exports :
  ∃ first,
    createDependencies env imports exports
    = (imports ++ new_imports (length imports) (externals env),
       exports ++ [FillDependencies
                     (first ++ new_assignments (length imports) (externals env))])
    ∧ ∀ a, a ∈ first →
          ∃ key, a = AssignObject key ∧ BUILD_PCKG_NAME env = Some key.
Proof.
  unfold Codegen.createDependencies. rewrite loop_result.
  eexists. split; [reflexivity|].
  intros a. destruct (BUILD_PCKG_NAME env) as [key|]; simpl;
    [|by intros ?%elem_of_nil].
  destruct (String.eqb _ _); [by intros ?%elem_of_nil|].
  intros ->%list_elem_of_singleton. by exists key.
Qed.


End Facts.



(** The filler of that list, run: both assignments go to the one key. *)
Example listed_twice_filled :
  ∃ assignments,
    (createDependencies no_version listed_twice [] []).2
      = [FillDependencies assignments] ∧
    assignments = [AssignRef "react" 0; AssignRef "react" 1] ∧
    fillDependencies (createDependencies no_version listed_twice [] []).1
      assignments ∅ = Some {[ "react" := ModuleNamespace "react" ]}.
Proof.
  eexists. split; [by vm_compute|]. split; [done|]. by vm_compute.
Qed.

End CodegenSpec.

(** ** Strings *)

Module StrFacts.
Import Str.

Lemma str_chars s : str (chars s) = s.
Proof. apply String.string_of_list_ascii_of_string. Qed.

Lemma chars_str l : chars (str l) = l.
Proof. apply String.list_ascii_of_string_of_list_ascii. Qed.

Lemma chars_app s1 s2 : chars (s1 +:+ s2) = chars s1 ++ chars s2.
Proof. induction s1 as [|c s1 IH]; simpl; [done|]. unfold chars in *. simpl. by rewrite IH. Qed.

Lemma str_app l1 l2 : str (l1 ++ l2) = str l1 +:+ str l2.
Proof. by rewrite <- (str_chars (str l1 +:+ str l2)), chars_app, !chars_str. Qed.

Lemma chars_inj s1 s2 : chars s1 = chars s2 → s1 = s2.
Proof. intros H. by rewrite <- (str_chars s1), H, str_chars. Qed.

Lemma chars_nil s : chars s = [] ↔ s = "".
Proof. destruct s; split; done. Qed.

(** [indexOf] finds the first occurrence at or after [from]. *)
Lemma indexOf_found c from s i :
  list_find (λ x, x = c) (drop from (chars s)) = Some (i, c) →
  indexOf c from s = Z.of_nat (from + i).
Proof. unfold indexOf. by intros ->. Qed.

Lemma indexOf_cases c from s :
  (indexOf c from s = (-1)%Z ∧ c ∉ drop from (chars s)) ∨
  ∃ i, indexOf c from s = Z.of_nat (from + i) ∧
       chars s !! (from + i) = Some c ∧
       c ∉ take i (drop from (chars s)).
Proof.
  unfold indexOf.
  destruct (list_find _ _) as [[i x]|] eqn:Hf.
  - right. exists i. apply list_find_Some in Hf as (Hi & -> & Hmin).
    rewrite lookup_drop in Hi. split; [done|]. split; [done|].
    intros (j & Hj)%list_elem_of_lookup.
    apply lookup_take_Some in Hj as [Hj Hlt]. by apply (Hmin j c).
  - left. split; [done|]. apply list_find_None in Hf.
    intros Hin. rewrite Forall_forall in Hf. by apply (Hf c).
Qed.

Lemma list_find_first {A} (P : A → Prop) `{!∀ x, Decision (P x)} l1 x l2 :
  Forall (λ y, ¬ P y) l1 → P x →
  list_find P (l1 ++ x :: l2) = Some (length l1, x).
Proof.
  intros Hl1 Hx. apply list_find_Some. split; [|split; [done|]].
  - by rewrite list_lookup_middle.
  - intros j y Hj Hlt. rewrite lookup_app_l in Hj by done.
    rewrite Forall_forall in Hl1. apply Hl1. by eapply list_elem_of_lookup_2.
Qed.

Lemma drop_while_eq_head c l : head (drop_while_eq c l) ≠ Some c.
Proof.
  induction l as [|x l IH]; simpl; [done|].
  case_decide; [done|]. simpl. congruence.
Qed.

Lemma drop_while_eq_elem c l x : x ∈ drop_while_eq c l → x ∈ l.
Proof.
  induction l as [|y l IH]; simpl; [done|].
  case_decide; [|done]. intros Hx. apply elem_of_cons. right. by apply IH.
Qed.

Lemma shrink_first_run_elem c l x : x ∈ shrink_first_run c l → x ∈ l.
Proof.
  induction l as [|y l IH]; simpl; [done|].
  case_decide as Hy.
  - subst y. intros [->|Hx%drop_while_eq_elem]%elem_of_cons;
      apply elem_of_cons; auto.
  - intros [->|Hx]%elem_of_cons; apply elem_of_cons; auto.
Qed.

(** After the replacement the first [c], if there is one, is not followed
    by another. *)
Lemma shrink_first_run_shape c l :
  c ∉ shrink_first_run c l ∨
  ∃ pre rest, shrink_first_run c l = pre ++ c :: rest ∧
              (c ∉ pre) ∧ head rest ≠ Some c.
Proof.
  induction l as [|y l IH]; simpl.
  - left. apply not_elem_of_nil.
  - case_decide as Hy.
    + right. exists [], (drop_while_eq c l). split; [done|].
      split; [apply not_elem_of_nil|apply drop_while_eq_head].
    + destruct IH as [Hno|(pre & rest & -> & Hpre & Hrest)].
      * left. rewrite not_elem_of_cons. by split; [congruence|].
      * right. exists (y :: pre), rest. split; [done|].
        split; [|done]. rewrite not_elem_of_cons. by split; [congruence|].
Qed.

(** A string in which no [c] follows a [c] is left as it is. *)
Lemma shrink_first_run_id c l :
  (∀ i, l !! i = Some c → l !! S i ≠ Some c) → shrink_first_run c l = l.
Proof.
  induction l as [|y l IH]; intros Hadj; simpl; [done|].
  case_decide as Hy.
  - subst y. f_equal. destruct l as [|z l]; [done|]. simpl.
    rewrite decide_False; [done|]. intros ->. by apply (Hadj 0).
  - f_equal. apply IH. intros i Hi. apply (Hadj (S i) Hi).
Qed.

End StrFacts.

(** ** The keys of the importmap *)

Module ImportmapSpec.
Import Str Importmap StrFacts.

(** X1: [getDependencyDetails] splits a key of the importmap at the first
    [@] after its first character. The identifier has no [@] after its
    first character; either the key has no such [@], and then the key is
    the identifier and the version specification is empty, or the key reads
    identifier, [@], version specification, with an identifier that is not
    empty. Conversely a key written as id@version, where id is not empty
    and has no [@] after its first character (as [@scope/pkg@^1.0]), gives
    back this id and this version. *)
Theorem getDependencyDetails_splits (depName : string) :
  let '(_, id, version) := getDependencyDetails depName in
  ("@"%char ∉ drop 1 (chars id)) ∧
  ((depName = id ∧ version = "" ∧ "@"%char ∉ drop 1 (chars depName))
   ∨ (id ≠ "" ∧ depName = id +:+ "@" +:+ version)) ∧
  ∀ id0 version0,
    id0 ≠ "" → "@"%char ∉ drop 1 (chars id0) →
    depName = id0 +:+ "@" +:+ version0 →
    id = id0 ∧ version = version0.
Proof.
  unfold getDependencyDetails.
  destruct (indexOf_cases "@" 1 depName) as [[-> Hno]|(i & -> & Hi & Hno)].
  - simpl. split; [done|]. split; [by left|].
    intros id0 v0 Hne Hno0 ->. exfalso. apply Hno.
    rewrite !chars_app. destruct (chars id0) as [|c l] eqn:Hc.
    { by apply chars_nil in Hc. }
    simpl. rewrite drop_0. apply elem_of_app. right. apply elem_of_cons. by left.
  - assert ((0 <? Z.of_nat (1 + i))%Z = true) as ->.
    { apply Z.ltb_lt. lia. }
    rewrite Nat2Z.id. unfold substring, substring_from.
    rewrite drop_0, Nat.sub_0_r.
    assert ("@"%char ∉ drop 1 (take (1 + i) (chars depName))) as Hid.
    { by rewrite <- take_drop_commute. }
    split; [by rewrite chars_str|]. split.
    + right. split.
      * intros Hnil%chars_nil. rewrite chars_str in Hnil.
        apply lookup_lt_Some in Hi.
        assert (length (take (1 + i) (chars depName)) = 1 + i) as Hlen
          by (rewrite length_take; lia).
        by rewrite Hnil in Hlen.
      * rewrite <- (str_chars depName) at 1.
        rewrite <- (take_drop_middle (chars depName) (1 + i) "@"%char Hi) at 1.
        rewrite str_app. f_equal.
        change ("@"%char :: ?l) with (["@"%char] ++ l). rewrite str_app.
        f_equal. f_equal. f_equal. lia.
    + intros id0 v0 Hne Hno0 Hdep.
      assert (chars depName = chars id0 ++ "@"%char :: chars v0) as Hch.
      { rewrite Hdep, !chars_app. done. }
      destruct (chars id0) as [|c l] eqn:Hc.
      { by apply chars_nil in Hc. }
      simpl in Hno0. rewrite drop_0 in Hno0.
      assert (i = length l) as ->.
      { assert (list_find (λ x, x = "@"%char) (drop 1 (chars depName))
                = Some (length l, "@"%char)) as Hf.
        { rewrite Hch. simpl. rewrite drop_0. apply list_find_first; [|done].
          apply Forall_forall. intros y Hy ->. done. }
        apply list_find_Some in Hf as (Hl & _ & Hmin).
        rewrite lookup_drop in Hl.
        destruct (decide (i < length l)) as [Hlt|Hge].
        - exfalso. rewrite Hch in Hi. simpl in Hi.
          rewrite lookup_app_l in Hi by done.
          apply Hno0. by eapply list_elem_of_lookup_2.
        - destruct (decide (length l < i)) as [Hlt|?]; [|lia].
          exfalso. apply Hno. apply list_elem_of_lookup. exists (length l).
          apply lookup_take_Some. split; [|done]. by rewrite lookup_drop. }
      rewrite Hch. split.
      * apply chars_inj. rewrite chars_str, Hc.
        change (c :: l ++ ?k) with ((c :: l) ++ k).
        by rewrite take_app_length' by (simpl; lia).
      * apply chars_inj. rewrite chars_str.
        change (c :: l ++ ?k) with ((c :: l) ++ k).
        rewrite drop_app_ge by (simpl; lia).
        by replace (1 + length l + 1 - length (c :: l)) with 1 by (simpl; lia).
Qed.

(** X2: the asset name [getDependencyDetails] derives has no slash and no
    dot, and only its first run of dashes was shrunk: when it has a dash,
    the first one is not followed by another. *)
Theorem assetName_sanitized (depName : string) :
  let asset := chars (getDependencyDetails depName).1.1 in
  ("/"%char ∉ asset) ∧ ("."%char ∉ asset) ∧
  ("-"%char ∉ asset ∨
   ∃ pre rest, asset = pre ++ "-"%char :: rest ∧
               ("-"%char ∉ pre) ∧ head rest ≠ Some "-"%char).
Proof.
  unfold getDependencyDetails. simpl.
  unfold replace_first_run, replace_class. rewrite !chars_str.
  split; [|split].
  - intros (y & Hy & _)%shrink_first_run_elem%list_elem_of_fmap.
    case_decide as Hin; [done|]. apply Hin. subst y. set_solver.
  - intros (y & Hy & _)%shrink_first_run_elem%list_elem_of_fmap.
    case_decide as Hin; [done|]. apply Hin. subst y. set_solver.
  - apply shrink_first_run_shape.
Qed.

(** X3: for an identifier without slash and dot and without two dashes in
    a row, the asset name is the identifier itself, less the [@] a scoped
    name starts with. *)
Theorem assetName_of_plain_name (depName assetName id version : string) :
  getDependencyDetails depName = (assetName, id, version) →
  "/"%char ∉ chars id → "."%char ∉ chars id →
  (∀ i, chars id !! i = Some "-"%char → chars id !! S i ≠ Some "-"%char) →
  id = (if startsWith "@" id then "@" else "") +:+ assetName.
Proof.
  unfold getDependencyDetails.
  set (id' := if (0 <? indexOf "@" 1 depName)%Z then _ else _).
  intros [= <- <- _] Hslash Hdot Hadj.
  unfold replace_first_run, replace_class. rewrite chars_str.
  assert (∀ l : list ascii, "/"%char ∉ l → "."%char ∉ l →
            (λ x, if decide (x ∈ ["/"%char; "."%char]) then "-"%char else x) <$> l = l)
    as Hmap.
  { induction l as [|x l IH]; [done|]. rewrite !not_elem_of_cons.
    intros [? ?] [? ?]. rewrite fmap_cons, IH by done.
    rewrite decide_False; [done|].
    intros [?|[?|?%elem_of_nil]%elem_of_cons]%elem_of_cons; congruence. }
  destruct id' as [|c rest] eqn:Hid; [done|]. simpl.
  case_bool_decide as Hc.
  - subst c. unfold substring_from. simpl. rewrite drop_0.
    change (chars (String "@" rest)) with ("@"%char :: chars rest) in *.
    rewrite not_elem_of_cons in Hslash, Hdot.
    rewrite str_chars, Hmap by tauto.
    rewrite shrink_first_run_id, str_chars; [done|].
    intros i Hi. apply (Hadj (S i) Hi).
  - rewrite Hmap by done. by rewrite shrink_first_run_id, str_chars.
Qed.

Lemma assetName_of_plain_name_witness :
  getDependencyDetails "@scope-pkg@^1.0" = ("scope-pkg", "@scope-pkg", "^1.0")
  ∧ "@scope-pkg" = "@" +:+ "scope-pkg".
Proof.
  split; [reflexivity|].
  apply (assetName_of_plain_name "@scope-pkg@^1.0" "scope-pkg" "@scope-pkg" "^1.0").
  - reflexivity.
  - refine (bool_decide_unpack _ _). by vm_compute.
  - refine (bool_decide_unpack _ _). by vm_compute.
  - intros i. unfold chars. simpl.
    do 10 (destruct i as [|i]; [simpl; congruence|]).
    simpl. congruence.
Defined.

End ImportmapSpec.

(** ** Resolving an importmap *)

Module ResolveSpec.
Import Str Importmap.

Section Facts.

Variable host : Host.

Local Abbreviation resolve_import := (Importmap.resolve_import host).
Local Abbreviation resolve_imports := (Importmap.resolve_imports host).
Local Abbreviation inherit_all := (Importmap.inherit_all host).
Local Abbreviation resolveImportmap := (Importmap.resolveImportmap host).
Local Abbreviation readImportmap := (Importmap.readImportmap host).
Local Abbreviation readImportmap_with := (Importmap.readImportmap_with host).
Local Abbreviation getLocalDependencyVersion :=
  (Importmap.getLocalDependencyVersion host).

Lemma and_then_Done {A B} (o : outcome A) (k : A → outcome B) b :
  and_then o k = Done b ↔ ∃ a, o = Done a ∧ k a = Done b.
Proof.
  destruct o; simpl; (split; [intros Hk; try done; by eexists|]);
    by intros (a' & [= <-] & Hk).
Qed.

(** *** The keys of [imports] *)

(** A key gives a dependency of its identifier, without parents, when its
    value is a string, and none otherwise. *)
Lemma resolve_import_shape dir depName url r :
  resolve_import dir depName url = Done r →
  match url with
  | UrlString _ =>
      ∃ d, r.1 = [d] ∧ name d = (getDependencyDetails depName).1.2 ∧
           parents d = None
  | UrlOther => r.1 = []
  end.
Proof.
  unfold Importmap.resolve_import.
  destruct (getDependencyDetails depName) as [[assetName identifier] versionSpec].
  destruct url as [url|]; [|by intros [= <-]]. simpl.
  repeat (case_match; simpl);
    rewrite ?and_then_Done; try done;
    try (intros [= <-]; by eexists);
    intros (versions & _ & [= <-]); by eexists.
Qed.

Lemma resolve_imports_shape dir entries acc r :
  resolve_imports dir entries acc = Done r →
  ∃ new, r.1 = acc.1 ++ new ∧
         name <$> new = omap key_identifier entries ∧
         Forall (λ d, parents d = None) new.
Proof.
  revert acc. induction entries as [|[depName url] entries IH]; intros acc; simpl.
  { intros [= <-]. exists []. by rewrite app_nil_r. }
  intros (r1 & H1 & Hrest)%and_then_Done.
  apply IH in Hrest as (new & -> & Hnames & Hnone). simpl.
  apply resolve_import_shape in H1.
  unfold key_identifier at 1. simpl.
  destruct url as [url|].
  - destruct H1 as (d & -> & Hd & Hp). exists (d :: new).
    rewrite <- app_assoc. split; [done|]. split.
    + by rewrite fmap_cons, Hd, Hnames.
    + by constructor.
  - rewrite H1, app_nil_r. by exists new.
Qed.

(** *** Inheriting *)

Lemma add_parent_explicit n p (l : list SharedDependency) :
  Forall (λ d, parents d = None) l → add_parent n p l = l.
Proof.
  induction 1 as [|d l Hd _ IH]; simpl; [done|].
  destruct (String.eqb (name d) n); [by rewrite Hd|by rewrite IH].
Qed.

Lemma add_parent_app n p (l1 l2 : list SharedDependency) :
  n ∉ name <$> l1 → add_parent n p (l1 ++ l2) = l1 ++ add_parent n p l2.
Proof.
  induction l1 as [|d l1 IH]; simpl; [done|].
  rewrite not_elem_of_cons. intros [Hne Hnot].
  destruct (String.eqb (name d) n) eqn:E.
  - apply String.eqb_eq in E. congruence.
  - by rewrite IH.
Qed.

Lemma add_parent_first_explicit n p (l1 l2 : list SharedDependency) :
  Forall (λ d, parents d = None) l1 → n ∈ name <$> l1 →
  add_parent n p (l1 ++ l2) = l1 ++ l2.
Proof.
  induction 1 as [|d l1 Hd _ IH]; simpl; [by intros ?%elem_of_nil|].
  destruct (String.eqb (name d) n) eqn:E; [by rewrite Hd|].
  apply String.eqb_neq in E.
  intros [?|Hin]%elem_of_cons; [congruence|]. by rewrite IH.
Qed.

Lemma add_parent_names n p (l : list SharedDependency) :
  name <$> add_parent n p l = name <$> l.
Proof.
  induction l as [|d l IH]; simpl; [done|].
  destruct (String.eqb (name d) n); [by destruct (parents d)|].
  by rewrite !fmap_cons, IH.
Qed.

Lemma add_parent_parents n p seen (l : list SharedDependency) :
  p ∈ seen →
  (∀ d, d ∈ l → ∃ ps, parents d = Some ps ∧ ps ≠ [] ∧ ps ⊆ seen) →
  ∀ d, d ∈ add_parent n p l → ∃ ps, parents d = Some ps ∧ ps ≠ [] ∧ ps ⊆ seen.
Proof.
  intros Hp. induction l as [|d0 l IH]; intros Hl d; simpl.
  { by intros ?%elem_of_nil. }
  destruct (String.eqb (name d0) n).
  - destruct (Hl d0) as (ps & Hps & Hne & Hsub); [apply elem_of_cons; by left|].
    rewrite Hps. intros [->|Hd]%elem_of_cons.
    + exists (ps ++ [p]). simpl. split; [done|]. split; [by destruct ps|].
      intros x [Hx| ->%list_elem_of_singleton]%elem_of_app; auto.
    + apply Hl, elem_of_cons. by right.
  - intros [->|Hd]%elem_of_cons.
    + apply Hl, elem_of_cons. by left.
    + apply IH; [|done]. intros d' Hd'. apply Hl, elem_of_cons. by right.
Qed.

Lemma list_find_name_None (n : string) (l : list SharedDependency) :
  list_find (λ dep, name dep = n) l = None ↔ n ∉ name <$> l.
Proof.
  rewrite list_find_None, Forall_forall. split.
  - intros Hl (d & -> & Hd)%list_elem_of_fmap. by apply (Hl d).
  - intros Hn d Hd Heq. apply Hn. rewrite <- Heq. by apply list_elem_of_fmap_2.
Qed.

Lemma inherit_dependency_after explicit seen p deps added dependency :
  Forall (λ d, parents d = None) explicit → p ∈ seen →
  inherited_after explicit seen deps added →
  ∃ added', inherited_after explicit seen
              (inherit_dependency p deps dependency) added'.
Proof.
  intros Hex Hp [-> Hnd Hfresh Hpar]. unfold inherit_dependency.
  destruct (list_find _ _) as [found|] eqn:Hfind.
  - destruct (decide (name dependency ∈ name <$> explicit)) as [Hin|Hnot].
    + exists added. split; try done. by apply add_parent_first_explicit.
    + exists (add_parent (name dependency) p added). split.
      * by apply add_parent_app.
      * by rewrite add_parent_names.
      * intros d (i & Hi)%list_elem_of_lookup.
        assert (name d ∈ name <$> added) as Hin.
        { rewrite <- (add_parent_names (name dependency) p).
          apply list_elem_of_fmap_2. by eapply list_elem_of_lookup_2. }
        apply list_elem_of_fmap in Hin as (d' & -> & Hd'). by apply Hfresh.
      * by apply add_parent_parents.
  - apply list_find_name_None in Hfind.
    rewrite fmap_app, elem_of_app in Hfind.
    eexists (added ++ [_]). split.
    + by rewrite <- app_assoc.
    + rewrite fmap_app. apply NoDup_app. split; [done|]. split.
      * intros n Hn ->%list_elem_of_singleton. simpl in *. tauto.
      * apply NoDup_singleton.
    + intros d [Hd| ->%list_elem_of_singleton]%elem_of_app; [by apply Hfresh|].
      simpl. tauto.
    + intros d [Hd| ->%list_elem_of_singleton]%elem_of_app; [by apply Hpar|].
      simpl. exists [p]. split; [done|]. split; [done|].
      by intros x ->%list_elem_of_singleton.
Qed.

Lemma inherited_after_more explicit seen seen' deps added :
  seen ⊆ seen' →
  inherited_after explicit seen deps added →
  inherited_after explicit seen' deps added.
Proof.
  intros Hsub [? ? ? Hpar]. split; try done.
  intros d (ps & ? & ? & ?)%Hpar. exists ps. split; [done|].
  split; [done|]. by etrans.
Qed.

Lemma inherit_from_after explicit seen p other deps added :
  Forall (λ d, parents d = None) explicit → p ∈ seen →
  inherited_after explicit seen deps added →
  ∃ added', inherited_after explicit seen (inherit_from p other deps) added'.
Proof.
  intros Hex Hp. unfold inherit_from. revert deps added.
  induction other as [|dependency other IH]; intros deps added Hia; simpl.
  { by exists added. }
  destruct (inherit_dependency_after explicit seen p deps added dependency)
    as [added' Hia']; [done..|].
  by apply (IH _ added').
Qed.

Lemma inherit_all_after read dir explicit seen inheritedImports acc added r :
  Forall (λ d, parents d = None) explicit →
  inherited_after explicit seen acc.1 added →
  inherit_all read dir inheritedImports acc = Done r →
  ∃ added', inherited_after explicit (seen ++ inheritedImports) r.1 added'.
Proof.
  intros Hex. revert acc added seen.
  induction inheritedImports as [|p rest IH]; intros acc added seen Hia; simpl.
  { intros [= <-]. exists added. by rewrite app_nil_r. }
  replace (seen ++ p :: rest) with ((seen ++ [p]) ++ rest)
    by by rewrite <- app_assoc.
  destruct (tryResolvePackage host _ dir) as [packageJson|].
  - destruct (require host _) as [details|]; [|done].
    intros (other & _ & Hrest)%and_then_Done.
    destruct (inherit_from_after explicit (seen ++ [p]) p other.1 acc.1 added)
      as [added' Hia']; [done|set_solver| |].
    { eapply inherited_after_more; [|done]. set_solver. }
    by eapply (IH (_, _)), Hrest.
  - apply IH with (added := added).
    eapply inherited_after_more; [|done]. set_solver.
Qed.

(** The dependencies of an importmap that resolves. *)
Lemma resolveImportmap_structure fuel dir im r :
  resolveImportmap fuel dir im = Done r →
  ∃ explicit added,
    r.1 = explicit ++ added ∧
    name <$> explicit = omap key_identifier (default [] (imports im)) ∧
    Forall (λ d, parents d = None) explicit ∧
    NoDup (name <$> added) ∧
    (∀ d, d ∈ added → name d ∉ name <$> explicit) ∧
    (∀ d, d ∈ added →
       ∃ ps, parents d = Some ps ∧ ps ≠ [] ∧ ps ⊆ default [] (inherit im)).
Proof.
  destruct fuel as [|fuel]; [done|]. simpl.
  intros (direct & Hdirect & Hinh)%and_then_Done.
  assert (∃ explicit, direct.1 = explicit ∧
            name <$> explicit = omap key_identifier (default [] (imports im)) ∧
            Forall (λ d, parents d = None) explicit)
    as (explicit & Hd1 & Hnames & Hnone).
  { destruct (imports im) as [entries|]; simpl.
    - apply resolve_imports_shape in Hdirect as (new & -> & ? & ?).
      by exists new.
    - injection Hdirect as <-. by exists []. }
  destruct (inherit im) as [inheritedImports|]; simpl.
  - eapply (inherit_all_after _ _ explicit [] _ _ []) in Hinh
      as [added [-> ? ? ?]]; [by exists explicit, added|done|].
    split; [by rewrite app_nil_r|constructor|by intros ? ?%elem_of_nil..].
  - injection Hinh as <-. exists explicit, []. rewrite app_nil_r.
    split; [done|]. split; [done|]. split; [done|]. split; [constructor|].
    split; by intros ? ?%elem_of_nil.
Qed.

Lemma filter_explicit (explicit added : list SharedDependency) :
  Forall (λ d, parents d = None) explicit →
  (∀ d, d ∈ added → is_Some (parents d)) →
  filter (λ d, parents d = None) (explicit ++ added) = explicit ∧
  filter (λ d, is_Some (parents d)) (explicit ++ added) = added.
Proof.
  intros Hex Hadd. rewrite !filter_app. split.
  - rewrite (ListFacts.filter_in_all _ explicit) by by apply Forall_forall.
    rewrite (ListFacts.filter_in_none _ added), app_nil_r; [done|].
    intros d [ps Hd]%Hadd. congruence.
  - rewrite (ListFacts.filter_in_none _ explicit), (ListFacts.filter_in_all _ added);
      [done..|].
    intros d Hd [ps Hps]. rewrite Forall_forall in Hex.
    rewrite (Hex d Hd) in Hps. done.
Qed.

(** X4: when [resolveImportmap] returns, the dependencies without parents,
    those the importmap names itself, come first and the inherited ones
    after them; there is one explicit dependency for each key of [imports]
    whose value is a string, in the order of the keys, under the identifier
    of the key. Two keys with one identifier (a package under two version
    ranges) give two dependencies of one name. *)
Theorem explicit_dependencies_follow_keys fuel dir im r :
  resolveImportmap fuel dir im = Done r →
  let explicit := filter (λ d, parents d = None) r.1 in
  let inherited := filter (λ d, is_Some (parents d)) r.1 in
  r.1 = explicit ++ inherited ∧
  name <$> explicit = omap key_identifier (default [] (imports im)).
Proof.
  intros (explicit & added & Hr & Hnames & Hnone & _ & _ & Hpar)%resolveImportmap_structure.
  simpl. rewrite Hr.
  destruct (filter_explicit explicit added Hnone) as [-> ->]; [|done].
  intros d (ps & -> & _)%Hpar. by eexists.
Qed.

(** X5: an inherited dependency never shadows another one. When
    [resolveImportmap] returns, the names of the inherited dependencies are
    pairwise distinct, none is the name of an explicit dependency, and each
    inherited dependency lists its parents: at least one, all of them
    packages of [inherit]. *)
Theorem inherited_never_shadow fuel dir im r :
  resolveImportmap fuel dir im = Done r →
  let explicit := filter (λ d, parents d = None) r.1 in
  let inherited := filter (λ d, is_Some (parents d)) r.1 in
  NoDup (name <$> inherited) ∧
  ∀ d, d ∈ inherited →
    (name d ∉ name <$> explicit) ∧
    ∃ ps, parents d = Some ps ∧ ps ≠ [] ∧ ps ⊆ default [] (inherit im).
Proof.
  intros (explicit & added & Hr & _ & Hnone & Hnd & Hfresh & Hpar)%resolveImportmap_structure.
  simpl. rewrite Hr.
  destruct (filter_explicit explicit added Hnone) as [-> ->].
  { intros d (ps & -> & _)%Hpar. by eexists. }
  split; [done|]. intros d Hd. split; [by apply Hfresh|by apply Hpar].
Qed.

(** X6: an importmap whose values are all URLs of the web resolves without
    the file system: one remote dependency for each key, in order, named by
    the identifier of the key and identified by seven characters of the
    hash of the URL, with the URL as entry and reference; nothing fails and
    nothing is logged. *)
Theorem remote_imports_resolve fuel dir (entries : list (string * string)) :
  Forall (λ e, is_remote e.2 = true) entries →
  resolveImportmap (S fuel) dir
    {| imports := Some ((λ e, (e.1, UrlString e.2)) <$> entries);
       inherit := None |}
  = Done (remote_dependency host <$> entries, []).
Proof.
  intros Hremote. simpl.
  assert (∀ acc : resolved,
            resolve_imports dir ((λ e, (e.1, UrlString e.2)) <$> entries) acc
            = Done (acc.1 ++ (remote_dependency host <$> entries), acc.2)) as ->.
  { induction Hremote as [|[depName url] entries Hurl _ IH]; intros acc; simpl.
    - rewrite app_nil_r. by destruct acc.
    - unfold Importmap.resolve_import. simpl in Hurl.
      unfold remote_dependency at 2. simpl.
      destruct (getDependencyDetails depName) as [[assetName identifier] spec].
      rewrite Hurl. simpl. rewrite IH. simpl.
      by rewrite <- app_assoc, app_nil_r. }
  done.
Qed.

(** X7: inheritance is followed without a check for cycles. An importmap
    that inherits from the package it belongs to (the package resolves from
    the directory to its own package.json, which holds this importmap) is
    never resolved, however deep the recursion may go. *)
Theorem self_inheritance_never_resolves dir im p rest packageJson details :
  inherit im = Some (p :: rest) →
  tryResolvePackage host (p +:+ "/package.json") dir = Some packageJson →
  dirname host packageJson = dir →
  require host (Some packageJson) = Some details →
  importmap details = ImportmapValue im →
  ∀ fuel r, resolveImportmap fuel dir im ≠ Done r.
Proof.
  intros Hinh Htry Hdir Hreq Him fuel.
  induction fuel as [|fuel IH]; intros r; [done|]. simpl.
  intros (direct & _ & Hall)%and_then_Done.
  rewrite Hinh in Hall. simpl in Hall. rewrite Htry, Hreq, Hdir in Hall.
  apply and_then_Done in Hall as (other & Hother & _).
  unfold Importmap.readImportmap_with in Hother. rewrite Him in Hother.
  by apply IH in Hother.
Qed.

End Facts.

Lemma explicit_dependencies_follow_keys_witness :
  ∃ r, Importmap.resolveImportmap DemoFs.host 2 "/app" DemoFs.app_importmap = Done r ∧
       name <$> filter (λ d, parents d = None) r.1 = ["react"; "lodash"].
Proof.
  eexists. split; [reflexivity|].
  exact (proj2 (explicit_dependencies_follow_keys DemoFs.host 2 "/app"
                  DemoFs.app_importmap _ eq_refl)).
Defined.

Lemma inherited_never_shadow_witness :
  ∃ r, Importmap.resolveImportmap DemoFs.host 2 "/app" DemoFs.app_importmap = Done r ∧
       NoDup (name <$> filter (λ d, is_Some (parents d)) r.1).
Proof.
  eexists. split; [reflexivity|].
  exact (proj1 (inherited_never_shadow DemoFs.host 2 "/app"
                  DemoFs.app_importmap _ eq_refl)).
Defined.

Lemma remote_imports_resolve_witness :
  Importmap.resolveImportmap DemoFs.host 1 "/app"
    {| imports := Some [("lodash@4", UrlString "https://cdn.example.com/lodash.js")];
       inherit := None |}
  = Done ([{| id := "lodash@sha:htt"; requireId := "lodash@sha:htt";
              entry := Some "https://cdn.example.com/lodash.js";
              name := "lodash";
              ref := Some "https://cdn.example.com/lodash.js";
              type := remote; parents := None |}], []).
Proof.
  apply (remote_imports_resolve DemoFs.host 0 "/app"
           [("lodash@4", "https://cdn.example.com/lodash.js")]).
  repeat constructor.
Defined.

Lemma self_inheritance_never_resolves_witness :
  inherit DemoFs.loop_importmap = Some ["loop"] ∧
  Importmap.resolveImportmap DemoFs.host 7 "/loop" DemoFs.loop_importmap
  ≠ Done ([], []).
Proof.
  split; [reflexivity|].
  apply (self_inheritance_never_resolves DemoFs.host "/loop" DemoFs.loop_importmap
           "loop" [] "/loop/package.json"
           (DemoFs.package "1.0.0" (ImportmapValue DemoFs.loop_importmap)));
    reflexivity.
Defined.

End ResolveSpec.

(** ** Importmaps that fail, and parents of the time before importmaps *)

Module ResolveEdges.
Import Str Importmap.

Section Facts.

Variable host : Host.

Local Abbreviation resolve_import := (Importmap.resolve_import host).
Local Abbreviation resolve_imports := (Importmap.resolve_imports host).
Local Abbreviation inherit_all := (Importmap.inherit_all host).
Local Abbreviation resolveImportmap := (Importmap.resolveImportmap host).
Local Abbreviation getLocalDependencyVersion :=
  (Importmap.getLocalDependencyVersion host).

Lemma failed_and_then {A B} (o : outcome A) (k : A → outcome B) :
  failed o → failed (and_then o k).
Proof. intros [->|(code & args & ->)]; [by left|right; by eexists _, _]. Qed.

Lemma getLocalDependencyVersion_fuel packageJson depName versionSpec :
  getLocalDependencyVersion packageJson depName versionSpec ≠ OutOfFuel.
Proof.
  unfold Importmap.getLocalDependencyVersion.
  destruct (require host packageJson); [|done].
  destruct (negb (String.eqb versionSpec "")); [|done].
  destruct (negb (validate host versionSpec)); [done|].
  by destruct (negb (satisfies host _ versionSpec)).
Qed.

Lemma resolve_import_fuel dir depName url :
  resolve_import dir depName url ≠ OutOfFuel.
Proof.
  unfold Importmap.resolve_import.
  destruct (getDependencyDetails depName) as [[assetName identifier] versionSpec].
  destruct url as [url|]; [|done].
  assert (∀ packageJson (k : option string * option string → outcome resolved),
            (∀ v, k v ≠ OutOfFuel) →
            and_then (getLocalDependencyVersion packageJson depName versionSpec) k
            ≠ OutOfFuel) as Hlocal.
  { intros packageJson k Hk.
    pose proof (getLocalDependencyVersion_fuel packageJson depName versionSpec).
    destruct (getLocalDependencyVersion _ _ _); simpl; [apply Hk|done..]. }
  repeat (first [done | apply Hlocal; intros ?
                | match goal with
                  | |- context [if ?b then _ else _] => destruct b
                  | |- context [match ?o with Some _ => _ | None => _ end] =>
                      destruct o
                  end]).
Qed.

Lemma resolve_imports_failed dir entries depName url acc :
  (depName, url) ∈ entries →
  failed (resolve_import dir depName url) →
  failed (resolve_imports dir entries acc).
Proof.
  intros Hin Hfail. revert acc.
  induction entries as [|[d u] entries IH]; intros acc; [by apply elem_of_nil in Hin|].
  simpl. apply elem_of_cons in Hin as [[= <- <-]|Hin].
  { by apply failed_and_then. }
  pose proof (resolve_import_fuel dir d u) as Hfuel.
  destruct (resolve_import dir d u) as [r|code args| |]; simpl.
  - by apply IH.
  - right. by eexists _, _.
  - by left.
  - done.
Qed.

(** X8: a key of [imports] whose value is a string, and no URL of the
    web, refers to a package: the package of its identifier when the value
    is the identifier or one of the shorthands, the package the value
    names when it neither starts with a dot nor is absolute, and else the
    file or directory at the path the value gives. When that package
    cannot be resolved (the path does not exist, or is a directory without
    package.json), when its package.json cannot be loaded, or when the key
    carries a version range that is not valid or that the installed
    version does not meet, the whole resolution fails: it ends with [fail]
    or with an exception, gives no dependencies, and ends as if nothing
    were inherited, so before any inherited importmap is looked at. *)
Theorem failing_key_fails (fuel : nat) (dir : string) (im : Importmap)
    (entries : list (string * url_value))
    (depName url assetName identifier versionSpec : string) :
  let unmet packageJson :=
    require host packageJson = None ∨
    ∃ details,
      require host packageJson = Some details ∧ versionSpec ≠ "" ∧
      (validate host versionSpec = false ∨
       satisfies host (version details) versionSpec = false) in
  let unresolved package :=
    match tryResolvePackage host package dir with
    | None => True
    | Some entry => unmet (findFile host (dirname host entry) "package.json")
    end in
  let path := path_resolve host dir url in
  imports im = Some entries →
  (depName, UrlString url) ∈ entries →
  getDependencyDetails depName = (assetName, identifier, versionSpec) →
  is_remote url = false →
  ((url = identifier ∨ url ∈ shorthandsUrls) ∧ unresolved identifier) ∨
  (url ≠ identifier ∧ (url ∉ shorthandsUrls) ∧
   String.prefix "." url = false ∧ isAbsolute host url = false ∧
   unresolved url) ∨
  (url ≠ identifier ∧ (url ∉ shorthandsUrls) ∧
   (String.prefix "." url = true ∨ isAbsolute host url = true) ∧
   (checkExists host (Some path) = false ∨
    (checkIsDirectory host path = true ∧
     (checkExists host (Some (path_resolve host path "package.json")) = false ∨
      unmet (Some (path_resolve host path "package.json")))) ∨
    (checkIsDirectory host path = false ∧
     checkExists host (findFile host (dirname host path) "package.json") = true ∧
     unmet (findFile host (dirname host path) "package.json")))) →
  failed (resolveImportmap (S fuel) dir im) ∧
  resolveImportmap (S fuel) dir im
  = resolveImportmap (S fuel) dir {| imports := imports im; inherit := None |}.
Proof.
  intros unmet unresolved path Him Hin Hdetails Hremote Hbad.
  assert (∀ packageJson (k : option string * option string → outcome resolved),
            unmet packageJson →
            failed (and_then
                      (getLocalDependencyVersion packageJson depName versionSpec)
                      k)) as Hunmet.
  { intros packageJson k Hu. apply failed_and_then.
    unfold Importmap.getLocalDependencyVersion.
    destruct Hu as [->|(details & -> & Hspec & Hu)]; [by left|].
    apply String.eqb_neq in Hspec. rewrite Hspec. simpl.
    destruct (validate host versionSpec) eqn:Hvalid; simpl.
    - destruct Hu as [?|Hsat]; [done|]. rewrite Hsat. simpl.
      right. by eexists _, _.
    - right. by eexists _, _. }
  assert (∀ package (k : string → outcome resolved) code args,
            unresolved package →
            (∀ entry,
               unmet (findFile host (dirname host entry) "package.json") →
               failed (k entry)) →
            failed (match tryResolvePackage host package dir with
                    | Some entry => k entry
                    | None => Failed code args
                    end)) as Hunresolved.
  { intros package k code args Hu Hk. unfold unresolved in Hu.
    destruct (tryResolvePackage host package dir) as [entry|].
    - by apply Hk.
    - right. by eexists _, _. }
  assert (failed (resolve_import dir depName (UrlString url))) as Hkey.
  { unfold Importmap.resolve_import. rewrite Hdetails, Hremote.
    destruct Hbad as [[Hname Hu]|[(Hid & Hshort & Hdot & Habs & Hu)
                                 |(Hid & Hshort & Hpath & Hu)]].
    - assert ((String.eqb url identifier || bool_decide (url ∈ shorthandsUrls))
              = true) as ->.
      { apply orb_true_iff. destruct Hname as [->|Hname].
        - left. apply String.eqb_refl.
        - right. by apply bool_decide_eq_true. }
      apply Hunresolved; [done|]. intros entry He. by apply Hunmet.
    - apply String.eqb_neq in Hid. rewrite Hid.
      rewrite bool_decide_eq_false_2 by done. simpl.
      rewrite Hdot, Habs. simpl.
      apply Hunresolved; [done|]. intros entry He. by apply Hunmet.
    - apply String.eqb_neq in Hid. rewrite Hid.
      rewrite bool_decide_eq_false_2 by done. simpl.
      assert ((negb (String.prefix "." url) && negb (isAbsolute host url))
              = false) as ->.
      { apply andb_false_iff. destruct Hpath as [->| ->]; [by left|by right]. }
      fold path.
      destruct Hu as [->|[(Hdir & Hu)|(Hdir & Hex & Hu)]].
      + right. by eexists _, _.
      + destruct (checkExists host (Some path)); [|right; by eexists _, _].
        rewrite Hdir. destruct Hu as [->|Hu].
        * right. by eexists _, _.
        * destruct (checkExists host _); [by apply Hunmet|].
          right. by eexists _, _.
      + destruct (checkExists host (Some path)); [|right; by eexists _, _].
        rewrite Hdir, Hex. by apply Hunmet. }
  pose proof (resolve_imports_failed dir entries depName (UrlString url)
                ([], []) Hin Hkey) as Hall.
  simpl. rewrite Him.
  split; [by apply failed_and_then|].
  by destruct Hall as [->|(code & args & ->)].
Qed.

Lemma inherit_all_missing read dir inheritedImports acc :
  (∀ p, p ∈ inheritedImports →
        tryResolvePackage host (p +:+ "/package.json") dir = None) →
  inherit_all read dir inheritedImports acc = Done acc.
Proof.
  induction inheritedImports as [|p rest IH]; intros Hnone; simpl; [done|].
  rewrite (Hnone p) by (apply elem_of_cons; by left).
  apply IH. intros q Hq. apply Hnone, elem_of_cons. by right.
Qed.

(** X9: a package of [inherit] that cannot be resolved is passed over
    without an error: when none of them resolves, the importmap gives what
    it gives without [inherit]. *)
Theorem missing_parents_skipped (fuel : nat) (dir : string) (im : Importmap) :
  (∀ p, p ∈ default [] (inherit im) →
        tryResolvePackage host (p +:+ "/package.json") dir = None) →
  resolveImportmap (S fuel) dir im
  = resolveImportmap (S fuel) dir {| imports := imports im; inherit := None |}.
Proof.
  intros Hnone. simpl.
  destruct (match imports im with
            | Some sharedImports => resolve_imports dir sharedImports ([], [])
            | None => Done ([], [])
            end) as [direct| | |]; simpl; try done.
  destruct (inherit im) as [inheritedImports|]; [|done].
  by apply inherit_all_missing.
Qed.

(** The names of a list in the order in which they come first, and the
    dependency a parent hands down under a name with its [parents]. *)
Local Abbreviation firsts :=
  (foldl (λ (seen : list string) (n : string),
            if decide (n ∈ seen) then seen else seen ++ [n]) []).
Local Abbreviation times :=
  (λ (n : string) (items : list string), length (filter (λ i, i = n) items)).
Local Abbreviation handed :=
  (λ (ps : string → list string) (n : string),
     {| id := n; requireId := n; entry := Some n; name := n; ref := None;
        type := local; parents := Some (ps n) |}).

Lemma firsts_snoc (l : list string) (x : string) :
  firsts (l ++ [x]) = if decide (x ∈ firsts l) then firsts l else firsts l ++ [x].
Proof. by rewrite foldl_app. Qed.

Lemma firsts_elem (l : list string) (n : string) : n ∈ firsts l ↔ n ∈ l.
Proof.
  induction l as [|x l IH] using rev_ind; [done|].
  rewrite firsts_snoc, elem_of_app, list_elem_of_singleton.
  destruct (decide (x ∈ firsts l)) as [Hx|Hx].
  - rewrite IH. split; [by left|]. intros [?| ->]; [done|]. by apply IH.
  - by rewrite elem_of_app, list_elem_of_singleton, IH.
Qed.

Lemma firsts_nodup (l : list string) : NoDup (firsts l).
Proof.
  induction l as [|x l IH] using rev_ind; [apply NoDup_nil_2|].
  rewrite firsts_snoc. destruct (decide (x ∈ firsts l)) as [Hx|Hx]; [done|].
  apply NoDup_app. split; [done|]. split; [|apply NoDup_singleton].
  by intros n Hn ->%list_elem_of_singleton.
Qed.

Lemma firsts_of_nodup (l : list string) : NoDup l → firsts l = l.
Proof.
  induction l as [|x l IH] using rev_ind; [done|].
  intros (Hl & Hx & _)%NoDup_app. rewrite firsts_snoc, IH by done.
  rewrite decide_False; [done|].
  intros Hin. apply (Hx x Hin), list_elem_of_singleton. done.
Qed.

Lemma times_nodup (l : list string) (n : string) :
  NoDup l → n ∈ l → times n l = 1.
Proof.
  induction 1 as [|x l Hx Hl IH]; [by intros ?%elem_of_nil|].
  rewrite filter_cons. intros [->|Hn]%elem_of_cons.
  - rewrite decide_True by done. simpl. f_equal.
    apply length_zero_iff_nil, ListFacts.filter_in_none. by intros i Hi ->.
  - rewrite decide_False by (by intros ->). by apply IH.
Qed.

Lemma add_parent_handed p x (ps : string → list string) (l : list string) :
  NoDup l → x ∈ l →
  add_parent x p ((λ n, handed ps n) <$> l)
  = (λ n, handed (λ n, if decide (n = x) then ps n ++ [p] else ps n) n) <$> l.
Proof.
  induction 1 as [|n l Hn Hl IH]; [by intros ?%elem_of_nil|].
  intros Hx. simpl. destruct (String.eqb n x) eqn:E.
  - apply String.eqb_eq in E. subst n. rewrite decide_True by done.
    f_equal. apply list_fmap_ext. intros _ n Hin%list_elem_of_lookup_2.
    rewrite decide_False; [done|]. by intros ->.
  - apply String.eqb_neq in E. rewrite decide_False by done. f_equal.
    apply elem_of_cons in Hx as [->|Hx]; [done|]. by apply IH.
Qed.

Lemma inherit_handed p (seen : list string) (x : string) :
  inherit_dependency p
    ((λ n, handed (λ n, replicate (times n seen) p) n) <$> firsts seen)
    (fallback_dependency x)
  = (λ n, handed (λ n, replicate (times n (seen ++ [x])) p) n)
      <$> firsts (seen ++ [x]).
Proof.
  unfold inherit_dependency. simpl. rewrite firsts_snoc.
  assert (∀ n, times n (seen ++ [x])
               = times n seen + (if decide (n = x) then 1 else 0)) as Htimes.
  { intros n. rewrite filter_app, length_app, filter_cons, filter_nil.
    destruct (decide (x = n)) as [->|Hne].
    - by rewrite decide_True.
    - by rewrite decide_False by (by intros ->). }
  destruct (decide (x ∈ firsts seen)) as [Hx|Hx].
  - destruct (list_find _ _) as [found|] eqn:Hfind.
    2:{ apply ResolveSpec.list_find_name_None in Hfind. exfalso. apply Hfind.
        rewrite <- list_fmap_compose.
        apply list_elem_of_fmap. by exists x. }
    rewrite add_parent_handed by (done || apply firsts_nodup).
    apply list_fmap_ext. intros _ n _. simpl. rewrite Htimes.
    destruct (decide (n = x)).
    + by rewrite Nat.add_1_r, replicate_S_end.
    + by rewrite Nat.add_0_r.
  - rewrite (proj2 (ResolveSpec.list_find_name_None x _)).
    2:{ rewrite <- list_fmap_compose.
        by intros (n & -> & Hn)%list_elem_of_fmap. }
    rewrite fmap_app. simpl. f_equal.
    + apply list_fmap_ext. intros _ n Hn%list_elem_of_lookup_2. simpl.
      rewrite Htimes, decide_False, Nat.add_0_r; [done|]. by intros ->.
    + rewrite Htimes, decide_True by done.
      rewrite (ListFacts.filter_in_none _ seen); [done|].
      intros i Hi ->. by apply Hx, firsts_elem.
Qed.

Lemma inherit_from_handed p (items seen : list string) :
  inherit_from p (fallback_dependency <$> items)
    ((λ n, handed (λ n, replicate (times n seen) p) n) <$> firsts seen)
  = (λ n, handed (λ n, replicate (times n (seen ++ items)) p) n)
      <$> firsts (seen ++ items).
Proof.
  unfold inherit_from. revert seen.
  induction items as [|x items IH]; intros seen; simpl.
  { by rewrite app_nil_r. }
  rewrite inherit_handed, IH. by rewrite <- app_assoc.
Qed.

(** X10: a parent without importmap, of the time before importmaps, hands
    down the names it lists as [sharedDependencies], or as
    [pilets.externals] when it has no [sharedDependencies]: an importmap
    that only inherits from such a package resolves to one local
    dependency for each name of the list, in the order in which the names
    come first, with the name as id and entry, no reference, and as
    parents the package once for each time the list has the name. When no
    name is listed twice, that is one dependency for each entry of the
    list, with the package as its only parent. *)
Theorem legacy_parent_hands_down (fuel : nat) (dir : string) (im : Importmap)
    (p packageJson : string) (details : PackageDetails) (items : list string) :
  let firsts :=
    foldl (λ (seen : list string) (n : string),
             if decide (n ∈ seen) then seen else seen ++ [n]) [] items in
  let times n := length (filter (λ i, i = n) items) in
  let handed n :=
    {| id := n; requireId := n; entry := Some n; name := n; ref := None;
       type := local; parents := Some (replicate (times n) p) |} in
  imports im = None → inherit im = Some [p] →
  tryResolvePackage host (p +:+ "/package.json") dir = Some packageJson →
  require host (Some packageJson) = Some details →
  importmap details = ImportmapUndefined →
  sharedDependencies details = ArrayOf items ∨
  (sharedDependencies details = Nullish ∧ pilets_externals details = ArrayOf items) →
  resolveImportmap (S fuel) dir im = Done (handed <$> firsts, []) ∧
  (NoDup items →
   resolveImportmap (S fuel) dir im
   = Done (inherited_fallback p <$> items, [])).
Proof.
  intros firsts' times' handed' Himports Hinherit Htry Hreq Him Hshared.
  assert (resolveImportmap (S fuel) dir im = Done (handed' <$> firsts', []))
    as Hresult.
  { simpl. rewrite Himports, Hinherit. simpl. rewrite Htry, Hreq.
    unfold readImportmap_with. rewrite Him.
    assert (match sharedDependencies details with
            | Nullish => pilets_externals details
            | given => given
            end = ArrayOf items) as ->.
    { destruct Hshared as [H1|[H1 H2]]; rewrite H1; [done|]. by rewrite H2. }
    simpl. f_equal. f_equal. exact (inherit_from_handed p items []). }
  split; [done|]. intros Hnd. rewrite Hresult. f_equal. f_equal.
  unfold firsts'. rewrite firsts_of_nodup by done.
  apply list_fmap_ext. intros _ n Hn%list_elem_of_lookup_2.
  unfold handed', times', inherited_fallback. by rewrite times_nodup.
Qed.

(** *** The depth of the recursion *)

Lemma and_then_fuel {A B} (o : outcome A) (k : A → outcome B) :
  and_then o k ≠ OutOfFuel → o ≠ OutOfFuel.
Proof. by destruct o. Qed.

Lemma readImportmap_with_deeper
    (shallow deep : string → Importmap → outcome resolved)
    dir packageDetails inherited :
  (∀ dir im, shallow dir im ≠ OutOfFuel → deep dir im = shallow dir im) →
  readImportmap_with host shallow dir packageDetails inherited ≠ OutOfFuel →
  readImportmap_with host deep dir packageDetails inherited
  = readImportmap_with host shallow dir packageDetails inherited.
Proof.
  intros Hdeep. unfold readImportmap_with.
  destruct (importmap packageDetails) as [|path|content]; try apply Hdeep.
  - destruct inherited; [|apply Hdeep].
    destruct (match sharedDependencies packageDetails with
              | Nullish => pilets_externals packageDetails
              | given => given
              end); try apply Hdeep. done.
  - destruct (readJson host dir path); [apply Hdeep|done].
Qed.

Lemma inherit_all_deeper
    (shallow deep : string → PackageDetails → bool → outcome resolved)
    dir inheritedImports acc :
  (∀ dir details inherited,
     shallow dir details inherited ≠ OutOfFuel →
     deep dir details inherited = shallow dir details inherited) →
  inherit_all shallow dir inheritedImports acc ≠ OutOfFuel →
  inherit_all deep dir inheritedImports acc
  = inherit_all shallow dir inheritedImports acc.
Proof.
  intros Hdeep. revert acc.
  induction inheritedImports as [|p rest IH]; intros acc; simpl; [done|].
  destruct (tryResolvePackage host _ dir) as [packageJson|]; [|apply IH].
  destruct (require host (Some packageJson)) as [details|]; [|done].
  intros Hfuel. rewrite Hdeep by by apply and_then_fuel in Hfuel.
  destruct (shallow _ details true) as [other| | |]; simpl in *; try done.
  by apply IH.
Qed.

(** Once [resolveImportmap] has ended within some depth, with
    dependencies or with a failure, a greater depth changes nothing. *)
Lemma resolveImportmap_deeper fuel fuel' dir im :
  fuel ≤ fuel' →
  resolveImportmap fuel dir im ≠ OutOfFuel →
  resolveImportmap fuel' dir im = resolveImportmap fuel dir im.
Proof.
  revert fuel' dir im. induction fuel as [|fuel IH]; intros fuel' dir im Hle.
  { done. }
  destruct fuel' as [|fuel']; [lia|]. simpl.
  destruct (match imports im with
            | Some sharedImports => resolve_imports dir sharedImports ([], [])
            | None => Done ([], [])
            end) as [direct| | |]; simpl; try done.
  destruct (inherit im) as [inheritedImports|]; [|done].
  apply inherit_all_deeper.
  intros dir' details inherited. apply readImportmap_with_deeper.
  intros dir'' im'. apply IH. lia.
Qed.

End Facts.

Lemma failing_key_fails_witness :
  failed (Importmap.resolveImportmap DemoFs.host 1 "/app"
            {| imports := Some [("pad@^1", UrlString "left-pad")];
               inherit := Some ["shell"] |}) ∧
  Importmap.resolveImportmap DemoFs.host 1 "/app"
    {| imports := Some [("pad@^1", UrlString "left-pad")];
       inherit := Some ["shell"] |}
  = Importmap.resolveImportmap DemoFs.host 1 "/app"
      {| imports := Some [("pad@^1", UrlString "left-pad")];
         inherit := None |}.
Proof.
  apply (failing_key_fails DemoFs.host 0 "/app"
           {| imports := Some [("pad@^1", UrlString "left-pad")];
              inherit := Some ["shell"] |}
           [("pad@^1", UrlString "left-pad")]
           "pad@^1" "left-pad" "pad" "pad" "^1").
  - reflexivity.
  - apply elem_of_cons. by left.
  - reflexivity.
  - reflexivity.
  - right. left. split; [done|]. split.
    + refine (bool_decide_unpack _ _). by vm_compute.
    + by vm_compute.
Defined.

Lemma missing_parents_skipped_witness :
  Importmap.resolveImportmap DemoFs.host 1 "/app"
    {| imports := Some [("lodash", UrlString "https://cdn.example.com/lodash.js")];
       inherit := Some ["piral-base"] |}
  = Importmap.resolveImportmap DemoFs.host 1 "/app"
      {| imports := Some [("lodash", UrlString "https://cdn.example.com/lodash.js")];
         inherit := None |}.
Proof.
  apply (missing_parents_skipped DemoFs.host 0 "/app"
           {| imports := Some [("lodash", UrlString "https://cdn.example.com/lodash.js")];
              inherit := Some ["piral-base"] |}).
  simpl. intros p ->%list_elem_of_singleton. reflexivity.
Defined.

Lemma legacy_parent_hands_down_witness :
  Importmap.resolveImportmap DemoFs.host 1 "/pilet" DemoFs.legacy_importmap
  = Done ([inherited_fallback "legacy-shell" "react";
           inherited_fallback "legacy-shell" "react-dom"], []).
Proof.
  refine (proj2 (legacy_parent_hands_down DemoFs.host 0 "/pilet"
                   DemoFs.legacy_importmap "legacy-shell"
                   "/pilet/node_modules/legacy-shell/package.json"
                   DemoFs.legacy_shell ["react"; "react-dom"]
                   eq_refl eq_refl eq_refl eq_refl eq_refl
                   (or_intror (conj eq_refl eq_refl))) _).
  refine (bool_decide_unpack _ _). by vm_compute.
Defined.

(** A parent of that time that lists a name twice. *)
Example listed_twice_handed_once (host : Host) (dir p packageJson : string) :
  tryResolvePackage host (p +:+ "/package.json") dir = Some packageJson →
  require host (Some packageJson)
  = Some {| Importmap.version := None;
            Importmap.importmap := ImportmapUndefined;
            sharedDependencies := ArrayOf ["react"; "vue"; "react"];
            pilets_externals := Nullish |} →
  Importmap.resolveImportmap host 1 dir
    {| imports := None; inherit := Some [p] |}
  = Done ([{| id := "react"; requireId := "react"; entry := Some "react";
              name := "react"; ref := None; type := local;
              parents := Some [p; p] |};
           inherited_fallback p "vue"], []).
Proof. intros Htry Hreq. simpl. by rewrite Htry, Hreq. Qed.

End ResolveEdges.

(** ** The externals of a package *)

Module PackageSpec.
Import Str Importmap Package StrFacts ListFacts.

Lemma indexOf_absent c s : indexOf c 0 s = (-1)%Z ↔ c ∉ chars s.
Proof.
  destruct (indexOf_cases c 0 s) as [[Hi Hno]|(i & Hi & Hc & _)].
  - by rewrite drop_0 in Hno.
  - split; [lia|]. intros []. by eapply list_elem_of_lookup_2.
Qed.

Lemma indexOf_first c s : indexOf c 0 s = 0%Z ↔ startsWith c s = true.
Proof.
  destruct (indexOf_cases c 0 s) as [[Hi Hno]|(i & Hi & Hc & Hno)].
  - rewrite drop_0 in Hno. rewrite Hi. split; [done|].
    destruct s as [|x s]; [done|]. simpl. intros Hx%bool_decide_eq_true.
    destruct Hno. subst x. apply elem_of_cons. by left.
  - rewrite Hi. rewrite drop_0 in Hno. simpl in Hc.
    destruct s as [|x s]; [done|]. simpl. rewrite bool_decide_eq_true.
    change (chars (String x s)) with (x :: chars s) in *.
    destruct i as [|i]; simpl in *.
    + split; [intros _; congruence|done].
    + split; [lia|]. intros ->. destruct Hno. apply elem_of_cons. by left.
Qed.

Lemma split_length c s :
  length (Codegen.split c s) = S (length (filter (λ x, x = c) (chars s))).
Proof.
  induction s as [|x s IH]; [done|].
  change (chars (String x s)) with (x :: chars s).
  rewrite filter_cons. simpl.
  destruct (Ascii.eqb x c) eqn:E.
  - apply Ascii.eqb_eq in E. rewrite decide_True by done. simpl. by rewrite IH.
  - apply Ascii.eqb_neq in E. rewrite decide_False by done.
    destruct (Codegen.split c s); simpl in *; [lia|done].
Qed.

(** X11: [isValidDependency] accepts the names without a slash, and those
    that start with [@] and have one slash (a scoped package); with a slash
    and no scope, or with two slashes, a name is a path into a package and
    is refused. *)
Theorem isValidDependency_spec (name : string) :
  isValidDependency name = true ↔
  let slashes := length (filter (λ x, x = "/"%char) (chars name)) in
  slashes = 0 ∨ (startsWith "@" name = true ∧ slashes ≤ 1).
Proof.
  unfold isValidDependency. simpl.
  rewrite orb_true_iff, andb_true_iff, !Z.eqb_eq, Nat.ltb_lt.
  rewrite indexOf_absent, indexOf_first, split_length.
  assert ("/"%char ∉ chars name
          ↔ length (filter (λ x, x = "/"%char) (chars name)) = 0) as ->.
  { rewrite length_zero_iff_nil. split.
    - intros Hno. apply filter_in_none. intros x Hx ->. done.
    - intros Hnil Hin. eapply (filter_nil_not_elem_of _ _ _ Hnil); done. }
  split; (intros [?|[? ?]]; [by left|right; split; [done|lia]]).
Qed.

(** *** The loop of [combinePiletExternals] *)

Lemma combine_from_spec appShells i externals importmap :
  i ≤ length importmap →
  combine_from appShells i externals importmap
  = Some (externals
            ++ reverse (name <$> filter (λ e, central appShells e) (take i importmap)),
          filter (λ e, ¬ central appShells e) (take i importmap)
            ++ drop i importmap).
Proof.
  revert externals importmap.
  induction i as [|i IH]; intros externals importmap Hi; simpl.
  { by rewrite app_nil_r, drop_0. }
  destruct (lookup_lt_is_Some_2 importmap i) as [entry Hentry]; [lia|].
  rewrite Hentry, (take_S_r _ _ _ Hentry), !filter_app, !filter_cons, !filter_nil.
  assert (match parents entry with
          | Some ps =>
              if in_all_parents appShells ps then
                combine_from appShells i (externals ++ [name entry])
                  (delete i importmap)
              else combine_from appShells i externals importmap
          | None => combine_from appShells i externals importmap
          end
          = if central appShells entry then
              combine_from appShells i (externals ++ [name entry])
                (delete i importmap)
            else combine_from appShells i externals importmap) as ->.
  { unfold central. by destruct (parents entry). }
  destruct (central appShells entry) eqn:Hc.
  - rewrite IH by (rewrite length_delete by (by eexists); lia).
    rewrite delete_take_drop.
    rewrite take_app_le, take_take, Nat.min_id by (rewrite length_take; lia).
    rewrite drop_app_ge, length_take, drop_drop by (rewrite length_take; lia).
    replace (S i + (i - i `min` length importmap)) with (S i) by lia.
    rewrite decide_True, decide_False by (simpl; tauto).
    rewrite fmap_app, reverse_app, app_nil_r. simpl.
    by rewrite <- !app_assoc.
  - rewrite (IH externals importmap) by lia.
    rewrite (drop_S _ _ _ Hentry).
    rewrite decide_False, decide_True by (simpl; tauto).
    by rewrite app_nil_r, <- !app_assoc.
Qed.

Lemma combinePiletExternals_eq appShells peerDependencies peerModules importmap :
  combinePiletExternals appShells peerDependencies peerModules importmap
  = Some (peerDependencies.*1 ++ peerModules
            ++ reverse (name <$> filter (λ e, central appShells e) importmap),
          filter (λ e, ¬ central appShells e) importmap).
Proof.
  unfold combinePiletExternals. rewrite combine_from_spec by lia.
  by rewrite firstn_all, drop_all, app_nil_r, <- app_assoc.
Qed.

Lemma explicit_not_central appShells e :
  parents e = None → ¬ central appShells e.
Proof. intros He. unfold central. rewrite He. by intros []. Qed.

(** X12: [combinePiletExternals] never reads past the importmap, and splits
    it in two: the inherited entries that every app shell has among their
    parents leave the importmap and join the externals, after the peer
    dependencies and the peer modules and in reverse order; all other
    entries stay, in their order. An entry without parents, named by the
    importmap itself, always stays; and with no app shell every inherited
    entry leaves. *)
Theorem combinePiletExternals_partition (appShells : list string)
    (peerDependencies : list (string * string)) (peerModules : list string)
    (importmap : list SharedDependency) :
  combinePiletExternals appShells peerDependencies peerModules importmap
  = Some (peerDependencies.*1 ++ peerModules
            ++ reverse (name <$> filter (λ e, central appShells e) importmap),
          filter (λ e, ¬ central appShells e) importmap)
  ∧ (∀ e, parents e = None → ¬ central appShells e)
  ∧ (∀ e, central [] e ↔ is_Some (parents e)).
Proof.
  split; [|split].
  - apply combinePiletExternals_eq.
  - apply explicit_not_central.
  - intros e. unfold central. destruct (parents e); simpl.
    + split; [by eexists|done].
    + split; [by intros []|by intros [? ?]].
Qed.

End PackageSpec.

(** ** From the importmap to the externals *)

Module ExternalsSpec.
Import Str Importmap Package ListFacts.

Section Facts.

Variable host : Host.

Local Abbreviation resolveImportmap := (Importmap.resolveImportmap host).

Lemma central_inherited appShells (explicit added : list SharedDependency) :
  Forall (λ d, parents d = None) explicit →
  filter (λ e, central appShells e) (explicit ++ added)
  = filter (λ e, central appShells e) added.
Proof.
  intros Hex. rewrite filter_app, (filter_in_none _ explicit); [done|].
  intros d Hd. rewrite Forall_forall in Hex. unfold central.
  rewrite (Hex d Hd). by intros [].
Qed.

Lemma in_all_parents_subseteq appShells ps :
  in_all_parents appShells ps = true ↔ appShells ⊆ ps.
Proof.
  unfold in_all_parents. rewrite forallb_forall. split.
  - intros Hall app Happ. apply (bool_decide_unpack _), Is_true_true, Hall.
    by apply list_elem_of_In.
  - intros Hsub app Happ%list_elem_of_In. apply bool_decide_eq_true. auto.
Qed.

(** X13: on what [resolveImportmap] returns, [combinePiletExternals] shares
    every dependency in one way only. The names it moves to the externals
    are pairwise distinct and belong to inherited dependencies that all app
    shells offer; no entry left in the importmap has one of these names;
    and the explicit dependencies are all left in the importmap. *)
Theorem shared_centrally_or_distributed (fuel : nat) (dir : string)
    (im : Importmap) (r : resolved) (appShells : list string)
    (peerDependencies : list (string * string)) (peerModules : list string) :
  resolveImportmap fuel dir im = Done r →
  ∃ moved kept,
    combinePiletExternals appShells peerDependencies peerModules r.1
    = Some (peerDependencies.*1 ++ peerModules ++ moved, kept) ∧
    NoDup moved ∧
    (∀ d, d ∈ kept → name d ∉ moved) ∧
    filter (λ d, parents d = None) kept = filter (λ d, parents d = None) r.1 ∧
    (∀ n, n ∈ moved →
       ∃ d ps, d ∈ r.1 ∧ name d = n ∧ parents d = Some ps ∧ appShells ⊆ ps).
Proof.
  intros (explicit & added & Hr & _ & Hnone & Hnd & Hfresh & _)
    %ResolveSpec.resolveImportmap_structure.
  eexists _, _. split; [apply PackageSpec.combinePiletExternals_eq|].
  rewrite Hr, (central_inherited _ _ _ Hnone).
  split; [|split; [|split]].
  - rewrite reverse_Permutation. by apply NoDup_fmap_filter.
  - intros d [Hd Hin]%list_elem_of_filter.
    rewrite elem_of_reverse.
    intros (d' & Hname & [Hc' Hd']%list_elem_of_filter)%list_elem_of_fmap.
    apply elem_of_app in Hin as [Hin|Hin].
    + apply (Hfresh d' Hd'). rewrite <- Hname. by apply list_elem_of_fmap_2.
    + apply Hd. by rewrite (NoDup_fmap_elem_inj name added d d' Hnd Hin Hd' Hname).
  - rewrite list_filter_filter. apply filter_in_ext.
    intros d _. split; [tauto|]. intros Hd. split; [done|].
    by apply PackageSpec.explicit_not_central.
  - intros n (d & -> & [Hc Hd]%list_elem_of_filter)%elem_of_reverse%list_elem_of_fmap.
    unfold central in Hc. destruct (parents d) as [ps|] eqn:Hps; [|done].
    exists d, ps. split; [apply elem_of_app; by right|].
    split; [done|]. split; [done|].
    by apply in_all_parents_subseteq, Is_true_true.
Qed.

Variable makeExternals : string → gmap string string → array_field → list string.

Local Abbreviation retrieveExternals :=
  (Package.retrieveExternals host makeExternals).

Lemma resolve_imports_total dir entries acc :
  (∀ depName url, (depName, url) ∈ entries →
     ∃ r, Importmap.resolve_import host dir depName url = Done r) →
  ∃ r, Importmap.resolve_imports host dir entries acc = Done r.
Proof.
  revert acc. induction entries as [|[depName url] entries IH]; intros acc Hall.
  { by eexists. }
  simpl. destruct (Hall depName url) as [r ->]; [apply elem_of_cons; by left|].
  simpl. apply IH. intros d u Hin. apply Hall, elem_of_cons. by right.
Qed.

(** X14: for a package with an importmap, [retrieveExternals] ends as the
    resolution of the importmap ends: it fails when that fails, and when
    that gives dependencies it returns their names, or the externals of
    [makeExternals] when there is no dependency at all. The names are the
    identifiers of the keys of [imports] with a string value, in the order
    of the keys and as often as they occur, and after them the names
    inherited, each once and none of them an identifier of a key. It does
    return: when every key resolves and no package to inherit from is
    found, it returns the identifiers of the keys, at any depth; and once
    the resolution has ended within a depth, it ends in the same way at
    every greater depth. *)
Theorem retrieveExternals_of_importmap (fuel : nat) (root : string)
    (packageInfo : PackageInfo) (im : Importmap) :
  let explicit := omap key_identifier (default [] (imports im)) in
  let legacy :=
    makeExternals root (dependencies packageInfo ∪ devDependencies packageInfo)
      (pilets_externals (details packageInfo)) in
  let externals (names : list string) :=
    match names with [] => legacy | _ => names end in
  importmap (details packageInfo) = ImportmapValue im →
  retrieveExternals fuel root packageInfo
  = and_then (resolveImportmap fuel root im)
      (λ r, Done (externals (name <$> r.1), r.2)) ∧
  (∀ r, resolveImportmap fuel root im = Done r →
     ∃ inherited,
       name <$> r.1 = explicit ++ inherited ∧ NoDup inherited ∧
       ∀ n, n ∈ inherited → n ∉ explicit) ∧
  ((∀ depName url, (depName, url) ∈ default [] (imports im) →
      ∃ r, Importmap.resolve_import host root depName url = Done r) →
   (∀ p, p ∈ default [] (inherit im) →
      tryResolvePackage host (p +:+ "/package.json") root = None) →
   ∃ logged,
     retrieveExternals (S fuel) root packageInfo
     = Done (externals explicit, logged)) ∧
  (∀ fuel', fuel ≤ fuel' → resolveImportmap fuel root im ≠ OutOfFuel →
     retrieveExternals fuel' root packageInfo
     = retrieveExternals fuel root packageInfo).
Proof.
  intros explicit legacy externals Him.
  assert (∀ fuel,
            retrieveExternals fuel root packageInfo
            = and_then (resolveImportmap fuel root im)
                (λ r, Done (externals (name <$> r.1), r.2))) as Heq.
  { intros k. unfold Package.retrieveExternals, readImportmap, readImportmap_with.
    rewrite Him. destruct (resolveImportmap k root im) as [r| | |]; try done.
    simpl. by destruct r.1. }
  split; [apply Heq|]. split; [|split].
  - intros r (direct & added & Hsplit & Hnames & _ & Hnd & Hfresh & _)
      %ResolveSpec.resolveImportmap_structure.
    exists (name <$> added). unfold explicit. rewrite Hsplit, fmap_app, Hnames.
    split; [done|]. split; [done|].
    intros n (d & -> & Hd)%list_elem_of_fmap. rewrite <- Hnames.
    by apply Hfresh.
  - intros Hkeys Hparents. rewrite Heq. simpl.
    assert (∃ r, match imports im with
                 | Some sharedImports =>
                     Importmap.resolve_imports host root sharedImports ([], [])
                 | None => Done ([], [])
                 end = Done r ∧ name <$> r.1 = explicit) as (r & -> & Hnames).
    { unfold explicit. destruct (imports im) as [entries|]; simpl in *.
      - destruct (resolve_imports_total root entries ([], []) Hkeys) as [r Hr].
        exists r. split; [done|].
        apply ResolveSpec.resolve_imports_shape in Hr as (new & Hr & Hnew & _).
        by rewrite Hr.
      - by exists ([], []). }
    simpl. destruct (inherit im) as [inheritedImports|]; simpl in *.
    + rewrite ResolveEdges.inherit_all_missing by done. simpl.
      rewrite Hnames. by eexists.
    + rewrite Hnames. by eexists.
  - intros fuel' Hle Hfuel. rewrite !Heq.
    by rewrite (ResolveEdges.resolveImportmap_deeper host fuel fuel').
Qed.

(** X15: a package without the field [importmap] gets the externals of
    [makeExternals], computed from its dependencies (which take precedence
    over the development dependencies of the same name) and from
    [pilets.externals]; what [sharedDependencies] holds is not looked at,
    and nothing can fail. *)
Theorem retrieveExternals_legacy (fuel : nat) (root : string)
    (packageInfo : PackageInfo) :
  importmap (details packageInfo) = ImportmapUndefined →
  retrieveExternals (S fuel) root packageInfo
  = Done (makeExternals root
            (dependencies packageInfo ∪ devDependencies packageInfo)
            (pilets_externals (details packageInfo)), [])
  ∧ ∀ n v, dependencies packageInfo !! n = Some v →
           (dependencies packageInfo ∪ devDependencies packageInfo) !! n = Some v.
Proof.
  intros Him. split.
  - unfold Package.retrieveExternals, readImportmap, readImportmap_with.
    by rewrite Him.
  - intros n v Hn. by apply lookup_union_Some_l.
Qed.

End Facts.

Lemma shared_centrally_or_distributed_witness :
  ∃ r, Importmap.resolveImportmap DemoFs.host 2 "/app" DemoFs.app_importmap = Done r ∧
  ∃ kept,
    combinePiletExternals ["shell"] [("react-dom", "17.0.2")] ["shared-module"] r.1
    = Some (["react-dom"; "shared-module"; "vue"], kept) ∧
    name <$> kept = ["react"; "lodash"].
Proof.
  eexists. split; [reflexivity|].
  destruct (shared_centrally_or_distributed DemoFs.host 2 "/app"
              DemoFs.app_importmap _ ["shell"] [("react-dom", "17.0.2")]
              ["shared-module"] eq_refl) as (moved & kept & Hc & _).
  eexists. split; [reflexivity|reflexivity].
Defined.

Lemma retrieveExternals_of_importmap_witness :
  Package.retrieveExternals DemoFs.host DemoFs.makeExternals 2 "/app"
    DemoFs.app_package
  = Done (["react"; "lodash"; "vue"],
          [("generalInfo_0000",
            "The value of " +:+ double_quote +:+ "broken" +:+ double_quote
            +:+ " in the importmap is not a string and will be ignored.")]).
Proof.
  rewrite (proj1 (retrieveExternals_of_importmap DemoFs.host DemoFs.makeExternals
                    2 "/app" DemoFs.app_package DemoFs.app_importmap eq_refl)).
  reflexivity.
Defined.

Lemma retrieveExternals_legacy_witness :
  Package.retrieveExternals DemoFs.host DemoFs.makeExternals 1 "/app"
    DemoFs.legacy_package = Done (["vue"], []).
Proof.
  exact (proj1 (retrieveExternals_legacy DemoFs.host DemoFs.makeExternals 0
                  "/app" DemoFs.legacy_package eq_refl)).
Defined.

End ExternalsSpec.

(** ** The keys the filler leaves alone, and the list of externals *)

Module CodegenFrame.
Import Str Codegen StrFacts ListFacts.

Section Facts.

Variable package_version : string → option string.

Local Abbreviation getIdentifiers := (Codegen.getIdentifiers package_version).
Local Abbreviation createDependencies := (Codegen.createDependencies package_version).


End Facts.


(** *** [split] and the list of externals *)

Lemma split_no_sep c s : c ∉ chars s → split c s = [s].
Proof.
  induction s as [|x s IH]; [done|].
  change (chars (String x s)) with (x :: chars s).
  rewrite not_elem_of_cons. intros [Hx Hs]. simpl.
  rewrite (proj2 (Ascii.eqb_neq x c)) by done. by rewrite IH.
Qed.

Lemma split_first c s rest :
  c ∉ chars s → split c (s +:+ String c rest) = s :: split c rest.
Proof.
  induction s as [|x s IH].
  - intros _. simpl. by rewrite Ascii.eqb_refl.
  - change (chars (String x s)) with (x :: chars s).
    rewrite not_elem_of_cons. intros [Hx Hs]. simpl.
    rewrite (proj2 (Ascii.eqb_neq x c)) by done. by rewrite IH.
Qed.

Lemma split_elem c s w : w ∈ split c s → c ∉ chars w.
Proof.
  revert w. induction s as [|x s IH]; intros w; simpl.
  - intros ->%list_elem_of_singleton. apply not_elem_of_nil.
  - destruct (Ascii.eqb x c) eqn:E.
    + intros [->|Hw]%elem_of_cons; [apply not_elem_of_nil|by apply IH].
    + apply Ascii.eqb_neq in E.
      destruct (split c s) as [|v vs]; simpl.
      * intros ->%list_elem_of_singleton.
        change (chars (String x "")) with [x].
        intros ->%list_elem_of_singleton. done.
      * intros [->|Hw]%elem_of_cons.
        -- change (chars (String x v)) with (x :: chars v).
           rewrite not_elem_of_cons. split; [congruence|].
           apply IH, elem_of_cons. by left.
        -- apply IH, elem_of_cons. by right.
Qed.

(** X17: the shared dependencies are the segments of
    [SHARED_DEPENDENCIES] between commas, in order, without the empty ones:
    a variable that is not set or empty gives none, a leading, trailing or
    doubled comma adds nothing, and no name of the list is empty or holds a
    comma. *)
Theorem externals_segments (appName : option string) :
  let shared s := {| BUILD_PCKG_NAME := appName; SHARED_DEPENDENCIES := s |} in
  externals (shared None) = [] ∧
  externals (shared (Some "")) = [] ∧
  (∀ n, ","%char ∉ chars n →
     externals (shared (Some n)) = if decide (n = "") then [] else [n]) ∧
  (∀ n rest, ","%char ∉ chars n →
     externals (shared (Some (n +:+ "," +:+ rest)))
     = (if decide (n = "") then [] else [n]) ++ externals (shared (Some rest))) ∧
  (∀ s n, n ∈ externals (shared s) → n ≠ "" ∧ ","%char ∉ chars n).
Proof.
  simpl. unfold externals. simpl.
  split; [done|]. split; [done|]. split; [|split].
  - intros n Hn. rewrite split_no_sep by done.
    rewrite filter_cons, filter_nil.
    destruct (decide (n = "")) as [->|Hne];
      [by rewrite decide_False by (intros H; by apply H)
      |by rewrite decide_True by done].
  - intros n rest Hn.
    change ("," +:+ rest) with (String ","%char rest).
    rewrite split_first by done. rewrite filter_cons.
    destruct (decide (n = "")) as [->|Hne];
      [by rewrite decide_False by (intros H; by apply H)
      |by rewrite decide_True by done].
  - intros s n [Hne Hin]%list_elem_of_filter. split; [done|].
    by eapply split_elem.
Qed.

End CodegenFrame.

(** ** The address of the socket *)

Module SocketSpec.
Import Str Emulator EmulatorSocket StrFacts.

Lemma replace_first_in_eq pattern by_ l :
  replace_first_in pattern by_ l
  = if decide (pattern `prefix_of` l) then by_ ++ drop (length pattern) l
    else match l with
         | x :: rest => x :: replace_first_in pattern by_ rest
         | [] => []
         end.
Proof. by destruct l. Qed.

Lemma includes_in_eq pattern l :
  includes_in pattern l
  = if decide (pattern `prefix_of` l) then true
    else match l with
         | _ :: rest => includes_in pattern rest
         | [] => false
         end.
Proof. by destruct l. Qed.

Lemma replace_at_start pattern by_ rest :
  Str.replace pattern by_ (pattern +:+ rest) = by_ +:+ rest.
Proof.
  unfold Str.replace. rewrite chars_app, replace_first_in_eq.
  rewrite decide_True by by apply prefix_app_r.
  by rewrite drop_app_length, str_app, !str_chars.
Qed.

Lemma replace_absent pattern by_ s :
  includes pattern s = false → Str.replace pattern by_ s = s.
Proof.
  unfold includes, Str.replace. intros Hno.
  rewrite <- (str_chars s) at 2. f_equal.
  induction (chars s) as [|x l IH].
  - rewrite replace_first_in_eq. rewrite includes_in_eq in Hno.
    by destruct (decide _).
  - rewrite replace_first_in_eq. rewrite includes_in_eq in Hno.
    destruct (decide _); [done|]. by rewrite IH.
Qed.

Lemma string_prefix_app p s : String.prefix p s = true → ∃ rest, s = p +:+ rest.
Proof.
  revert s. induction p as [|a p IH]; intros s.
  - intros _. by exists s.
  - destruct s as [|b s]; simpl; [done|].
    destruct (ascii_dec a b) as [->|]; [|done].
    intros [rest ->]%IH. by exists rest.
Qed.

(** X18: the socket is opened at the address that is fetched, with the
    first [http] replaced by [ws]. An address that starts with [http]
    keeps all that follows, so that [https] becomes [wss]; this is the
    case of every API address that is a full URI. An address without
    [http] is used as it is. *)
Theorem socket_follows_scheme (origin api : string) :
  (∀ rest, initialTarget origin api = "http" +:+ rest →
           updateTarget origin api = "ws" +:+ rest) ∧
  (is_http api = true →
     ∃ rest, api = "http" +:+ rest ∧ initialTarget origin api = api ∧
             updateTarget origin api = "ws" +:+ rest) ∧
  (includes "http" (initialTarget origin api) = false →
     updateTarget origin api = initialTarget origin api).
Proof.
  unfold updateTarget. split; [|split].
  - intros rest ->. apply replace_at_start.
  - intros Hhttp. unfold initialTarget. rewrite Hhttp.
    unfold is_http in Hhttp. apply orb_true_iff in Hhttp as [H|H];
      apply string_prefix_app in H as [rest ->].
    + exists (":" +:+ rest). split; [done|]. split; [done|].
      apply (replace_at_start "http" "ws" (":" +:+ rest)).
    + exists ("s:" +:+ rest). split; [done|]. split; [done|].
      apply (replace_at_start "http" "ws" ("s:" +:+ rest)).
  - apply replace_absent.
Qed.

End SocketSpec.

(** ** The classifier on what is no object *)

Module InspectErrors.
Import Js Inspect.

(** X19: on a value that is no object [inspectPilet] throws a TypeError,
    in a browser at the first [in] and elsewhere at the test for [hash];
    it classifies objects only. *)
Theorem inspectPilet_primitive (inBrowser : bool) (p : value) :
  inspectPilet inBrowser (Primitive p) = Throw TypeError.
Proof. by destruct inBrowser. Qed.

End InspectErrors.

(** ** The bundler of a new package *)

Module BundlerSpec.
Import Str Importmap Package StrFacts.

(** The loop asks for the versions that are strings and not empty, up to
    the first one the registry has. *)
Lemma first_available_find isAvailable versions asked0 :
  let tried :=
    omap (λ version : option string,
            version ≫= λ v, if decide (v = "") then None else Some v)
      versions in
  first_available isAvailable versions asked0
  = match list_find (λ v, isAvailable v = true) tried with
    | Some (i, v) => (Some v, asked0 ++ take (S i) tried)
    | None => (None, asked0 ++ tried)
    end.
Proof.
  simpl. revert asked0.
  induction versions as [|[version|] rest IH]; intros asked0; simpl.
  - by rewrite app_nil_r.
  - destruct (decide (version = "")) as [->|Hne]; simpl; [apply IH|].
    rewrite (proj2 (String.eqb_neq version "")) by done.
    destruct (isAvailable version) eqn:Hav.
    + rewrite decide_True by done. by rewrite take_0.
    + rewrite decide_False by done. rewrite IH.
      destruct (list_find _ _) as [[i v]|]; simpl; by rewrite <- app_assoc.
  - apply IH.
Qed.

(** A bundler written as a name, or as a name, [@] and a version. *)
Lemma bundler_without_version (name : string) :
  "@"%char ∉ drop 1 (chars name) →
  indexOf "@" 1 name = (-1)%Z ∧
  substring 0 (length (chars name)) name = name.
Proof.
  intros Hno. split.
  - by destruct (indexOf_cases "@" 1 name) as [[-> _]|(i & _ & Hi & _)];
      [|exfalso; apply Hno, list_elem_of_lookup; exists i;
        by rewrite lookup_drop].
  - unfold substring. by rewrite drop_0, Nat.sub_0_r, firstn_all, str_chars.
Qed.

Lemma bundler_with_version (name version : string) :
  name ≠ "" → "@"%char ∉ drop 1 (chars name) →
  let bundler := name +:+ "@" +:+ version in
  indexOf "@" 1 bundler = Z.of_nat (length (chars name)) ∧
  substring 0 (length (chars name)) bundler = name ∧
  substring_from (length (chars name) + 1) bundler = version.
Proof.
  intros Hne Hno. simpl.
  assert (chars (name +:+ "@" +:+ version)
          = chars name ++ "@"%char :: chars version) as Hch.
  { by rewrite !chars_app. }
  destruct (chars name) as [|c l] eqn:Hc; [by apply chars_nil in Hc|].
  simpl in Hno. rewrite drop_0 in Hno.
  split; [|split].
  - rewrite (indexOf_found "@" 1 _ (length l)); [done|].
    rewrite Hch. simpl. rewrite drop_0. apply list_find_first; [|done].
    apply Forall_forall. by intros y Hy ->.
  - unfold substring. rewrite drop_0, Nat.sub_0_r, Hch.
    change (c :: l ++ ?k) with ((c :: l) ++ k).
    rewrite take_app_length. by rewrite <- Hc, str_chars.
  - unfold substring_from. rewrite Hch.
    change (c :: l ++ ?k) with ((c :: l) ++ k).
    rewrite drop_app_ge by (simpl; lia).
    replace (length (c :: l) + 1 - length (c :: l)) with 1 by lia.
    simpl. rewrite drop_0. apply str_chars.
Qed.

(** The members of the set of versions that are asked for. *)
Lemma versions_tried (givenVersion : string) :
  omap (λ version : option string,
          version ≫= λ v, if decide (v = "") then None else Some v)
    (set_of [Some givenVersion;
             if includes "-beta." givenVersion then Some "next" else None;
             if includes "-alpha." givenVersion then Some "canary" else None;
             Some "latest"] [])
  = (if decide (givenVersion = "" ∨ givenVersion = "latest") then []
     else [givenVersion])
    ++ (if includes "-beta." givenVersion then ["next"] else [])
    ++ (if includes "-alpha." givenVersion then ["canary"] else [])
    ++ ["latest"].
Proof.
  destruct (decide (givenVersion = "")) as [->|Hempty]; [done|].
  destruct (decide (givenVersion = "latest")) as [->|Hlatest]; [done|].
  destruct (decide (givenVersion = "next")) as [->|Hnext]; [done|].
  destruct (decide (givenVersion = "canary")) as [->|Hcanary]; [done|].
  rewrite (decide_False (P := givenVersion = "" ∨ givenVersion = "latest"))
    by tauto.
  destruct (includes "-beta." givenVersion), (includes "-alpha." givenVersion);
    simpl;
    repeat (match goal with
            | |- context [decide (?x ∈ ?l)] =>
                lazymatch l with
                | context [@decide] => fail
                | _ =>
                    first
                      [ rewrite (decide_True (P := x ∈ l))
                          by (repeat constructor)
                      | rewrite (decide_False (P := x ∈ l))
                          by (rewrite ?elem_of_cons, ?elem_of_nil;
                              intros H; repeat destruct H as [H|H];
                              congruence) ]
                end
            end; simpl);
    by rewrite ?decide_False by done.
Qed.



End BundlerSpec.

(** ** The language of the localizer *)

Module TranslateSpec.
Import Translate.

(** X21: the localizer [setupLocalizer] makes always has a language that
    is not empty and at least one available language. Without messages the
    selected language is the only one available; and when no language is
    configured, the selected one is the first language of the messages
    (or [en]) and, unless the messages have an empty key, it is among the
    available ones. *)
Theorem setupLocalizer_language {Messages Fallback : Type}
    (config : @LocaleConfig Messages Fallback) :
  let localizer := setupLocalizer config in
  let keys := (default [] (messages config)).*1 in
  localizer_language localizer ≠ "" ∧
  localizer_languages localizer ≠ [] ∧
  (keys = [] → localizer_languages localizer = [localizer_language localizer]) ∧
  (language config = LanguageUndefined →
   localizer_language localizer = or_else (head keys) "en" ∧
   ("" ∉ keys → localizer_language localizer ∈ localizer_languages localizer)).
Proof.
  simpl. unfold setupLocalizer. simpl.
  set (keys := (default [] (messages config)).*1).
  assert (∀ a b, b ≠ "" → or_else a b ≠ "") as Hor.
  { intros [s|] b Hb; simpl; [|done].
    destruct (String.eqb s "") eqn:E; [done|]. by apply String.eqb_neq. }
  assert (or_else (head keys) "en" ≠ "") as Hdefault by by apply Hor.
  split; [by apply Hor|]. split; [|split].
  - destruct keys; simpl; done.
  - by intros ->.
  - intros ->. simpl. split; [done|]. intros Hkeys.
    destruct keys as [|k keys']; simpl; [apply list_elem_of_singleton; done|].
    destruct (String.eqb k "") eqn:E.
    + apply String.eqb_eq in E. subst k. destruct Hkeys. apply elem_of_cons. by left.
    + apply elem_of_cons. by left.
Qed.

End TranslateSpec.

(** ** The fragments of a template *)

Module OverridesSpec.
Import Package ListFacts.

Section Facts.

Context {Json : Type}.
Variable readJson : string → string → gmap string Json.
Variable resolve : string → string → string.
Variable dirname basename : string → string.

Local Abbreviation extend_from := (Package.extend_from readJson dirname basename).
Local Abbreviation fragments_for :=
  (Package.fragments_for readJson dirname basename).

Lemma extend_from_spec packageTarget i packageOverrides files :
  i ≤ length files →
  extend_from packageTarget i packageOverrides files
  = Some (match fragments_for packageTarget (take i files) with
          | [] => packageOverrides
          | fragments => Some (foldr (∪) (default ∅ packageOverrides) fragments)
          end,
          filter (λ file, targetPath file ≠ packageTarget) (take i files)
            ++ drop i files).
Proof.
  revert packageOverrides files.
  induction i as [|i IH]; intros packageOverrides files Hi; simpl.
  { by rewrite drop_0. }
  destruct (lookup_lt_is_Some_2 files i) as [file Hfile]; [lia|].
  rewrite Hfile, (take_S_r _ _ _ Hfile).
  unfold Package.fragments_for.
  rewrite !filter_app, !filter_cons, !filter_nil.
  destruct (String.eqb (targetPath file) packageTarget) eqn:E.
  - apply String.eqb_eq in E.
    rewrite IH by (rewrite length_delete by (by eexists); lia).
    rewrite delete_take_drop.
    rewrite take_app_le, take_take, Nat.min_id by (rewrite length_take; lia).
    rewrite drop_app_ge, length_take, drop_drop by (rewrite length_take; lia).
    replace (S i + (i - i `min` length files)) with (S i) by lia.
    rewrite decide_True, decide_False by (simpl; tauto).
    rewrite app_nil_r, fmap_app. simpl.
    unfold Package.fragments_for. f_equal. f_equal.
    set (fragments := _ <$> filter _ (take i files)).
    destruct fragments as [|f fs]; simpl; [done|].
    by rewrite foldr_app.
  - apply String.eqb_neq in E.
    rewrite (IH packageOverrides files) by lia.
    rewrite (drop_S _ _ _ Hfile).
    rewrite decide_False, decide_True by (simpl; tauto).
    unfold Package.fragments_for.
    by rewrite app_nil_r, <- !app_assoc.
Qed.

(** X22: [extendPackageOverridesFromTemplateFragment] takes the files that
    go to the package.json of the root out of the list, leaving the others
    in their order, and never reads past the list. Their fragments are
    merged into the package overrides: a key keeps its old value only when
    no fragment has it, and among the fragments the one of the earliest
    file decides. With no such file the overrides stay as they are, even
    when there are none. *)
Theorem fragments_override (root : string)
    (packageOverrides : option (gmap string Json)) (files : list FileDescriptor) :
  let packageTarget := resolve root "package.json" in
  let fragments := fragments_for packageTarget files in
  extendPackageOverridesFromTemplateFragment readJson resolve dirname basename
    root packageOverrides files
  = Some (match fragments with
          | [] => packageOverrides
          | _ => Some (foldr (∪) (default ∅ packageOverrides) fragments)
          end,
          filter (λ file, targetPath file ≠ packageTarget) files)
  ∧ ∀ key,
      foldr (∪) (default ∅ packageOverrides) fragments !! key
      = match list_find (λ fragment, is_Some (fragment !! key)) fragments with
        | Some (_, fragment) => fragment !! key
        | None => default ∅ packageOverrides !! key
        end.
Proof.
  simpl. split.
  - unfold Package.extendPackageOverridesFromTemplateFragment.
    rewrite extend_from_spec by lia.
    rewrite firstn_all, drop_all, app_nil_r.
    by destruct (fragments_for _ files).
  - intros key.
    induction (fragments_for (resolve root "package.json") files)
      as [|fragment fragments IH]; simpl; [done|].
    destruct (decide (is_Some (fragment !! key))) as [[v Hv]|Hnone]; simpl.
    + rewrite Hv. by apply lookup_union_Some_l.
    + apply eq_None_not_Some in Hnone.
      rewrite lookup_union_r, IH by done.
      by destruct (list_find _ fragments) as [[? ?]|].
Qed.

End Facts.
End OverridesSpec.

